(** * GenericShell: the line discipline, the output relay and the worker
      choreography of the cogserver's interactive shell

    A shallow embedding of [opencog/cogserver/shell/GenericShell.cc].

    - A [std::string] is a Rocq [string]; a byte is read as [unsigned char]
      ([uchar]) or as a promoted plain [char] ([char_val]) the way each
      comparison of the source reads it.
    - The members of the class are the fields of the record [GenericShell];
      the record also carries the part of the process the object acts on:
      the state of the evaluator it points to, the table of the
      [std::thread]s created so far, and the chronological [trace] of the
      calls made on the evaluator, on the socket and on the threads.
    - The member functions are written in a small monad [M] whose results
      are: a normal return, a call blocked in [std::thread::join], a failed
      assertion, or a dereferenced null pointer.
    - The threads are interleaved by an explicit scheduler, [step].  [eval]
      takes no lock, so a turn of the caller of [eval] holds at most one
      access to what it shares with the threads it created (one call on the
      evaluator, on the socket, of [put_output] or of [poll_output]) and
      any thread can take a turn between two of them; a turn of
      [poll_wrapper] is one call of [poll_output] or one [Send]; a turn of
      [eval_wrapper] is its call of [eval_expr]. *)

From Stdlib Require Import ZArith String Ascii List Lia Bool.
From stdpp Require Import base list.
From Equations Require Import Equations.
Import ListNotations.

Local Open Scope Z_scope.

(** ** RFC 854 and ASCII control characters (the [#define]s) *)

Definition IAC : Z := 0xff.
Definition IP : Z := 0xf4.
Definition AO : Z := 0xf5.
Definition EL : Z := 0xf8.
Definition WILL : Z := 0xfb.
Definition DO : Z := 0xfd.
Definition TIMING_MARK : Z := 0x6.

Definition EOT : Z := 0x4.
Definition SYN : Z := 0x16.
Definition CAN : Z := 0x18.
Definition ESC : Z := 0x1b.

(** ** Bytes, sizes and indices *)

(** The value of a byte read into an [unsigned char]. *)
Definition uchar (c : ascii) : Z := Z.of_N (N_of_ascii c).

(** The value of a plain [char] after integer promotion ([char] is signed
    on the platforms the cogserver builds for). *)
Definition char_val (c : ascii) : Z :=
  if 127 <? uchar c then uchar c - 256 else uchar c.

(** Storing an [int] into a [char] keeps its low eight bits. *)
Definition char_of_int (z : Z) : ascii := ascii_of_N (Z.to_N (z mod 256)).

(** [size_t] arithmetic wraps at 2^64; the conversion of a [size_t] to
    [int] keeps the low 32 bits, read as a signed number. *)
Definition size_t_sub (a b : Z) : Z := (a - b) mod 2 ^ 64.
Definition int_of_size_t (z : Z) : Z := (z + 2 ^ 31) mod 2 ^ 32 - 2 ^ 31.

Definition INT_MAX : Z := 2 ^ 31 - 1.

(** [expr.length()] *)
Definition length_of (expr : string) : Z := Z.of_nat (String.length expr).

(** [expr[i]]; [operator[]] yields the null character at [i = size()]. *)
Definition char_at (expr : string) (i : Z) : ascii :=
  match String.get (Z.to_nat i) expr with
  | Some c => c
  | None => zero
  end.

Definition newline : string := String "010" EmptyString.

(** ** The escape sequences of the line discipline *)

(** The two ways out of the loop of [line_discipline]. *)
Inductive Telnet : Type := TelnetAbort | TelnetErase.

(** What the loop finds at index [j] of the line. *)
Definition escape_at (expr : string) (j : Z) : option Telnet :=
  if IAC =? uchar (char_at expr j) then
    let c := uchar (char_at expr (j + 1)) in
    if (IP =? c) || (AO =? c) then Some TelnetAbort
    else if EL =? c then Some TelnetErase
    else None
  else None.

(** What the [while (m <= i)] loop of [line_discipline] decides: the loop
    looks at [n] indices, from [i] downwards, and leaves at the first
    escape it recognises. *)
Fixpoint scan (expr : string) (n : nat) (i : Z) : option Telnet :=
  match n with
  | O => None
  | S n' =>
      match escape_at expr i with
      | Some t => Some t
      | None => scan expr n' (i - 1)
      end
  end.

Definition iac_scan (expr : string) (m i : Z) : option Telnet :=
  scan expr (Z.to_nat (i - m + 1)) i.

(** ** The evaluator interface

    [GenericEval] is the abstract class of opencog/eval/GenericEval.h; the
    shell only uses the seven virtual methods below.  An instance gives
    each of them as a function of the evaluator's state.  [input_pending]
    and [eval_error] are the two accessors of the interface and only
    observe the state. *)

Class GenericEval (E : Type) : Type := {
  begin_eval : E -> E;
  eval_expr : string -> E -> E;
  poll_result : E -> string * E;
  interrupt : E -> E;
  clear_pending : E -> E;
  input_pending : E -> bool;
  eval_error : E -> bool
}.

(** ** Threads, sockets and the trace *)

(** A [ConsoleSocket*] that is not null. *)
Definition Socket : Type := nat.

(** Who executes: the thread that calls [eval] (the socket's receiver), or
    one of the threads the shell created, named by its index in the thread
    table. *)
Inductive Actor : Type :=
| Caller
| Thread (t : nat).

(** The virtual methods of the evaluator that can be invoked. *)
Inductive Call : Type :=
| begin_eval_call
| eval_expr_call (input : string)
| poll_result_call
| interrupt_call
| clear_pending_call
| input_pending_call
| eval_error_call.

(** Where the polling lambda stands: about to call [poll_output], about to
    send the chunk it holds, or returned. *)
Inductive PollState : Type :=
| Polling
| Sending (retstr : string)
| PollDone.

(** A [std::thread] together with the lambda it runs: [eval_wrapper] bound
    to its argument ([done] once it has returned), or [poll_wrapper]. *)
Inductive Worker : Type :=
| EvalWorker (input : string) (done : bool)
| PollWorker (at_ : PollState).

Definition finished (w : Worker) : bool :=
  match w with
  | EvalWorker _ done => done
  | PollWorker PollDone => true
  | PollWorker _ => false
  end.

Definition is_eval_worker (w : Worker) : bool :=
  match w with EvalWorker _ _ => true | PollWorker _ => false end.

Inductive Action : Type :=
| Invoke (c : Call)                     (* evaluator->c(...) *)
| Send (k : Socket) (text : string)     (* socket->Send(text) *)
| SendPrompt (k : Socket)               (* socket->sendPrompt() *)
| SetShell (k : Socket) (this : bool)   (* socket->SetShell(this / nullptr) *)
| Spawn (t : nat) (w : Worker)          (* new std::thread(w) *)
| Join (t : nat).                       (* t->join() has returned *)

Record Event : Type := { actor : Actor; action : Action }.

(** The accesses that the caller of [eval] makes to what it shares with
    the threads: the calls on the evaluator, [put_output], [poll_output]
    and the calls on the socket that [line_discipline] and [eval] make on
    the lines that are answered without an evaluation.  The string that
    [get_prompt] or [poll_output] returns is held by the caller until the
    next access uses it. *)
Inductive Op : Type :=
| OpInterrupt              (* evaluator->interrupt() *)
| OpClearPending           (* evaluator->clear_pending() *)
| OpPutAbort               (* put_output(abort_prompt) *)
| OpGetPrompt              (* get_prompt(), the argument of put_output *)
| OpPutHeld                (* put_output(<the prompt got>) *)
| OpPut (text : string)    (* put_output(text), text a literal *)
| OpPutNormal              (* put_output(normal_prompt) *)
| OpPoll                   (* std::string retstr = poll_output() *)
| OpSend                   (* socket->Send(retstr) *)
| OpSendPrompt             (* socket->sendPrompt() *)
| OpSetShell.              (* socket->SetShell(nullptr) *)

(** What [eval] does after the last of them: the test of [self_destruct],
    or [delete this]. *)
Inductive Tail : Type :=
| ThenDestruct
| ThenDelete.

(** What the head of [eval] finds out about a line: [line_discipline]
    answers it itself, by the accesses [ops], or hands [input] to
    [do_eval]. *)
Inductive Verdict : Type :=
| Answer (ops : list Op)
| Evaluate (input : string).

(** The points at which the caller of [eval] can stand while a thread
    takes a turn.  Three are the calls of [join]: in [do_eval input], in
    [eval] itself, and in the destructor; the caller stands there from the
    moment it reaches the first [join] and for as long as the thread it
    joins is running.  At [InCall ops held tail] the caller is inside
    [eval], about to make the first of the accesses [ops]; it holds the
    string [held], and [tail] follows the last access. *)
Inductive PC : Type :=
| InDoEval (input : string)
| InEval
| InDtor
| InCall (ops : list Op) (held : string) (tail : Tail).

(** ** The object *)

Record GenericShell (E : Type) : Type := mkShell {
  (* members of the class *)
  show_output : bool;
  show_prompt : bool;
  normal_prompt : string;
  pending_prompt : string;
  abort_prompt : string;
  pending_output : string;
  evaluator : E;
  socket : option Socket;
  evalthr : option nat;
  pollthr : option nat;
  self_destruct : bool;
  eval_done : bool;
  poll_needed : bool;
  (* the process around it *)
  threads : list Worker;
  trace : list Event;
  self : Actor;
  deleted : bool
}.

Arguments mkShell {E}.
Arguments show_output {E}.
Arguments show_prompt {E}.
Arguments normal_prompt {E}.
Arguments pending_prompt {E}.
Arguments abort_prompt {E}.
Arguments pending_output {E}.
Arguments evaluator {E}.
Arguments socket {E}.
Arguments evalthr {E}.
Arguments pollthr {E}.
Arguments self_destruct {E}.
Arguments eval_done {E}.
Arguments poll_needed {E}.
Arguments threads {E}.
Arguments trace {E}.
Arguments self {E}.
Arguments deleted {E}.

Section Setters.
Context {E : Type}.
Implicit Type s : GenericShell E.

Definition set_show_output (v : bool) s : GenericShell E :=
  mkShell v (show_prompt s) (normal_prompt s) (pending_prompt s)
    (abort_prompt s) (pending_output s) (evaluator s) (socket s) (evalthr s)
    (pollthr s) (self_destruct s) (eval_done s) (poll_needed s) (threads s)
    (trace s) (self s) (deleted s).

Definition set_show_prompt (v : bool) s : GenericShell E :=
  mkShell (show_output s) v (normal_prompt s) (pending_prompt s)
    (abort_prompt s) (pending_output s) (evaluator s) (socket s) (evalthr s)
    (pollthr s) (self_destruct s) (eval_done s) (poll_needed s) (threads s)
    (trace s) (self s) (deleted s).

Definition set_pending_output (v : string) s : GenericShell E :=
  mkShell (show_output s) (show_prompt s) (normal_prompt s) (pending_prompt s)
    (abort_prompt s) v (evaluator s) (socket s) (evalthr s)
    (pollthr s) (self_destruct s) (eval_done s) (poll_needed s) (threads s)
    (trace s) (self s) (deleted s).

Definition set_evaluator (v : E) s : GenericShell E :=
  mkShell (show_output s) (show_prompt s) (normal_prompt s) (pending_prompt s)
    (abort_prompt s) (pending_output s) v (socket s) (evalthr s)
    (pollthr s) (self_destruct s) (eval_done s) (poll_needed s) (threads s)
    (trace s) (self s) (deleted s).

Definition set_socket_field (v : option Socket) s : GenericShell E :=
  mkShell (show_output s) (show_prompt s) (normal_prompt s) (pending_prompt s)
    (abort_prompt s) (pending_output s) (evaluator s) v (evalthr s)
    (pollthr s) (self_destruct s) (eval_done s) (poll_needed s) (threads s)
    (trace s) (self s) (deleted s).

Definition set_evalthr (v : option nat) s : GenericShell E :=
  mkShell (show_output s) (show_prompt s) (normal_prompt s) (pending_prompt s)
    (abort_prompt s) (pending_output s) (evaluator s) (socket s) v
    (pollthr s) (self_destruct s) (eval_done s) (poll_needed s) (threads s)
    (trace s) (self s) (deleted s).

Definition set_pollthr (v : option nat) s : GenericShell E :=
  mkShell (show_output s) (show_prompt s) (normal_prompt s) (pending_prompt s)
    (abort_prompt s) (pending_output s) (evaluator s) (socket s) (evalthr s)
    v (self_destruct s) (eval_done s) (poll_needed s) (threads s)
    (trace s) (self s) (deleted s).

Definition set_self_destruct (v : bool) s : GenericShell E :=
  mkShell (show_output s) (show_prompt s) (normal_prompt s) (pending_prompt s)
    (abort_prompt s) (pending_output s) (evaluator s) (socket s) (evalthr s)
    (pollthr s) v (eval_done s) (poll_needed s) (threads s)
    (trace s) (self s) (deleted s).

Definition set_eval_done (v : bool) s : GenericShell E :=
  mkShell (show_output s) (show_prompt s) (normal_prompt s) (pending_prompt s)
    (abort_prompt s) (pending_output s) (evaluator s) (socket s) (evalthr s)
    (pollthr s) (self_destruct s) v (poll_needed s) (threads s)
    (trace s) (self s) (deleted s).

Definition set_poll_needed (v : bool) s : GenericShell E :=
  mkShell (show_output s) (show_prompt s) (normal_prompt s) (pending_prompt s)
    (abort_prompt s) (pending_output s) (evaluator s) (socket s) (evalthr s)
    (pollthr s) (self_destruct s) (eval_done s) v (threads s)
    (trace s) (self s) (deleted s).

Definition set_threads (v : list Worker) s : GenericShell E :=
  mkShell (show_output s) (show_prompt s) (normal_prompt s) (pending_prompt s)
    (abort_prompt s) (pending_output s) (evaluator s) (socket s) (evalthr s)
    (pollthr s) (self_destruct s) (eval_done s) (poll_needed s) v
    (trace s) (self s) (deleted s).

Definition set_trace (v : list Event) s : GenericShell E :=
  mkShell (show_output s) (show_prompt s) (normal_prompt s) (pending_prompt s)
    (abort_prompt s) (pending_output s) (evaluator s) (socket s) (evalthr s)
    (pollthr s) (self_destruct s) (eval_done s) (poll_needed s) (threads s)
    v (self s) (deleted s).

Definition set_self (v : Actor) s : GenericShell E :=
  mkShell (show_output s) (show_prompt s) (normal_prompt s) (pending_prompt s)
    (abort_prompt s) (pending_output s) (evaluator s) (socket s) (evalthr s)
    (pollthr s) (self_destruct s) (eval_done s) (poll_needed s) (threads s)
    (trace s) v (deleted s).

Definition set_deleted (v : bool) s : GenericShell E :=
  mkShell (show_output s) (show_prompt s) (normal_prompt s) (pending_prompt s)
    (abort_prompt s) (pending_output s) (evaluator s) (socket s) (evalthr s)
    (pollthr s) (self_destruct s) (eval_done s) (poll_needed s) (threads s)
    (trace s) (self s) v.
End Setters.

(** ** The monad of the member functions *)

Inductive Res (E A : Type) : Type :=
| Ret (a : A) (s : GenericShell E)     (* the call returned [a] *)
| Blocked (pc : PC) (s : GenericShell E) (* the thread joined is still running *)
| Aborted (msg : string) (s : GenericShell E) (* an assertion failed *)
| Fault.                               (* a null pointer was dereferenced *)

Arguments Ret {E A}.
Arguments Blocked {E A}.
Arguments Aborted {E A}.
Arguments Fault {E A}.

Definition M (E A : Type) : Type := GenericShell E -> Res E A.

Definition ret {E A} (a : A) : M E A := fun s => Ret a s.

Definition bind {E A B} (m : M E A) (f : A -> M E B) : M E B :=
  fun s =>
    match m s with
    | Ret a s' => f a s'
    | Blocked pc s' => Blocked pc s'
    | Aborted msg s' => Aborted msg s'
    | Fault => Fault
    end.

Declare Scope shell_scope.
Delimit Scope shell_scope with shell.
Notation "x <- m ;; k" := (bind m (fun x => k))
  (at level 100, m at next level, right associativity) : shell_scope.
Notation "m ;; k" := (bind m (fun _ => k))
  (at level 100, right associativity) : shell_scope.
Local Open Scope shell_scope.

(** Reading a member, and updating the object. *)
Definition gets {E A} (f : GenericShell E -> A) : M E A := fun s => Ret (f s) s.
Definition modify {E} (f : GenericShell E -> GenericShell E) : M E unit :=
  fun s => Ret tt (f s).

(** Appending an action of the running thread to the trace. *)
Definition log {E} (a : Action) : M E unit :=
  modify (fun s => set_trace (trace s ++ [{| actor := self s; action := a |}]) s).

Definition null_dereference {E A} : M E A := fun _ => Fault.

(** Modelled from the spec: the macro [OC_ASSERT] is defined in
    opencog/util/oc_assert.h, outside of GenericShell.cc.  A failed
    assertion is a fatal precondition failure that aborts at once: the
    statements after it are not executed and the call does not return. *)
Definition OC_ASSERT {E} (cond : bool) (msg : string) : M E unit :=
  fun s => if cond then Ret tt s else Aborted msg s.

(** ** Calls on the collaborators *)

Section Shell.
Context {E : Type} `{GenericEval E}.

(** A call of a virtual method of the evaluator: it is recorded, and the
    evaluator moves to the state the instance gives. *)
Definition evaluator_begin_eval : M E unit :=
  log (Invoke begin_eval_call);;
  modify (fun s => set_evaluator (begin_eval (evaluator s)) s).

Definition evaluator_eval_expr (input : string) : M E unit :=
  log (Invoke (eval_expr_call input));;
  modify (fun s => set_evaluator (eval_expr input (evaluator s)) s).

Definition evaluator_poll_result : M E string :=
  log (Invoke poll_result_call);;
  result <- gets (fun s => fst (poll_result (evaluator s)));;
  modify (fun s => set_evaluator (snd (poll_result (evaluator s))) s);;
  ret result.

Definition evaluator_interrupt : M E unit :=
  log (Invoke interrupt_call);;
  modify (fun s => set_evaluator (interrupt (evaluator s)) s).

Definition evaluator_clear_pending : M E unit :=
  log (Invoke clear_pending_call);;
  modify (fun s => set_evaluator (clear_pending (evaluator s)) s).

Definition evaluator_input_pending : M E bool :=
  log (Invoke input_pending_call);;
  gets (fun s => input_pending (evaluator s)).

Definition evaluator_eval_error : M E bool :=
  log (Invoke eval_error_call);;
  gets (fun s => eval_error (evaluator s)).

(** A call through the [socket] member; the pointer may be null. *)
Definition on_socket (a : Socket -> Action) : M E unit :=
  sock <- gets socket;;
  match sock with
  | Some k => log (a k)
  | None => null_dereference
  end.

Definition socket_Send (text : string) : M E unit :=
  on_socket (fun k => Send k text).
Definition socket_sendPrompt : M E unit := on_socket SendPrompt.
Definition socket_SetShell (this : bool) : M E unit :=
  on_socket (fun k => SetShell k this).

(** [new std::thread(w)]: the thread gets the next index of the table. *)
Definition new_thread (w : Worker) : M E nat :=
  t <- gets (fun s => length (threads s));;
  modify (fun s => set_threads (threads s ++ [w]) s);;
  log (Spawn t w);;
  ret t.

(** [t->join()] returns once the thread has finished; until then the
    caller is blocked at [pc]. *)
Definition thread_join (pc : PC) (t : nat) : M E unit :=
  fun s =>
    match threads s !! t with
    | Some w => if finished w then log (Join t) s else Blocked pc s
    | None => Fault
    end.

Definition set_worker (t : nat) (w : Worker) : M E unit :=
  modify (fun s => set_threads (<[t := w]> (threads s)) s).

(** ** The member functions *)

(** [GenericShell::GenericShell].  The constructor leaves [evaluator]
    null, and the derived shell installs its evaluator before the shell is
    handed to a socket: [ev] is that evaluator.  [eval_done] and
    [poll_needed] are not initialised by the constructor; [done0] and
    [needed0] are the values they happen to hold. *)
Definition GenericShell_ctor (ev : E) (done0 needed0 : bool) : GenericShell E :=
  {| show_output := true;
     show_prompt := true;
     normal_prompt := "> ";
     pending_prompt := "... ";
     abort_prompt :=
       String (char_of_int IAC) (String (char_of_int WILL)
         (String (char_of_int TIMING_MARK) newline));
     pending_output := "";
     evaluator := ev;
     socket := None;
     evalthr := None;
     pollthr := None;
     self_destruct := false;
     eval_done := done0;
     poll_needed := needed0;
     threads := [];
     trace := [];
     self := Caller;
     deleted := false |}.

Definition hush_output (hush : bool) : M E unit :=
  modify (set_show_output (negb hush)).

Definition hush_prompt (hush : bool) : M E unit :=
  modify (set_show_prompt (negb hush)).

Definition get_prompt : M E string :=
  sp <- gets show_prompt;;
  if negb sp then ret ""%string
  else
    pending <- evaluator_input_pending;;
    if pending then gets pending_prompt else gets normal_prompt.

(** [GenericShell::set_socket]; the argument is a pointer and may be null. *)
Definition set_socket (k : option Socket) : M E unit :=
  sock <- gets socket;;
  OC_ASSERT (bool_decide (sock = None)) "Shell already associated with socket!";;
  modify (set_socket_field k);;
  socket_SetShell true.

Definition thread_init : M E unit := ret tt.

Definition put_output (text : string) : M E unit :=
  modify (fun s => set_pending_output (pending_output s ++ text) s).

Definition poll_output : M E string :=
  pending <- gets pending_output;;
  if (0 <? String.length pending)%nat then
    modify (set_pending_output "");;
    ret pending
  else
    result <- evaluator_poll_result;;
    if (0 <? String.length result)%nat then ret result
    else
      done <- gets eval_done;;
      if done then ret ""%string
      else
        modify (set_eval_done true);;
        more <- evaluator_input_pending;;
        if more then
          so <- gets show_output;;
          sp <- gets show_prompt;;
          if so && sp then gets pending_prompt else ret ""%string
        else
          so <- gets show_output;;
          shown <- (if so then ret true else evaluator_eval_error);;
          if shown then
            sp <- gets show_prompt;;
            if sp then gets normal_prompt else ret ""%string
          else ret ""%string.

(** [GenericShell::~GenericShell] *)
Definition GenericShell_dtor : M E unit :=
  (h <- gets evalthr;;
   match h with
   | Some t => thread_join InDtor t;; modify (set_evalthr None)
   | None => ret tt
   end);;
  (h <- gets pollthr;;
   match h with
   | Some t => thread_join InDtor t;; modify (set_pollthr None)
   | None => ret tt
   end).

(** [delete this] *)
Definition delete_this : M E unit :=
  GenericShell_dtor;; modify (set_deleted true).

Definition do_eval (input : string) : M E unit :=
  (h <- gets evalthr;;
   match h with
   | Some t => thread_join (InDoEval input) t;; modify (set_evalthr None)
   | None => ret tt
   end);;
  (h <- gets pollthr;;
   match h with
   | Some t => thread_join (InDoEval input) t;; modify (set_pollthr None)
   | None => ret tt
   end);;
  modify (set_eval_done false);;
  modify (set_poll_needed true);;
  evaluator_begin_eval;;
  t <- new_thread (EvalWorker input false);;
  modify (set_evalthr (Some t)).

(** The [while (m <= i)] loop of [line_discipline].  The result tells
    whether one of the two [return] statements inside the loop was taken. *)
Equations? iac_loop (expr : string) (m i : Z) : M E bool
  by wf (Z.to_nat (i - m + 1)) lt :=
iac_loop expr m i with Z_le_dec m i := {
  | right _ => ret false
  | left _ =>
    let c := uchar (char_at expr i) in
    if IAC =? c then
      let c := uchar (char_at expr (i + 1)) in
      if (IP =? c) || (AO =? c) then
        evaluator_interrupt;;
        evaluator_clear_pending;;
        (text <- gets abort_prompt;; put_output text);;
        ret true
      else if EL =? c then
        (text <- get_prompt;; put_output text);;
        ret true
      else iac_loop expr m (i - 1)
    else iac_loop expr m (i - 1) }.
Proof. all: lia. Qed.

Definition line_discipline (expr : string) : M E unit :=
  let len := length_of expr in
  if 0 =? len then do_eval newline
  else
    let i := int_of_size_t (size_t_sub len 2) in
    let m := int_of_size_t (size_t_sub len 20) in
    let m := if m <? 0 then 0 else m in
    returned <- iac_loop expr m i;;
    if returned then ret tt
    else
      let c := uchar (char_at expr (len - 1)) in
      if (SYN =? c) || (CAN =? c) || (ESC =? c) then
        evaluator_interrupt;;
        evaluator_clear_pending;;
        put_output newline;;
        (text <- gets normal_prompt;; put_output text)
      else
        pending <- evaluator_input_pending;;
        if negb pending &&
           ((EOT =? char_val (char_at expr (len - 1))) ||
            ((1 =? len) && (char_val "." =? char_val (char_at expr 0))))
        then
          modify (set_self_destruct true);;
          put_output "";;
          sp <- gets show_prompt;;
          if sp then put_output ("Exiting the shell" ++ newline) else ret tt
        else
          do_eval (expr ++ newline).

(** [GenericShell::eval] after its call of [line_discipline]: the relay of
    the output, and the self-destruction. *)
Definition eval_relay : M E unit :=
  needed <- gets poll_needed;;
  if negb needed then
    retstr <- poll_output;;
    socket_Send retstr
  else
    (h <- gets pollthr;;
     match h with
     | Some t => thread_join InEval t
     | None => ret tt
     end);;
    t <- new_thread (PollWorker Polling);;
    modify (set_pollthr (Some t)).

Definition eval_destruct : M E unit :=
  sd <- gets self_destruct;;
  if sd then
    socket_sendPrompt;;
    socket_SetShell false;;
    delete_this
  else ret tt.

Definition eval (expr : string) : M E unit :=
  modify (set_poll_needed false);;
  line_discipline expr;;
  eval_relay;;
  eval_destruct.

(** ** The call of [eval], one access at a time *)

(** The head of [eval]: [poll_needed] is reset and [line_discipline]
    classifies the line.  The tests read the line only, but for the call
    of [input_pending] that precedes the test of the exit.  What
    [line_discipline] and [eval] then do with a line that is answered
    without an evaluation is returned as the list of the accesses to
    make, in the order of the source. *)
Definition receive (expr : string) : M E Verdict :=
  modify (set_poll_needed false);;
  let len := length_of expr in
  if 0 =? len then ret (Evaluate newline)
  else
    let i := int_of_size_t (size_t_sub len 2) in
    let m := int_of_size_t (size_t_sub len 20) in
    let m := if m <? 0 then 0 else m in
    match iac_scan expr m i with
    | Some TelnetAbort =>
        ret (Answer [OpInterrupt; OpClearPending; OpPutAbort; OpPoll; OpSend])
    | Some TelnetErase =>
        ret (Answer [OpGetPrompt; OpPutHeld; OpPoll; OpSend])
    | None =>
        let c := uchar (char_at expr (len - 1)) in
        if (SYN =? c) || (CAN =? c) || (ESC =? c) then
          ret (Answer [OpInterrupt; OpClearPending; OpPut newline; OpPutNormal;
                       OpPoll; OpSend])
        else
          pending <- evaluator_input_pending;;
          if negb pending &&
             ((EOT =? char_val (char_at expr (len - 1))) ||
              ((1 =? len) && (char_val "." =? char_val (char_at expr 0))))
          then
            modify (set_self_destruct true);;
            sp <- gets show_prompt;;
            ret (Answer (if sp
                         then [OpPut ""; OpPut ("Exiting the shell" ++ newline);
                               OpPoll; OpSend]
                         else [OpPut ""; OpPoll; OpSend]))
          else ret (Evaluate (expr ++ newline))
    end.

(** One access; the result is the string the caller holds afterwards. *)
Definition perform (op : Op) (held : string) : M E string :=
  match op with
  | OpInterrupt => evaluator_interrupt;; ret held
  | OpClearPending => evaluator_clear_pending;; ret held
  | OpPutAbort => (text <- gets abort_prompt;; put_output text);; ret held
  | OpGetPrompt => get_prompt
  | OpPutHeld => put_output held;; ret held
  | OpPut text => put_output text;; ret held
  | OpPutNormal => (text <- gets normal_prompt;; put_output text);; ret held
  | OpPoll => poll_output
  | OpSend => socket_Send held;; ret held
  | OpSendPrompt => socket_sendPrompt;; ret held
  | OpSetShell => socket_SetShell false;; ret held
  end.

Fixpoint perform_all (ops : list Op) (held : string) : M E string :=
  match ops with
  | [] => ret held
  | op :: rest => held' <- perform op held;; perform_all rest held'
  end.

Definition finish (tail : Tail) : M E unit :=
  match tail with
  | ThenDestruct => eval_destruct
  | ThenDelete => delete_this
  end.

(** What the caller that stands at [pc] has left to do in its call. *)
Definition resume (pc : PC) : M E unit :=
  match pc with
  | InDoEval input => do_eval input;; eval_relay;; eval_destruct
  | InEval => eval_relay;; eval_destruct
  | InDtor => delete_this
  | InCall ops held tail => perform_all ops held;; finish tail
  end.

(** [eval] once more: its head, then what the head has left to do. *)
Definition call (expr : string) : M E unit :=
  v <- receive expr;;
  match v with
  | Answer ops => resume (InCall ops "" ThenDestruct)
  | Evaluate input => resume (InDoEval input)
  end.

(** ** The two lambdas, one turn at a time *)

Definition eval_wrapper (input : string) : M E unit :=
  thread_init;;
  evaluator_eval_expr input.

(** One turn of [poll_wrapper]: a call of [poll_output] and the test of the
    [while], or the [Send] of the chunk held. *)
Definition poll_wrapper_turn (t : nat) (at_ : PollState) : M E unit :=
  match at_ with
  | Polling =>
      retstr <- poll_output;;
      if (0 <? String.length retstr)%nat
      then set_worker t (PollWorker (Sending retstr))
      else set_worker t (PollWorker PollDone)
  | Sending retstr =>
      socket_Send retstr;;
      set_worker t (PollWorker Polling)
  | PollDone => ret tt
  end.

(** ** The scheduler *)

Record Config : Type := { shell : GenericShell E; blocked : option PC }.

(** The moves of the process.  A call of [eval] is made of turns of the
    caller: [Receive] is the head of the call and each [Resume] is one
    more turn, between which the threads can take turns of their own.
    [Submit] is the call in which they take none. *)
Inductive Sched : Type :=
| Submit (expr : string)   (* [eval expr], not preempted before it returns or
                              has tried a [join] *)
| Receive (expr : string)  (* the receiver thread calls [eval expr]: the head *)
| Resume                   (* the caller makes its next access, or tries its
                              [join] again *)
| Run (t : nat).           (* worker [t] takes a turn *)

(** The caller at a [join]: it runs what it has left to do, up to the
    next [join] that blocks.  The threads the two handles point to are
    the only ones that can be running; once both are joined the caller is
    alone, and after it has created the evaluation thread it only creates
    the polling thread and reads members the threads do not access. *)
Definition as_caller (m : M E unit) (s : GenericShell E) : option Config :=
  match m (set_self Caller s) with
  | Ret _ s' => Some {| shell := s'; blocked := None |}
  | Blocked pc s' => Some {| shell := s'; blocked := Some pc |}
  | Aborted _ _ | Fault => None
  end.

Definition as_worker (t : nat) (s : GenericShell E) : option (GenericShell E) :=
  match threads s !! t with
  | Some (EvalWorker input false) =>
      match (eval_wrapper input;; set_worker t (EvalWorker input true))
              (set_self (Thread t) s) with
      | Ret _ s' => Some s'
      | _ => None
      end
  | Some (PollWorker PollDone) => None
  | Some (PollWorker at_) =>
      match poll_wrapper_turn t at_ (set_self (Thread t) s) with
      | Ret _ s' => Some s'
      | _ => None
      end
  | _ => None
  end.

(** Where the caller stands after an access: before the next one, or,
    after the last, at the test of [self_destruct] that ends [eval]: the
    call returns, or the socket is called twice more before
    [delete this]. *)
Definition park (ops : list Op) (held : string) (tail : Tail)
    (s : GenericShell E) : option PC :=
  match ops, tail with
  | [], ThenDestruct =>
      if self_destruct s
      then Some (InCall [OpSendPrompt; OpSetShell] held ThenDelete)
      else None
  | [], ThenDelete => Some InDtor
  | _, _ => Some (InCall ops held tail)
  end.

(** The head of a call: no method may be called on a deleted shell or
    while the caller is inside [eval]. *)
Definition turn_receive (expr : string) (c : Config) : option Config :=
  match blocked c with
  | None =>
      if deleted (shell c) then None
      else
        match receive expr (set_self Caller (shell c)) with
        | Ret (Answer ops) s' =>
            Some {| shell := s'; blocked := park ops "" ThenDestruct s' |}
        | Ret (Evaluate input) s' =>
            Some {| shell := s'; blocked := Some (InDoEval input) |}
        | _ => None
        end
  | Some _ => None
  end.

(** The next turn of the caller inside a call: one access, or the joins. *)
Definition turn_resume (c : Config) : option Config :=
  match blocked c with
  | Some (InCall (op :: rest) held tail) =>
      match perform op held (set_self Caller (shell c)) with
      | Ret held' s' => Some {| shell := s'; blocked := park rest held' tail s' |}
      | _ => None
      end
  | Some (InCall [] _ _) => None
  | Some pc => as_caller (resume pc) (shell c)
  | None => None
  end.

(** The caller takes its turns one after the other, up to [n] of them,
    until the call has returned or has tried a [join]. *)
Fixpoint unpreempted (n : nat) (c : Config) : option Config :=
  match n with
  | O => Some c
  | S n' =>
      match blocked c with
      | Some (InCall _ _ _) =>
          match turn_resume c with
          | Some c' => unpreempted n' c'
          | None => None
          end
      | Some _ => turn_resume c
      | None => Some c
      end
  end.

(** The turns the caller can still need in its call. *)
Definition turns_left (c : Config) : nat :=
  match blocked c with
  | Some (InCall ops _ ThenDestruct) => length ops + 3
  | Some (InCall ops _ ThenDelete) => length ops + 1
  | Some _ => 1
  | None => 0
  end.

(** One move of the process; [None] when the move is not possible: no
    method may be called on a deleted shell or while the caller is inside
    [eval], a finished worker does nothing more, and a fault ends the
    process. *)
Definition step (a : Sched) (c : Config) : option Config :=
  match a with
  | Submit expr =>
      match turn_receive expr c with
      | Some c' => unpreempted (turns_left c') c'
      | None => None
      end
  | Receive expr => turn_receive expr c
  | Resume => turn_resume c
  | Run t =>
      match as_worker t (shell c) with
      | Some s' => Some {| shell := s'; blocked := blocked c |}
      | None => None
      end
  end.

Fixpoint run (schedule : list Sched) (c : Config) : option Config :=
  match schedule with
  | [] => Some c
  | a :: rest =>
      match step a c with
      | Some c' => run rest c'
      | None => None
      end
  end.

End Shell.

(** A line from the values of its bytes. *)
Definition line_of (bytes : list Z) : string :=
  fold_right (fun b rest => String (char_of_int b) rest) EmptyString bytes.

(** ** Vocabulary of the statements *)

Section Vocabulary.
Context {E : Type} `{GenericEval E}.

(** The events [acts] made by one actor. *)
Definition by_ (a : Actor) (acts : list Action) : list Event :=
  map (Build_Event a) acts.

(** The texts sent to the socket, oldest first, each with its sender. *)
Definition sent (tr : list Event) : list (Actor * string) :=
  omap (fun e =>
          match action e with
          | Send _ text => Some (actor e, text)
          | _ => None
          end) tr.

(** The arguments of the calls of [eval_expr], oldest first. *)
Definition evaluated (tr : list Event) : list string :=
  omap (fun e =>
          match action e with
          | Invoke (eval_expr_call input) => Some input
          | _ => None
          end) tr.

Definition telnet_abort : M E bool :=
  evaluator_interrupt;;
  evaluator_clear_pending;;
  (text <- gets abort_prompt;; put_output text);;
  ret true.

Definition telnet_erase : M E bool :=
  (text <- get_prompt;; put_output text);;
  ret true.

(** The trailing window: an escape prefix may stand at any of the last
    twenty bytes but the very last. *)
Definition in_window (expr : string) (j : Z) : Prop :=
  Z.max 0 (length_of expr - 20) <= j <= length_of expr - 2.

(** The escape prefix stands at [j], immediately followed by [c]. *)
Definition escape_with (expr : string) (j c : Z) : Prop :=
  uchar (char_at expr j) = IAC /\ uchar (char_at expr (j + 1)) = c.

(** No recognised escape sequence in the window. *)
Definition no_escape (expr : string) : Prop :=
  forall j, in_window expr j ->
    ~ escape_with expr j IP /\ ~ escape_with expr j AO /\ ~ escape_with expr j EL.

Definition last_byte (expr : string) : Z :=
  uchar (char_at expr (length_of expr - 1)).

(** The last byte is none of the three raw control bytes. *)
Definition no_raw_control (expr : string) : Prop :=
  last_byte expr <> ESC /\ last_byte expr <> CAN /\ last_byte expr <> SYN.

(** The two lines that leave the shell: one that ends in end-of-
    transmission, and the single period. *)
Definition leaves_shell (expr : string) : Prop :=
  last_byte expr = EOT \/ expr = "."%string.

(** The fixed acknowledgment of an interrupt, byte by byte. *)
Definition abort_acknowledgment : string := line_of [0xff; 0xfb; 0x06; 0x0a].

(** A handle that [join] would not block on. *)
Definition joinable (h : option nat) (s : GenericShell E) : Prop :=
  match h with
  | Some t => exists w, threads s !! t = Some w /\ finished w = true
  | None => True
  end.

(** The threads the two handles of the object point to. *)
Definition handles (s : GenericShell E) : list nat :=
  match evalthr s with Some t => [t] | None => [] end ++
  match pollthr s with Some t => [t] | None => [] end.

(** The evaluator has no output left, however often it is polled. *)
Definition silent (e : E) : Prop :=
  forall n, fst (poll_result (Nat.iter n (fun e' => snd (poll_result e')) e)) = ""%string.

(** [n] calls of [poll_output] in a row, and what they returned. *)
Fixpoint poll_times (n : nat) : M E (list string) :=
  match n with
  | O => ret []
  | S n' =>
      chunk <- poll_output;;
      chunks <- poll_times n';;
      ret (chunk :: chunks)
  end.

(** A session as the cogserver sets it up: the shell is constructed, its
    two toggles are set, and it is bound to the socket [k]. *)
Definition session (ev : E) (done0 needed0 : bool) (hush_o hush_p : bool)
    (k : Socket) : Config :=
  let start := GenericShell_ctor ev done0 needed0 in
  match (hush_output hush_o;; hush_prompt hush_p;; set_socket (Some k)) start with
  | Ret _ s => {| shell := s; blocked := None |}
  | _ => {| shell := start; blocked := None |}
  end.

(** An evaluation is started (its worker is created) only after every
    thread created before has been joined. *)
Definition spawns_after_joins (tr : list Event) : Prop :=
  forall i a t input done,
    tr !! i = Some {| actor := a; action := Spawn t (EvalWorker input done) |} ->
    forall t', (t' < t)%nat ->
      exists j a', (j < i)%nat /\ tr !! j = Some {| actor := a'; action := Join t' |}.

(** A polling worker is created only after every polling worker created
    before has been joined. *)
Definition pollers_after_joins (tr : list Event) : Prop :=
  forall i a t at_ i' a' t' at',
    tr !! i = Some {| actor := a; action := Spawn t (PollWorker at_) |} ->
    tr !! i' = Some {| actor := a'; action := Spawn t' (PollWorker at') |} ->
    (i' < i)%nat ->
    exists j a'', (i' < j < i)%nat /\ tr !! j = Some {| actor := a''; action := Join t' |}.

(** Once an evaluation is started, no thread created before it does
    anything any more. *)
Definition earlier_workers_silent (tr : list Event) : Prop :=
  forall i a t input done,
    tr !! i = Some {| actor := a; action := Spawn t (EvalWorker input done) |} ->
    forall j t' act, (i < j)%nat ->
      tr !! j = Some {| actor := Thread t'; action := act |} -> (t <= t')%nat.

(** Of two texts sent by workers, the earlier is sent by the worker that
    was created first (or by the same worker). *)
Definition relays_in_order (tr : list Event) : Prop :=
  forall i j t1 t2 k1 k2 text1 text2, (i < j)%nat ->
    tr !! i = Some {| actor := Thread t1; action := Send k1 text1 |} ->
    tr !! j = Some {| actor := Thread t2; action := Send k2 text2 |} ->
    (t1 <= t2)%nat.

(** A worker writes to the socket only while it is the thread created
    last: it is a polling worker, and no thread has been created between
    its creation and the text. *)
Definition last_thread_writes (tr : list Event) : Prop :=
  forall j t k text,
    tr !! j = Some {| actor := Thread t; action := Send k text |} ->
    exists i a at_, (i < j)%nat /\
      tr !! i = Some {| actor := a; action := Spawn t (PollWorker at_) |} /\
      forall i' a' t' w', (i < i' < j)%nat ->
        tr !! i' <> Some {| actor := a'; action := Spawn t' w' |}.

(** A thread does nothing before it has been created. *)
Definition acts_after_creation (tr : list Event) : Prop :=
  forall j k a t w act,
    tr !! j = Some {| actor := a; action := Spawn t w |} ->
    tr !! k = Some {| actor := Thread t; action := act |} -> (j < k)%nat.

(** A text that the caller writes itself comes after everything done by
    the threads of the evaluations before the last one started, and
    before everything done by the threads created later. *)
Definition caller_writes_in_place (tr : list Event) : Prop :=
  forall c k text,
    tr !! c = Some {| actor := Caller; action := Send k text |} ->
    (forall i a t input done j t' act,
       tr !! i = Some {| actor := a; action := Spawn t (EvalWorker input done) |} ->
       (i < c)%nat ->
       tr !! j = Some {| actor := Thread t'; action := act |} ->
       (t' < t)%nat -> (j < c)%nat) /\
    (forall i a t w j act,
       tr !! i = Some {| actor := a; action := Spawn t w |} ->
       (c < i)%nat ->
       tr !! j = Some {| actor := Thread t; action := act |} -> (c < j)%nat).

End Vocabulary.

(** ** The invariant of the worker choreography *)

(** What the thread table, the two handles and the trace of a shell
    satisfy at every moment. *)
Record TInv (ths : list Worker) (eh ph : option nat) (tr : list Event) : Prop := {
  inv_eval_typed : forall t, eh = Some t ->
    exists input done, ths !! t = Some (EvalWorker input done);
  inv_poll_typed : forall t, ph = Some t ->
    exists at_, ths !! t = Some (PollWorker at_);
  inv_running : forall t w, ths !! t = Some w -> finished w = false ->
    eh = Some t \/ ph = Some t;
  inv_joined : forall t, (t < length ths)%nat -> eh <> Some t -> ph <> Some t ->
    exists j a, tr !! j = Some {| actor := a; action := Join t |};
  inv_actor : forall j t act,
    tr !! j = Some {| actor := Thread t; action := act |} -> (t < length ths)%nat;
  inv_spawned : forall j a t w,
    tr !! j = Some {| actor := a; action := Spawn t w |} ->
    exists w', ths !! t = Some w' /\ is_eval_worker w' = is_eval_worker w;
  inv_join_known : forall j a t,
    tr !! j = Some {| actor := a; action := Join t |} -> (t < length ths)%nat;
  inv_join_after : forall i j a a' t w,
    tr !! i = Some {| actor := a; action := Spawn t w |} ->
    tr !! j = Some {| actor := a'; action := Join t |} -> (i < j)%nat;
  inv_sends : forall p, ph = Some p -> forall j t k text,
    tr !! j = Some {| actor := Thread t; action := Send k text |} -> (t <= p)%nat;
  inv_eval_latest : forall t', eh = Some t' \/ ph = Some t' ->
    forall j a t input done,
      tr !! j = Some {| actor := a; action := Spawn t (EvalWorker input done) |} ->
      (t <= t')%nat;
  inv_spawns_after_joins : spawns_after_joins tr;
  inv_earlier_workers_silent : earlier_workers_silent tr;
  inv_relays_in_order : relays_in_order tr;
  inv_pollers_after_joins : pollers_after_joins tr;
  inv_poll_last : forall p, ph = Some p ->
    exists i a at_,
      tr !! i = Some {| actor := a; action := Spawn p (PollWorker at_) |} /\
      forall i' a' t' w', (i < i')%nat ->
        tr !! i' <> Some {| actor := a'; action := Spawn t' w' |};
  inv_last_thread_writes : last_thread_writes tr;
  inv_acts_after_creation : acts_after_creation tr
}.

(** An event that a running thread may add to the trace without creating
    or joining a thread. *)
Definition admissible (eh ph : option nat) (e : Event) : Prop :=
  match actor e, action e with
  | _, Spawn _ _ | _, Join _ => False
  | Caller, _ => True
  | Thread t, Send _ _ => ph = Some t
  | Thread t, _ => eh = Some t \/ ph = Some t
  end.

(** The actions that create or join no thread, and the calls on the
    evaluator among them. *)
Definition is_plain (a : Action) : bool :=
  match a with Spawn _ _ | Join _ => false | _ => true end.

Definition is_invoke (a : Action) : bool :=
  match a with Invoke _ => true | _ => false end.

Section Invariant.
Context {E : Type} `{GenericEval E}.

(** The state after a call of [poll_result] through [poll_output]. *)
Definition polled (s : GenericShell E) : GenericShell E :=
  set_evaluator (snd (poll_result (evaluator s)))
    (set_trace (trace s ++ by_ (self s) [Invoke poll_result_call]) s).

(** A step that creates and joins no thread: the table and the handles
    stay, and the running thread adds actions [ok] allows to the trace. *)
Definition qstep (ok : Action -> bool) (s s' : GenericShell E) : Prop :=
  threads s' = threads s /\ evalthr s' = evalthr s /\ pollthr s' = pollthr s /\
  self s' = self s /\
  exists acts, trace s' = trace s ++ by_ (self s) acts /\ forallb ok acts = true.

Definition quiet {A} (ok : Action -> bool) (m : M E A) : Prop :=
  forall s, match m s with
            | Ret _ s' => qstep ok s s'
            | Blocked _ _ => False
            | Aborted _ _ | Fault => True
            end.

Definition benign (f : GenericShell E -> GenericShell E) : Prop :=
  forall s, threads (f s) = threads s /\ evalthr (f s) = evalthr s /\
    pollthr (f s) = pollthr s /\ self (f s) = self s /\ trace (f s) = trace s.

(** The invariant of a shell, and of a shell as its caller runs. *)
Definition SInv (s : GenericShell E) : Prop :=
  TInv (threads s) (evalthr s) (pollthr s) (trace s).

Definition CInv (s : GenericShell E) : Prop := SInv s /\ self s = Caller.

(** A triple for the code the caller runs: from [P], a return satisfies
    [Q] and a blocked call leaves the invariant intact. *)
Definition triple {A} (P : GenericShell E -> Prop) (m : M E A)
    (Q : A -> GenericShell E -> Prop) : Prop :=
  forall s, P s ->
    match m s with
    | Ret a s' => Q a s'
    | Blocked _ s' => CInv s'
    | Aborted _ _ | Fault => True
    end.

End Invariant.

(** ** A concrete evaluator

    [Echo] is a small evaluator used to run the shell on concrete lines:
    it buffers the text it is given and hands the buffer back on the next
    [poll_result]. *)

Record Echo : Type := {
  buffer : string;        (* output not polled yet *)
  more_input : bool;      (* a multi-line expression is open *)
  caught_error : bool     (* the last evaluation failed *)
}.

#[export] Instance Echo_eval : GenericEval Echo := {|
  begin_eval e := e;
  eval_expr input e :=
    {| buffer := buffer e ++ input;
       more_input := more_input e;
       caught_error := caught_error e |};
  poll_result e :=
    (buffer e,
     {| buffer := ""; more_input := more_input e; caught_error := caught_error e |});
  interrupt e := e;
  clear_pending e :=
    {| buffer := buffer e; more_input := false; caught_error := caught_error e |};
  input_pending := more_input;
  eval_error := caught_error
|}.

Definition at_rest : Echo :=
  {| buffer := ""; more_input := false; caught_error := false |}.

(** An evaluator that is in the middle of a multi-line expression. *)
Definition mid_expression : Echo :=
  {| buffer := ""; more_input := true; caught_error := false |}.

(** A shell fresh from its constructor, and the same shell once
    [set_socket] has bound it to socket 7. *)
Definition fresh (e : Echo) : GenericShell Echo := GenericShell_ctor e false false.

Definition bound (e : Echo) : GenericShell Echo :=
  match set_socket (Some 7%nat) (fresh e) with
  | Ret _ s => s
  | _ => fresh e
  end.

(** A bound shell whose output display is hushed. *)
Definition hushed (e : Echo) : GenericShell Echo := set_show_output false (bound e).

(** A bound shell whose latch is taken: its last cycle is drained. *)
Definition drained (e : Echo) : GenericShell Echo := set_eval_done true (bound e).

(** Two evaluations one after the other, each relayed to its end. *)
Definition two_evaluations : list (Sched) :=
  [Submit "x"; Run 0; Run 1; Run 1; Run 1; Run 1; Run 1;
   Submit "y"; Run 2; Run 3; Run 3; Run 3; Run 3; Run 3].

(** An evaluation, and an interrupt received before its output is relayed. *)
Definition interrupted_evaluation : list (Sched) :=
  [Submit "x"; Run 0; Submit (line_of [0xff; 0xf4]);
   Run 1; Run 1; Run 1; Run 1; Run 1].

(** ** Vocabulary of the session invariants *)

(** The inputs the evaluation workers were created with, oldest first:
    the evaluations started. *)
Definition started (tr : list Event) : list string :=
  omap (fun e =>
          match action e with
          | Spawn _ (EvalWorker input _) => Some input
          | _ => None
          end) tr.

(** The input of an evaluation worker, and the input of one that has
    returned from [eval_expr]. *)
Definition worker_input (w : Worker) : option string :=
  match w with
  | EvalWorker input _ => Some input
  | PollWorker _ => None
  end.

Definition worker_evaluated (w : Worker) : option string :=
  match w with
  | EvalWorker input true => Some input
  | _ => None
  end.

(** The three methods of the evaluator that [poll_output] calls. *)
Definition is_poll_call (c : Call) : bool :=
  match c with
  | poll_result_call | input_pending_call | eval_error_call => true
  | _ => false
  end.

(** What the caller of [eval] does on the socket [k] and on the evaluator:
    anything but [eval_expr], and the socket is [k]. *)
Definition caller_action (k : Socket) (a : Action) : Prop :=
  match a with
  | Invoke (eval_expr_call _) => False
  | Send k' _ | SendPrompt k' | SetShell k' _ => k' = k
  | _ => True
  end.

(** What a worker does: it calls [eval_expr], or one of the methods
    [poll_output] calls, or it sends a text that is not empty to [k]. *)
Definition worker_action (k : Socket) (a : Action) : Prop :=
  match a with
  | Invoke (eval_expr_call _) => True
  | Invoke c => is_poll_call c = true
  | Send k' text => k' = k /\ text <> ""%string
  | _ => False
  end.

(** The actions that neither call [eval_expr] nor create a thread. *)
Definition is_passive (a : Action) : bool :=
  match a with
  | Invoke (eval_expr_call _) | Spawn _ _ => false
  | _ => true
  end.

(** The thread table and the trace of a session on the socket [k]:
    evaluation workers and polling workers alternate in the table; a
    polling worker holds a chunk only if it is not empty; the caller and
    the workers keep to their actions, each worker to those of its kind;
    [eval_expr] has been called for exactly the evaluation workers that
    have returned, in the order of the table; and the table holds the
    evaluations started, in their order. *)
Record WInv (k : Socket) (ths : list Worker) (tr : list Event) : Prop := {
  w_kind : forall t w, ths !! t = Some w -> is_eval_worker w = Nat.even t;
  w_sending : forall t r,
    ths !! t = Some (PollWorker (Sending r)) -> r <> ""%string;
  w_caller : forall i a,
    tr !! i = Some {| actor := Caller; action := a |} -> caller_action k a;
  w_worker : forall i t a,
    tr !! i = Some {| actor := Thread t; action := a |} ->
    worker_action k a /\
    match a with
    | Invoke (eval_expr_call input) => ths !! t = Some (EvalWorker input true)
    | _ => exists at_, ths !! t = Some (PollWorker at_)
    end;
  w_evaluated : evaluated tr = omap worker_evaluated ths;
  w_started : started tr = omap worker_input ths
}.

(** Between two calls the two handles are null or point to the last two
    threads of the table, the evaluation worker and its polling worker;
    inside [eval], between [do_eval] and the creation of the polling
    worker, [evalthr] points to the last thread and [pollthr] is null. *)
Definition Paired (ths : list Worker) (eh ph : option nat) : Prop :=
  Nat.even (length ths) = true /\
  (forall t, eh = Some t -> S (S t) = length ths /\ ph = Some (S t)) /\
  (forall t, ph = Some t -> S t = length ths).

Definition Half (ths : list Worker) (eh ph : option nat) : Prop :=
  Nat.even (length ths) = false /\
  (exists t, eh = Some t /\ S t = length ths) /\ ph = None.

(** The accesses that come before the caller's own [poll_output]: the
    calls on the evaluator and of [put_output]. *)
Definition is_prelude (op : Op) : bool :=
  match op with
  | OpPoll | OpSend | OpSendPrompt | OpSetShell => false
  | _ => true
  end.

(** Accesses that come before the caller's [poll_output], followed by
    [poll_output] and the [Send] of what it returned. *)
Fixpoint before_poll (ops : list Op) : bool :=
  match ops with
  | [] => false
  | OpPoll :: rest => match rest with [OpSend] => true | _ => false end
  | op :: rest => is_prelude op && before_poll rest
  end.

Section Conduct.
Context {E : Type} `{GenericEval E}.

(** A triple that also rules the failures out: from [P] the code does not
    fail in an assertion and dereferences no null pointer; a return
    satisfies [Q], and a call blocked at [pc] leaves a state that
    satisfies [B pc]. *)
Definition hoare {A} (P : GenericShell E -> Prop) (m : M E A)
    (Q : A -> GenericShell E -> Prop) (B : PC -> GenericShell E -> Prop) : Prop :=
  forall s, P s ->
    match m s with
    | Ret a s' => Q a s'
    | Blocked pc s' => B pc s'
    | Aborted _ _ | Fault => False
    end.

(** What holds of a shell bound to [k] whenever its caller runs. *)
Definition Core (k : Socket) (s : GenericShell E) : Prop :=
  socket s = Some k /\ abort_prompt s = abort_acknowledgment /\
  self s = Caller /\ WInv k (threads s) (trace s).

(** The shell between two calls: nothing is queued and the object lives. *)
Definition Still (s : GenericShell E) : Prop :=
  Paired (threads s) (evalthr s) (pollthr s) /\
  pending_output s = ""%string /\ deleted s = false.

(** The shell as [line_discipline] finds it. *)
Definition Fresh (k : Socket) (s : GenericShell E) : Prop :=
  Core k s /\ Still s /\ self_destruct s = false /\ poll_needed s = false.

(** The shell once [eval] has returned: it waits for the next line, or it
    has been deleted and holds no thread any more. *)
Definition Rest (s : GenericShell E) : Prop :=
  (self_destruct s = false /\ deleted s = false) \/
  (deleted s = true /\ evalthr s = None /\ pollthr s = None).

(** The state [eval_relay] starts from: an evaluation has just been
    started by [do_eval], or the line was answered by [line_discipline]
    itself. *)
Definition Answered (s : GenericShell E) : Prop :=
  deleted s = false /\
  ((Half (threads s) (evalthr s) (pollthr s) /\ pending_output s = ""%string /\
    self_destruct s = false /\ poll_needed s = true) \/
   (Paired (threads s) (evalthr s) (pollthr s) /\ poll_needed s = false)).

(** The caller is inside [eval], between two of its accesses. *)
Definition preempted (c : @Config E) : bool :=
  match blocked c with
  | Some (InCall _ _ _) => true
  | _ => false
  end.

(** What the caller has left to do between two accesses: accesses that
    come before its own [poll_output], then [poll_output] and [Send]; or
    the [Send] alone; or, when the shell is being left, the last calls on
    the socket.  Once the caller has polled nothing is queued. *)
Definition Agenda (ops : list Op) (tail : Tail) (s : GenericShell E) : Prop :=
  match tail with
  | ThenDestruct =>
      before_poll ops = true \/
      (ops = [OpSend] /\ pending_output s = ""%string)
  | ThenDelete =>
      (ops = [OpSendPrompt; OpSetShell] \/ ops = [OpSetShell]) /\
      pending_output s = ""%string /\ self_destruct s = true
  end.

(** The invariant of the configurations of a session on [k]. *)
Definition Good (k : Socket) (c : @Config E) : Prop :=
  let s := shell c in
  socket s = Some k /\ abort_prompt s = abort_acknowledgment /\
  WInv k (threads s) (trace s) /\
  Paired (threads s) (evalthr s) (pollthr s) /\
  (preempted c = false -> pending_output s = ""%string) /\
  match blocked c with
  | None => Rest s
  | Some (InDoEval _) => self_destruct s = false /\ deleted s = false
  | Some InDtor => deleted s = false
  | Some InEval => False
  | Some (InCall ops _ tail) => deleted s = false /\ Agenda ops tail s
  end.

(** The moves that can be asked of a configuration: a line is submitted
    while the caller is not inside [eval] and the shell lives; a caller
    inside [eval] takes its next turn; a worker that has not finished
    takes a turn. *)
Definition enabled (a : Sched) (c : @Config E) : Prop :=
  match a with
  | Submit _ | Receive _ => blocked c = None /\ deleted (shell c) = false
  | Resume => exists pc, blocked c = Some pc
  | Run t => exists w, threads (shell c) !! t = Some w /\ finished w = false
  end.

(** The members of the object that [poll_output] leaves as they are: all
    but [pending_output], [eval_done], the evaluator and the trace. *)
Definition same_frame (s s' : GenericShell E) : Prop :=
  show_output s' = show_output s /\ show_prompt s' = show_prompt s /\
  normal_prompt s' = normal_prompt s /\ pending_prompt s' = pending_prompt s /\
  abort_prompt s' = abort_prompt s /\ socket s' = socket s /\
  evalthr s' = evalthr s /\ pollthr s' = pollthr s /\
  self_destruct s' = self_destruct s /\ poll_needed s' = poll_needed s /\
  threads s' = threads s /\ self s' = self s /\ deleted s' = deleted s.

End Conduct.

(** The calls [poll_output] makes, as actions. *)
Definition is_poll_action (a : Action) : bool :=
  match a with
  | Invoke c => is_poll_call c
  | _ => false
  end.

(** ** The caller inside a call *)

(** What the caller itself has done: its actions in the trace, but for
    the calls that [get_prompt] and [poll_output] make on the evaluator. *)
Definition deeds (tr : list Event) : list Action :=
  omap (fun e =>
          match actor e with
          | Caller => if is_poll_action (action e) then None else Some (action e)
          | Thread _ => None
          end) tr.

(** What an access adds to them on the socket [k], [text] being the
    string the caller holds when it sends. *)
Definition op_deeds (k : Socket) (text : string) (op : Op) : list Action :=
  match op with
  | OpInterrupt => [Invoke interrupt_call]
  | OpClearPending => [Invoke clear_pending_call]
  | OpSend => [Send k text]
  | OpSendPrompt => [SendPrompt k]
  | OpSetShell => [SetShell k false]
  | _ => []
  end.

Definition ops_deeds (k : Socket) (text : string) (ops : list Op) : list Action :=
  concat (map (op_deeds k text) ops).

(** The accesses a caller that stands at [b] has left to make. *)
Definition accesses_left (b : option PC) : list Op :=
  match b with
  | Some (InCall ops _ _) => ops
  | _ => []
  end.

(** The texts that the accesses [ops] queue before the caller polls, in
    a shell whose acknowledgment is [ap] and whose normal prompt is
    [np]. *)
Fixpoint puts (ap np : string) (ops : list Op) : string :=
  match ops with
  | [] => ""
  | OpPoll :: _ => ""
  | OpPutAbort :: rest => ap ++ puts ap np rest
  | OpPut text :: rest => text ++ puts ap np rest
  | OpPutNormal :: rest => np ++ puts ap np rest
  | _ :: rest => puts ap np rest
  end.

(** The accesses whose effect does not depend on the evaluator. *)
Definition is_blind (op : Op) : bool :=
  match op with
  | OpGetPrompt | OpPutHeld => false
  | _ => true
  end.

(** The moves made inside a call: the turns of the caller and of the
    workers. *)
Definition is_turn (a : Sched) : bool :=
  match a with
  | Resume | Run _ => true
  | _ => false
  end.

(** The turns the caller takes in a schedule. *)
Fixpoint caller_turns (schedule : list Sched) : nat :=
  match schedule with
  | [] => 0
  | Resume :: rest => S (caller_turns rest)
  | _ :: rest => caller_turns rest
  end.

Section Calls.
Context {E : Type} `{GenericEval E}.

(** No polling thread is running. *)
Definition no_poller (s : GenericShell E) : Prop :=
  forall t at_, threads s !! t = Some (PollWorker at_) -> at_ = PollDone.

(** No thread is running. *)
Definition quiescent (s : GenericShell E) : Prop :=
  forall t w, threads s !! t = Some w -> finished w = true.

(** A line that [line_discipline] answers by the accesses [plan], none
    of which depends on the evaluator, is being served: [c0] is the
    configuration in which it was received and [target] the text the
    accesses queue.  The caller waits for no thread; what it has done and
    what it has left to do add up to the plan; and while no polling
    thread runs the text it will send is [target]. *)
Definition Serving (k : Socket) (plan : list Op) (target : string)
    (c0 c : @Config E) : Prop :=
  let s0 := shell c0 in
  let s := shell c in
  socket s = Some k /\ self_destruct s = false /\ deleted s = false /\
  abort_prompt s = abort_prompt s0 /\ normal_prompt s = normal_prompt s0 /\
  evalthr s = evalthr s0 /\ pollthr s = pollthr s0 /\
  length (threads s) = length (threads s0) /\
  (no_poller s0 -> no_poller s) /\
  match blocked c with
  | None =>
      exists text,
        deeds (trace s) = deeds (trace s0) ++ ops_deeds k text plan /\
        (no_poller s0 -> text = target)
  | Some (InCall ops held ThenDestruct) =>
      (before_poll ops = true /\ forallb is_blind ops = true /\
       (forall text,
          deeds (trace s) ++ ops_deeds k text ops =
          deeds (trace s0) ++ ops_deeds k text plan) /\
       (no_poller s0 ->
        (pending_output s ++ puts (abort_prompt s0) (normal_prompt s0) ops)%string
        = target)) \/
      (ops = [OpSend] /\
       deeds (trace s) ++ [Send k held] =
       deeds (trace s0) ++ ops_deeds k held plan /\
       (no_poller s0 -> held = target))
  | Some _ => False
  end.

(** A line that [line_discipline] hands to [do_eval] with [input] is
    being evaluated: [c0] is the configuration in which it was received.
    The caller waits in the joins of [do_eval], and no thread has been
    created since; or the call has returned, and the two threads of the
    evaluation have been created, the first of them for [input]. *)
Definition Evaluating (input : string) (c0 c : @Config E) : Prop :=
  let n := length (threads (shell c0)) in
  (blocked c = Some (InDoEval input) /\
   length (threads (shell c)) = n /\
   started (trace (shell c)) = started (trace (shell c0))) \/
  (blocked c = None /\
   length (threads (shell c)) = S (S n) /\
   started (trace (shell c)) = started (trace (shell c0)) ++ [input] /\
   exists done, threads (shell c) !! n = Some (EvalWorker input done)).

End Calls.

(** ** The joins *)

(** No thread is joined twice. *)
Definition joined_once (tr : list Event) : Prop :=
  forall i j a a' t,
    tr !! i = Some {| actor := a; action := Join t |} ->
    tr !! j = Some {| actor := a'; action := Join t |} -> i = j.

(** The thread [t] has not been joined. *)
Definition not_joined (tr : list Event) (t : nat) : Prop :=
  forall i a, tr !! i <> Some {| actor := a; action := Join t |}.

(** The handles and the joins: the two handles point to two different
    threads of the table, neither of them joined yet; only threads of the
    table have been joined, and none twice. *)
Record JInv (ths : list Worker) (eh ph : option nat) (tr : list Event) : Prop := {
  j_valid : forall t, eh = Some t \/ ph = Some t -> (t < length ths)%nat;
  j_apart : forall t, eh = Some t -> ph = Some t -> False;
  j_held : forall t, eh = Some t \/ ph = Some t -> not_joined tr t;
  j_known : forall i a t,
    tr !! i = Some {| actor := a; action := Join t |} -> (t < length ths)%nat;
  j_once : joined_once tr
}.

Section Joins.
Context {E : Type} `{GenericEval E}.

Definition JS (s : GenericShell E) : Prop :=
  JInv (threads s) (evalthr s) (pollthr s) (trace s).

(** Code that keeps [JS]: from [P], a return satisfies [Q] and a blocked
    call leaves [JS] intact. *)
Definition upholds {A} (P : GenericShell E -> Prop) (m : M E A)
    (Q : A -> GenericShell E -> Prop) : Prop :=
  forall s, P s ->
    match m s with
    | Ret a s' => Q a s'
    | Blocked _ s' => JS s'
    | Aborted _ _ | Fault => True
    end.

End Joins.

(** Whether a text will be queued when the caller reaches its own
    [poll_output], in a shell that shows its prompts and whose prompts
    are not empty: [queued] tells whether one is queued now, and [held]
    whether the string the caller holds is not empty. *)
Fixpoint loaded (queued held : bool) (ops : list Op) : bool :=
  match ops with
  | [] => true
  | op :: rest =>
      match op with
      | OpPoll => queued
      | OpPutAbort | OpPutNormal => loaded true held rest
      | OpPut text => loaded (queued || (0 <? String.length text)%nat) held rest
      | OpPutHeld => loaded (queued || held) held rest
      | OpGetPrompt => loaded queued true rest
      | OpInterrupt | OpClearPending => loaded queued held rest
      | OpSend | OpSendPrompt | OpSetShell => true
      end
  end.

Section Garbage.
Context {E : Type} `{GenericEval E}.

(** The constructor does not initialise [eval_done] and [poll_needed]:
    [forget] overwrites the two members, and [garbage] puts arbitrary
    values into them. *)
Definition forget (s : GenericShell E) : GenericShell E :=
  set_poll_needed false (set_eval_done false s).

Definition garbage (d n : bool) (s : GenericShell E) : GenericShell E :=
  set_poll_needed n (set_eval_done d s).

(** A shell that has not started an evaluation yet, shows its prompts,
    and has three prompts that are not empty. *)
Definition Calm (s : GenericShell E) : Prop :=
  threads s = [] /\ evalthr s = None /\ pollthr s = None /\
  show_prompt s = true /\
  normal_prompt s <> ""%string /\ pending_prompt s <> ""%string /\
  abort_prompt s <> ""%string /\ pending_output s = ""%string /\
  (deleted s = true \/ self_destruct s = false).

(** The same shell, whatever is queued and whether it is being left. *)
Definition Early (s : GenericShell E) : Prop :=
  threads s = [] /\ evalthr s = None /\ pollthr s = None /\
  show_prompt s = true /\
  normal_prompt s <> ""%string /\ pending_prompt s <> ""%string /\
  abort_prompt s <> ""%string.

(** Two configurations that differ at most in the two members, before
    the first evaluation is started; afterwards they are equal.  Inside a
    call the caller has not polled yet and will find a text queued, or it
    has polled. *)
Definition alike (c1 c2 : @Config E) : Prop :=
  c1 = c2 \/
  (blocked c2 = blocked c1 /\
   (exists d n, shell c2 = garbage d n (shell c1)) /\
   let s := shell c1 in
   match blocked c1 with
   | None => Calm s
   | Some (InDoEval _) => Early s /\ self_destruct s = false
   | Some InDtor => Early s /\ pending_output s = ""%string
   | Some InEval => False
   | Some (InCall ops held tail) =>
       Early s /\ deleted s = false /\ Agenda ops tail s /\
       loaded (0 <? String.length (pending_output s))%nat
              (0 <? String.length held)%nat ops = true
   end).

End Garbage.

(** An evaluator that holds output not polled yet. *)
Definition talking : Echo :=
  {| buffer := "out"; more_input := false; caught_error := false |}.

(** ** Concrete schedules *)

(** A line is submitted and its evaluation worker has run. *)
Definition evaluated_once : list Sched := [Submit "x"; Run 0].

(** The polling worker has relayed the output of the evaluation and is
    back at the head of its loop. *)
Definition output_relayed : list Sched := [Submit "x"; Run 0; Run 1; Run 1].

(** A second line is submitted while the workers of the first have not
    run: the caller waits in [do_eval]. *)
Definition impatient : list Sched := [Submit "x"; Submit "y"].

(** The user leaves the shell at once. *)
Definition leaving : list Sched := [Submit "."].

(** The first line is evaluated and relayed to its end while the caller
    waits with the second. *)
Definition patient : list Sched :=
  [Submit "x"; Submit "y"; Run 0; Run 1; Run 1; Run 1; Run 1; Run 1].

(** The configuration a session on socket 7 reaches by a schedule. *)
Definition after (schedule : list Sched) : @Config Echo :=
  let c0 := session at_rest false false false false 7%nat in
  match run schedule c0 with
  | Some c => c
  | None => c0
  end.

(** The polling thread of the first line runs to its end before the
    evaluation thread has taken its turn. *)
Definition poller_gone : list Sched := [Submit "x"; Run 1; Run 1; Run 1].

(** A second line is received while the threads of the first have not
    run, and the caller tries its join twice. *)
Definition still_waiting : list Sched := [Submit "x"; Receive "y"; Resume; Resume].

(** The same with an empty second line. *)
Definition still_waiting_empty : list Sched :=
  [Submit "x"; Receive ""; Resume; Resume].

(** An erase-line is received after the first line has been evaluated.
    The polling thread takes the prompt the caller has queued; the
    caller's own [poll_output] then takes the output of the evaluation,
    and the caller sends it after the polling thread has written both
    prompts and ended. *)
Definition relayed_by_the_caller : list Sched :=
  [Submit "x"; Run 0; Receive (line_of [0xff; 0xf8]); Resume; Resume;
   Run 1; Resume; Run 1; Run 1; Run 1; Run 1; Resume].

(** An interrupt is received after the first line has been evaluated.
    The polling thread takes the acknowledgment the caller has queued and
    the caller's own [poll_output] takes the output of the evaluation. *)
Definition stolen_acknowledgment : list Sched :=
  [Submit "x"; Run 0; Receive (line_of [0x61; 0xff; 0xf4]);
   Resume; Resume; Resume; Run 1; Resume; Resume; Run 1].

(** A cancel byte is received after the first line has been evaluated.
    The polling thread takes the newline the caller has queued, before
    the caller queues the prompt. *)
Definition torn_reply : list Sched :=
  [Submit "x"; Run 0; Receive (line_of [0x18]);
   Resume; Resume; Resume; Run 1; Resume; Resume; Resume; Run 1].

(** Twenty ordinary bytes. *)
Definition twenty : string := "aaaaaaaaaaaaaaaaaaaa".

Local Open Scope shell_scope.

(** * The line discipline and the output relay *)

(** ** Sizes and indices *)

Lemma int_of_size_t_sub (len k : Z) :
  0 <= len <= INT_MAX -> 0 <= k <= INT_MAX ->
  int_of_size_t (size_t_sub len k) = len - k.
Proof.
  unfold int_of_size_t, size_t_sub, INT_MAX.
  change (2 ^ 64) with 18446744073709551616.
  change (2 ^ 32) with 4294967296.
  change (2 ^ 31) with 2147483648.
  intros Hl Hk.
  Z.div_mod_to_equations. lia.
Qed.

(** ** Strings *)

Lemma append_assoc (x y z : string) : ((x ++ y) ++ z = x ++ (y ++ z))%string.
Proof.
  induction x as [|c x IH]; simpl; [reflexivity|]. rewrite IH. reflexivity.
Qed.

Lemma append_empty_r (x : string) : (x ++ "" = x)%string.
Proof.
  induction x as [|c x IH]; simpl; [reflexivity|]. rewrite IH. reflexivity.
Qed.

(** ** Tactics *)

Ltac escape_cases expr j :=
  unfold escape_at, escape_with; cbn zeta;
  destruct (Z.eqb_spec IAC (uchar (char_at expr j)));
  destruct (Z.eqb_spec IP (uchar (char_at expr (j + 1))));
  destruct (Z.eqb_spec AO (uchar (char_at expr (j + 1))));
  destruct (Z.eqb_spec EL (uchar (char_at expr (j + 1))));
  cbn [orb];
  intuition (try discriminate; try (unfold IAC, IP, AO, EL in *; congruence)).

Ltac shell_unfold :=
  cbv beta iota zeta delta
    [bind ret gets modify log null_dereference OC_ASSERT
     evaluator_begin_eval evaluator_eval_expr evaluator_poll_result
     evaluator_interrupt evaluator_clear_pending evaluator_input_pending
     evaluator_eval_error on_socket socket_Send socket_sendPrompt
     socket_SetShell new_thread thread_join set_worker
     hush_output hush_prompt get_prompt set_socket thread_init put_output
     poll_output GenericShell_dtor delete_this do_eval eval_relay
     eval_destruct eval eval_wrapper poll_wrapper_turn
     telnet_abort telnet_erase by_ handles joinable last_byte
     set_show_output set_show_prompt set_pending_output set_evaluator
     set_socket_field set_evalthr set_pollthr set_self_destruct set_eval_done
     set_poll_needed set_threads set_trace set_self set_deleted
     show_output show_prompt normal_prompt pending_prompt abort_prompt
     pending_output evaluator socket evalthr pollthr self_destruct eval_done
     poll_needed threads trace self deleted];
  cbn [negb finished].

Ltac open_shell s :=
  destruct s as [so sp np pp ap po ev sock eth pth sd ed pn ths tr me del];
  cbn [show_output show_prompt normal_prompt pending_prompt abort_prompt
       pending_output evaluator socket evalthr pollthr self_destruct eval_done
       poll_needed threads trace self deleted] in *.

Ltac split_ifs :=
  repeat match goal with
         | |- context [if ?b then _ else _] => destruct b; shell_unfold
         end.

Ltac call_unfold :=
  cbv beta iota zeta delta [receive perform perform_all finish resume call];
  shell_unfold.

Ltac call_unfold_in H := revert H; call_unfold; intros H.

Section Discipline.
Context {E : Type} `{GenericEval E}.

Lemma iac_loop_eq expr m i :
  iac_loop expr m i =
  if Z_le_dec m i then
    match escape_at expr i with
    | Some TelnetAbort => telnet_abort
    | Some TelnetErase => telnet_erase
    | None => iac_loop expr m (i - 1)
    end
  else ret false.
Proof.
  rewrite iac_loop_equation_1.
  destruct (Z_le_dec m i); [|reflexivity].
  unfold escape_at, iac_loop_unfold_clause_1; cbn zeta.
  destruct (IAC =? uchar (char_at expr i)); [|reflexivity].
  destruct ((IP =? _) || (AO =? _)); [reflexivity|].
  destruct (EL =? _); reflexivity.
Qed.

(** The loop when no index between [m] and [i] holds a recognised escape,
    and when the escape nearest to [i] is known. *)
Lemma iac_loop_none expr m (n : nat) i :
  i = m + Z.of_nat n - 1 ->
  (forall j, m <= j <= i -> escape_at expr j = None) ->
  iac_loop expr m i = ret false.
Proof.
  revert i. induction n as [|n IH]; intros i -> Hno; rewrite iac_loop_eq.
  - destruct (Z_le_dec _ _); [lia|reflexivity].
  - destruct (Z_le_dec _ _); [|reflexivity].
    rewrite Hno by lia. apply IH; [lia|]. intros; apply Hno; lia.
Qed.

Lemma iac_loop_found expr m (n : nat) i j t :
  i = j + Z.of_nat n ->
  m <= j -> escape_at expr j = Some t ->
  (forall j', j < j' <= i -> escape_at expr j' = None \/ escape_at expr j' = Some t) ->
  iac_loop expr m i =
  match t with TelnetAbort => telnet_abort | TelnetErase => telnet_erase end.
Proof.
  revert i. induction n as [|n IH]; intros i -> Hm Hj Hlater; rewrite iac_loop_eq.
  - destruct (Z_le_dec _ _); [|lia].
    replace (j + Z.of_nat 0) with j by lia. rewrite Hj. reflexivity.
  - destruct (Z_le_dec _ _); [|lia].
    destruct (Hlater (j + Z.of_nat (S n))) as [-> | ->]; [lia| |reflexivity].
    apply IH; [lia|assumption|assumption|]. intros; apply Hlater; lia.
Qed.

Lemma window_low len : (if len - 20 <? 0 then 0 else len - 20) = Z.max 0 (len - 20).
Proof. destruct (Z.ltb_spec (len - 20) 0); lia. Qed.

Lemma line_discipline_scan expr :
  1 <= length_of expr <= INT_MAX ->
  line_discipline expr =
  (returned <- iac_loop expr (Z.max 0 (length_of expr - 20)) (length_of expr - 2);;
    if returned then ret tt
    else
      let len := length_of expr in
      let c := uchar (char_at expr (len - 1)) in
      if (SYN =? c) || (CAN =? c) || (ESC =? c) then
        evaluator_interrupt;;
        evaluator_clear_pending;;
        put_output newline;;
        (text <- gets normal_prompt;; put_output text)
      else
        pending <- evaluator_input_pending;;
        if negb pending &&
           ((EOT =? char_val (char_at expr (len - 1))) ||
            ((1 =? len) && (char_val "." =? char_val (char_at expr 0))))
        then
          modify (set_self_destruct true);;
          put_output "";;
          sp <- gets show_prompt;;
          if sp then put_output ("Exiting the shell" ++ newline) else ret tt
        else
          do_eval (expr ++ newline)).
Proof.
  intros Hlen. unfold line_discipline.
  destruct (Z.eqb_spec 0 (length_of expr)); [lia|].
  cbn zeta.
  rewrite !int_of_size_t_sub by (unfold INT_MAX in *; lia).
  rewrite window_low. reflexivity.
Qed.




Lemma escape_at_abort expr j :
  escape_at expr j = Some TelnetAbort <-> escape_with expr j IP \/ escape_with expr j AO.
Proof. escape_cases expr j. Qed.

Lemma escape_at_erase expr j :
  escape_at expr j = Some TelnetErase <-> escape_with expr j EL.
Proof. escape_cases expr j. Qed.

Lemma escape_at_none expr j :
  escape_at expr j = None <->
  ~ escape_with expr j IP /\ ~ escape_with expr j AO /\ ~ escape_with expr j EL.
Proof. escape_cases expr j; exfalso; eauto. Qed.

(** The loop over the window of a line, by what the window holds. *)
Lemma scan_no_escape expr :
  no_escape expr ->
  iac_loop expr (Z.max 0 (length_of expr - 20)) (length_of expr - 2) = ret false.
Proof.
  intros Hno.
  destruct (Z_le_dec (Z.max 0 (length_of expr - 20)) (length_of expr - 2)) as [Hle|Hgt].
  - apply (iac_loop_none expr _
      (Z.to_nat (length_of expr - 2 - Z.max 0 (length_of expr - 20) + 1))); [lia|].
    intros j Hj. apply escape_at_none, Hno. exact Hj.
  - rewrite iac_loop_eq. destruct (Z_le_dec _ _); [lia|reflexivity].
Qed.

Lemma scan_abort expr i :
  in_window expr i ->
  escape_with expr i IP \/ escape_with expr i AO ->
  (forall j, i < j <= length_of expr - 2 -> ~ escape_with expr j EL) ->
  iac_loop expr (Z.max 0 (length_of expr - 20)) (length_of expr - 2) = telnet_abort.
Proof.
  intros Hi Hesc Hlater.
  rewrite (iac_loop_found expr _ (Z.to_nat (length_of expr - 2 - i)) _ i TelnetAbort);
    [reflexivity|unfold in_window in Hi; lia|apply Hi|apply escape_at_abort, Hesc|].
  intros j Hj.
  destruct (escape_at expr j) as [[]|] eqn:Hj'; auto.
  apply escape_at_erase in Hj'. destruct (Hlater j Hj Hj').
Qed.

Lemma scan_erase expr i :
  in_window expr i ->
  escape_with expr i EL ->
  (forall j, i < j <= length_of expr - 2 ->
     ~ escape_with expr j IP /\ ~ escape_with expr j AO) ->
  iac_loop expr (Z.max 0 (length_of expr - 20)) (length_of expr - 2) = telnet_erase.
Proof.
  intros Hi Hesc Hlater.
  rewrite (iac_loop_found expr _ (Z.to_nat (length_of expr - 2 - i)) _ i TelnetErase);
    [reflexivity|unfold in_window in Hi; lia|apply Hi|apply escape_at_erase, Hesc|].
  intros j Hj.
  destruct (escape_at expr j) as [[]|] eqn:Hj'; auto.
  apply escape_at_abort in Hj'. destruct (Hlater j Hj) as [? ?]. destruct Hj'; contradiction.
Qed.



(** The loop decides by the line alone. *)
Lemma iac_loop_scan expr m i :
  iac_loop expr m i =
  match iac_scan expr m i with
  | Some TelnetAbort => telnet_abort
  | Some TelnetErase => telnet_erase
  | None => ret false
  end.
Proof.
  unfold iac_scan.
  destruct (Z_le_dec m i) as [Hle|Hgt].
  - remember (Z.to_nat (i - m + 1)) as n eqn:Hn.
    assert (Hi : i = m + Z.of_nat n - 1) by lia. clear Hn Hle.
    revert i Hi. induction n as [|n IH]; intros i ->; rewrite iac_loop_eq.
    + destruct (Z_le_dec _ _); [lia|reflexivity].
    + destruct (Z_le_dec _ _); [|lia]. cbn [scan].
      destruct (escape_at expr _) as [[]|]; try reflexivity.
      apply IH. lia.
  - rewrite iac_loop_eq. destruct (Z_le_dec m i); [lia|].
    replace (Z.to_nat (i - m + 1)) with 0%nat by lia. reflexivity.
Qed.

(** [eval] is its head followed by what the head has left to do. *)
Lemma eval_call expr (s : GenericShell E) : eval expr s = call expr s.
Proof.
  unfold eval, call, receive, line_discipline.
  unfold bind at 1 3 4, modify.
  destruct (0 =? length_of expr); [reflexivity|].
  cbn zeta. rewrite iac_loop_scan.
  destruct (iac_scan expr _ _) as [[]|].
  - open_shell s. destruct sock; call_unfold; split_ifs; reflexivity.
  - open_shell s. destruct sock; call_unfold; split_ifs; reflexivity.
  - destruct (_ || _).
    + open_shell s. destruct sock; call_unfold; split_ifs; reflexivity.
    + open_shell s. call_unfold.
      destruct (negb (input_pending ev) && _); [|reflexivity].
      destruct sock; call_unfold; split_ifs; reflexivity.
Qed.

(** The acknowledgment the constructor builds is the fixed one, and these
    are its four bytes. *)
Lemma ctor_abort_prompt (ev : E) done0 needed0 :
  abort_prompt (GenericShell_ctor ev done0 needed0) = abort_acknowledgment.
Proof. reflexivity. Qed.

Lemma abort_acknowledgment_bytes :
  map uchar (list_ascii_of_string abort_acknowledgment) =
  [IAC; WILL; TIMING_MARK; uchar "010"].
Proof. reflexivity. Qed.

Lemma uchar_range c : 0 <= uchar c < 256.
Proof.
  unfold uchar. pose proof (N_ascii_bounded c). lia.
Qed.

Lemma uchar_inj c d : uchar c = uchar d -> c = d.
Proof.
  unfold uchar. intros Heq.
  rewrite <- (ascii_N_embedding c), <- (ascii_N_embedding d).
  f_equal. lia.
Qed.

Lemma char_val_eqb (z : Z) c :
  0 <= z < 128 -> (z =? char_val c) = (z =? uchar c).
Proof.
  intros Hz. unfold char_val. pose proof (uchar_range c).
  destruct (Z.ltb_spec 127 (uchar c)); [|reflexivity].
  destruct (Z.eqb_spec z (uchar c - 256)), (Z.eqb_spec z (uchar c)); lia || reflexivity.
Qed.

Lemma single_period expr :
  (1 =? length_of expr) && (char_val "." =? char_val (char_at expr 0)) = true <->
  expr = "."%string.
Proof.
  split.
  - intros Hb. apply andb_prop in Hb as [Hlen Hc].
    apply Z.eqb_eq in Hlen. unfold length_of in Hlen.
    destruct expr as [|c [|d rest]]; simpl in Hlen; try lia.
    change (char_at (String c "") 0) with c in Hc.
    rewrite (char_val_eqb (char_val ".") c) in Hc by (vm_compute; split; congruence).
    apply Z.eqb_eq in Hc. f_equal.
    apply uchar_inj. symmetry. exact Hc.
  - intros ->. reflexivity.
Qed.

Lemma exit_test expr :
  (EOT =? char_val (char_at expr (length_of expr - 1))) ||
  ((1 =? length_of expr) && (char_val "." =? char_val (char_at expr 0))) = true <->
  leaves_shell expr.
Proof.
  unfold leaves_shell, last_byte.
  rewrite orb_true_iff, single_period, char_val_eqb by (unfold EOT; lia).
  rewrite Z.eqb_eq. intuition congruence.
Qed.


(** ** The turns of the workers *)

Lemma as_worker_eval t input (s : GenericShell E) :
  threads s !! t = Some (EvalWorker input false) ->
  as_worker t s =
  Some (set_threads (<[t := EvalWorker input true]> (threads s))
         (set_evaluator (eval_expr input (evaluator s))
           (set_trace (trace s ++ by_ (Thread t) [Invoke (eval_expr_call input)])
             (set_self (Thread t) s)))).
Proof.
  intros Hw. unfold as_worker. rewrite Hw.
  open_shell s. reflexivity.
Qed.

Lemma as_worker_finished t w (s : GenericShell E) :
  threads s !! t = Some w -> finished w = true -> as_worker t s = None.
Proof.
  intros Hw Hf. unfold as_worker. rewrite Hw.
  destruct w as [input [|]|[| |]]; try discriminate; reflexivity.
Qed.

(** What [do_eval] and the rest of [eval] do once the two joins can
    return: the evaluation worker and the polling worker are created. *)
Lemma evaluation_started input (s : GenericShell E) :
  joinable (evalthr s) s -> joinable (pollthr s) s ->
  self_destruct s = false ->
  let n := length (threads s) in
  exists s', (do_eval input;; eval_relay;; eval_destruct) s = Ret tt s' /\
    threads s' = threads s ++ [EvalWorker input false; PollWorker Polling] /\
    trace s' = trace s ++ by_ (self s)
      (map Join (handles s) ++
       [Invoke begin_eval_call; Spawn n (EvalWorker input false);
        Spawn (S n) (PollWorker Polling)]) /\
    evalthr s' = Some n /\ pollthr s' = Some (S n) /\
    self s' = self s /\ pending_output s' = pending_output s /\
    self_destruct s' = false /\ socket s' = socket s /\
    eval_done s' = false /\ deleted s' = deleted s.
Proof.
  intros Hje Hjp Hsd n. subst n.
  unfold joinable, handles in *.
  open_shell s; subst.
  destruct eth as [te|], pth as [tp|].
  all: try destruct Hje as (we & Hwe & Hfe); try destruct Hjp as (wp & Hwp & Hfp).
  all: eexists; split;
    [ shell_unfold;
      repeat first [rewrite Hwe | rewrite Hfe | rewrite Hwp | rewrite Hfp
                   | progress shell_unfold]; reflexivity |].
  all: cbn [threads trace evalthr pollthr self pending_output self_destruct
            socket eval_done deleted by_ map app].
  all: rewrite <- ?app_assoc, ?length_app; cbn [app length].
  all: rewrite ?Nat.add_1_r; repeat split; reflexivity.
Qed.

(** While a worker the handles point to is still running, [do_eval] waits
    in its [join]: no thread has been created and [eval_expr] has not been
    called.  The caller resumes with [resume (InDoEval input)], that is
    with the very code [evaluation_started] is about. *)
Lemma evaluation_waits input (s : GenericShell E) :
  (forall t, In t (handles s) -> exists w, threads s !! t = Some w) ->
  ~ (joinable (evalthr s) s /\ joinable (pollthr s) s) ->
  exists s1, (do_eval input;; eval_relay;; eval_destruct) s =
               Blocked (InDoEval input) s1 /\
    threads s1 = threads s /\ evaluated (trace s1) = evaluated (trace s) /\
    self_destruct s1 = self_destruct s /\ pending_output s1 = pending_output s /\
    exists joined, trace s1 = trace s ++ by_ (self s) (map Join joined).
Proof.
  intros Hvalid Hwait. unfold joinable, handles in *.
  assert (Hnone : forall tr : list Event, tr = tr ++ by_ (self s) (map Join [])).
  { intros tr0. cbn. symmetry. apply app_nil_r. }
  open_shell s.
  destruct eth as [te|], pth as [tp|]; cbn [app In] in Hvalid.
  - destruct (Hvalid te (or_introl eq_refl)) as (we & Hwe).
    destruct (Hvalid tp (or_intror (or_introl eq_refl))) as (wp & Hwp).
    destruct (finished we) eqn:Hfe.
    + destruct (finished wp) eqn:Hfp; [exfalso; apply Hwait; split; first [exact I | eexists; split; eassumption]|].
      eexists; split;
        [ shell_unfold; rewrite Hwe, Hfe; shell_unfold; rewrite Hwp, Hfp; reflexivity |].
      cbn [threads trace self_destruct pending_output].
      unfold evaluated. rewrite omap_app. cbn. rewrite app_nil_r.
      split; [reflexivity|]. split; [reflexivity|]. split; [reflexivity|].
      split; [reflexivity|]. exists [te]. reflexivity.
    + eexists; split; [shell_unfold; rewrite Hwe, Hfe; reflexivity|].
      split; [reflexivity|]. split; [reflexivity|]. split; [reflexivity|].
      split; [reflexivity|]. exists []. apply Hnone.
  - destruct (Hvalid te (or_introl eq_refl)) as (we & Hwe).
    destruct (finished we) eqn:Hfe; [exfalso; apply Hwait; split; first [exact I | eexists; split; eassumption]|].
    eexists; split; [shell_unfold; rewrite Hwe, Hfe; reflexivity|].
    split; [reflexivity|]. split; [reflexivity|]. split; [reflexivity|].
    split; [reflexivity|]. exists []. apply Hnone.
  - destruct (Hvalid tp (or_introl eq_refl)) as (wp & Hwp).
    destruct (finished wp) eqn:Hfp; [exfalso; apply Hwait; split; first [exact I | eexists; split; eassumption]|].
    eexists; split; [shell_unfold; rewrite Hwp, Hfp; reflexivity|].
    split; [reflexivity|]. split; [reflexivity|]. split; [reflexivity|].
    split; [reflexivity|]. exists []. apply Hnone.
  - exfalso. apply Hwait. auto.
Qed.

(** C10: on the path of the raw control bytes the newline and the normal
    prompt are appended to [pending_output] whatever [show_prompt] and
    [show_output] are; on the erase-line path what is appended is the
    result of [get_prompt], which is the empty string when [show_prompt]
    is false. *)
Theorem C10_raw_control_prompt_is_unconditional (s : GenericShell E) :
  (forall expr,
     1 <= length_of expr <= INT_MAX ->
     no_escape expr ->
     last_byte expr = ESC \/ last_byte expr = CAN \/ last_byte expr = SYN ->
     exists s', line_discipline expr s = Ret tt s' /\
       pending_output s' = (pending_output s ++ newline ++ normal_prompt s)%string /\
       show_prompt s' = show_prompt s /\ show_output s' = show_output s) /\
  (forall expr i,
     length_of expr <= INT_MAX ->
     in_window expr i ->
     escape_with expr i EL ->
     (forall j, i < j <= length_of expr - 2 ->
        ~ escape_with expr j IP /\ ~ escape_with expr j AO) ->
     exists text s1 s', get_prompt s = Ret text s1 /\
       line_discipline expr s = Ret tt s' /\
       pending_output s' = (pending_output s ++ text)%string /\
       (show_prompt s = false -> text = ""%string)).
Proof.
  split.
  - intros expr Hlen Hno Hlast.
    rewrite line_discipline_scan by lia.
    rewrite (scan_no_escape expr) by assumption.
    unfold last_byte in Hlast.
    assert (Hc : (SYN =? uchar (char_at expr (length_of expr - 1))) ||
                 (CAN =? uchar (char_at expr (length_of expr - 1))) ||
                 (ESC =? uchar (char_at expr (length_of expr - 1))) = true).
    { destruct Hlast as [-> | [-> | ->]]; reflexivity. }
    open_shell s.
    eexists; split; [shell_unfold; rewrite Hc; shell_unfold; reflexivity|].
    cbn [pending_output show_prompt show_output].
    rewrite append_assoc. auto.
  - intros expr i Hlen Hi Hesc Hlater.
    rewrite line_discipline_scan by (unfold in_window in Hi; lia).
    rewrite (scan_erase expr i) by assumption.
    open_shell s.
    destruct sp.
    + destruct (input_pending ev) eqn:Hp.
      * do 3 eexists; split; [shell_unfold; rewrite Hp; reflexivity|].
        split; [shell_unfold; rewrite Hp; reflexivity|].
        cbn [pending_output]. split; [reflexivity|discriminate].
      * do 3 eexists; split; [shell_unfold; rewrite Hp; reflexivity|].
        split; [shell_unfold; rewrite Hp; reflexivity|].
        cbn [pending_output]. split; [reflexivity|discriminate].
    + do 3 eexists; split; [reflexivity|].
      split; [reflexivity|]. cbn [pending_output]. auto.
Qed.

(** C9: on a shell that already has a socket, [set_socket] fails in its
    assertion: nothing is stored and [SetShell] is not called; on a shell
    without a socket it stores the socket and registers the shell with it
    through [SetShell]. *)
Theorem C9_set_socket (s : GenericShell E) :
  (socket s <> None ->
   forall k, set_socket k s = Aborted "Shell already associated with socket!" s) /\
  (socket s = None ->
   forall k, set_socket (Some k) s =
     Ret tt (set_trace (trace s ++ by_ (self s) [SetShell k true])
              (set_socket_field (Some k) s))).
Proof.
  split.
  - intros Hs k. open_shell s. destruct sock; [reflexivity|congruence].
  - intros Hs k. open_shell s. subst. reflexivity.
Qed.

(** ** The output relay *)

Lemma nonempty_length (x : string) :
  (0 <? String.length x)%nat = true <-> x <> ""%string.
Proof.
  destruct x; simpl; split; intros; try reflexivity; try discriminate; congruence.
Qed.

Lemma empty_length (x : string) :
  (0 <? String.length x)%nat = false <-> x = ""%string.
Proof.
  destruct x; simpl; split; intros; try reflexivity; try discriminate; congruence.
Qed.


Lemma poll_output_pending (s : GenericShell E) :
  pending_output s <> ""%string ->
  poll_output s = Ret (pending_output s) (set_pending_output "" s).
Proof.
  intros Hp. apply nonempty_length in Hp.
  open_shell s. shell_unfold. rewrite Hp. reflexivity.
Qed.

Lemma poll_output_result (s : GenericShell E) :
  pending_output s = ""%string ->
  fst (poll_result (evaluator s)) <> ""%string ->
  poll_output s = Ret (fst (poll_result (evaluator s))) (polled s).
Proof.
  intros Hp Hr. apply nonempty_length in Hr.
  open_shell s. subst. shell_unfold.
  change ((0 <? String.length "")%nat) with false. shell_unfold.
  rewrite Hr. reflexivity.
Qed.

Lemma poll_output_drained (s : GenericShell E) :
  pending_output s = ""%string ->
  fst (poll_result (evaluator s)) = ""%string ->
  eval_done s = true ->
  poll_output s = Ret ""%string (polled s).
Proof.
  intros Hp Hr Hd.
  open_shell s. subst. shell_unfold.
  change ((0 <? String.length "")%nat) with false. shell_unfold.
  rewrite Hr. reflexivity.
Qed.


Lemma poll_output_prompt (s : GenericShell E) :
  pending_output s = ""%string ->
  fst (poll_result (evaluator s)) = ""%string ->
  eval_done s = false ->
  let e' := snd (poll_result (evaluator s)) in
  exists chunk s',
    poll_output s = Ret chunk s' /\
    eval_done s' = true /\ pending_output s' = ""%string /\ evaluator s' = e' /\
    trace s' = trace s ++ by_ (self s)
      (Invoke poll_result_call :: Invoke input_pending_call ::
       if input_pending e' || show_output s then [] else [Invoke eval_error_call]) /\
    (input_pending e' = true ->
       chunk = if show_output s && show_prompt s then pending_prompt s else ""%string) /\
    (input_pending e' = false -> show_output s = true \/ eval_error e' = true ->
       chunk = if show_prompt s then normal_prompt s else ""%string) /\
    (input_pending e' = false -> show_output s = false -> eval_error e' = false ->
       chunk = ""%string).
Proof.
  intros Hp Hr Hd e'. subst e'.
  open_shell s; subst.
  destruct (input_pending (snd (poll_result ev))) eqn:Hip;
  destruct so, sp; try destruct (eval_error (snd (poll_result ev))) eqn:Herr.
  all: do 2 eexists; split;
    [ shell_unfold; change ((0 <? String.length "")%nat) with false; shell_unfold;
      rewrite Hr; change ((0 <? String.length "")%nat) with false; shell_unfold;
      rewrite Hip; rewrite ?Herr; reflexivity |].
  all: cbn [eval_done pending_output evaluator trace by_ map orb].
  all: rewrite <- ?app_assoc; cbn [app].
  all: repeat split; try reflexivity; try (intros; discriminate).
  all: try (intros _ [?|?]; discriminate).
  all: try (intros; reflexivity).
Qed.

(** C5, amended: when a cycle has drained and the latch is taken, the
    pending prompt is returned if the evaluator has input pending and both
    [show_output] and [show_prompt] are set, and nothing if either is
    unset; without pending input the normal prompt is returned, subject to
    [show_prompt], if [show_output] is set or the evaluator reports an
    error; otherwise nothing is returned. *)
Theorem C5_prompt_selection (s : GenericShell E) :
  pending_output s = ""%string ->
  fst (poll_result (evaluator s)) = ""%string ->
  eval_done s = false ->
  let e' := snd (poll_result (evaluator s)) in
  exists chunk s',
    poll_output s = Ret chunk s' /\ eval_done s' = true /\
    (input_pending e' = true ->
       chunk = if show_output s && show_prompt s then pending_prompt s else ""%string) /\
    (input_pending e' = false -> show_output s = true \/ eval_error e' = true ->
       chunk = if show_prompt s then normal_prompt s else ""%string) /\
    (input_pending e' = false -> show_output s = false -> eval_error e' = false ->
       chunk = ""%string).
Proof.
  intros Hp Hr Hd e'.
  destruct (poll_output_prompt s Hp Hr Hd)
    as (chunk & s' & Hrun & Hdone & _ & _ & _ & H1 & H2 & H3).
  exists chunk, s'. auto.
Qed.

Lemma silent_next (e : E) :
  silent e -> silent (snd (poll_result e)).
Proof.
  intros Hs n. specialize (Hs (S n)).
  rewrite Nat.iter_succ_r in Hs. exact Hs.
Qed.

Lemma poll_times_drained n (s : GenericShell E) :
  pending_output s = ""%string -> eval_done s = true -> silent (evaluator s) ->
  exists s', poll_times n s = Ret (repeat ""%string n) s' /\
    pending_output s' = ""%string /\ eval_done s' = true /\ silent (evaluator s').
Proof.
  revert s. induction n as [|n IH]; intros s Hp Hd Hs.
  - exists s. auto.
  - pose proof (poll_output_drained s Hp (Hs 0%nat) Hd) as Hrun.
    destruct (IH (polled s)) as (s' & Hrest & Hfacts).
    + exact Hp.
    + exact Hd.
    + apply silent_next in Hs. exact Hs.
    + exists s'. split; [|exact Hfacts].
      cbn [poll_times]. unfold bind at 1. rewrite Hrun.
      unfold bind at 1. rewrite Hrest. reflexivity.
Qed.

Lemma poll_output_empty (s s1 : GenericShell E) :
  poll_output s = Ret ""%string s1 ->
  pending_output s1 = ""%string /\ eval_done s1 = true.
Proof.
  intros Hrun.
  destruct (string_dec (pending_output s) "") as [Hp|Hp].
  2: { rewrite (poll_output_pending s Hp) in Hrun. congruence. }
  destruct (string_dec (fst (poll_result (evaluator s))) "") as [Hr|Hr].
  2: { rewrite (poll_output_result s Hp Hr) in Hrun. congruence. }
  destruct (eval_done s) eqn:Hd.
  - rewrite (poll_output_drained s Hp Hr Hd) in Hrun.
    injection Hrun as <-. open_shell s. auto.
  - destruct (poll_output_prompt s Hp Hr Hd)
      as (chunk & s' & Hrun' & Hdone & Hpend & _).
    rewrite Hrun' in Hrun. injection Hrun as _ <-. auto.
Qed.

Lemma do_eval_resets_latch input (s s' : GenericShell E) :
  do_eval input s = Ret tt s' -> eval_done s' = false.
Proof.
  open_shell s. unfold do_eval.
  destruct eth as [te|], pth as [tp|]; shell_unfold.
  all: repeat match goal with
       | |- context [?l !! ?t] => destruct (l !! t) as [[? [|]|[| |]]|]; shell_unfold
       end.
  all: intros Hrun; try discriminate; injection Hrun as <-; reflexivity.
Qed.

(** C3: [poll_output] returns the whole of [pending_output] and clears
    it when it is not empty; otherwise the output of the evaluator when
    that is not empty; otherwise, if the latch [eval_done] is not set, it
    sets it and returns the prompt of the cycle: the pending prompt if the
    evaluator has input pending and [show_output] and [show_prompt] are
    both set, the normal prompt if it has none, [show_output] is set or
    the evaluator reports an error, and [show_prompt] is set, and the
    empty string in every other case; nothing is left queued, and the
    next call, if the evaluator still has no output, finds the latch set
    and returns the empty string, so that the prompt is returned once.
    With the latch set and nothing else to return the result is the empty
    string.  Once it has returned the empty string and the evaluator
    stays silent, every further call returns the empty string, and
    [do_eval] resets the latch. *)
Theorem C3_poll_output_priority (s : GenericShell E) :
  let result := fst (poll_result (evaluator s)) in
  let e' := snd (poll_result (evaluator s)) in
  (pending_output s <> ""%string ->
   poll_output s = Ret (pending_output s) (set_pending_output "" s)) /\
  (pending_output s = ""%string -> result <> ""%string ->
   poll_output s = Ret result (polled s)) /\
  (pending_output s = ""%string -> result = ""%string -> eval_done s = false ->
   exists chunk s', poll_output s = Ret chunk s' /\
     eval_done s' = true /\ pending_output s' = ""%string /\ evaluator s' = e' /\
     trace s' = trace s ++ by_ (self s)
       (Invoke poll_result_call :: Invoke input_pending_call ::
        if input_pending e' || show_output s then [] else [Invoke eval_error_call]) /\
     chunk =
       (if input_pending e'
        then if show_output s && show_prompt s then pending_prompt s else ""
        else if show_output s || eval_error e'
             then if show_prompt s then normal_prompt s else ""
             else "")%string /\
     (fst (poll_result e') = ""%string -> poll_output s' = Ret ""%string (polled s'))) /\
  (pending_output s = ""%string -> result = ""%string -> eval_done s = true ->
   poll_output s = Ret ""%string (polled s)) /\
  (forall s1, poll_output s = Ret ""%string s1 -> silent (evaluator s1) ->
   forall n, exists s2, poll_times n s1 = Ret (repeat ""%string n) s2 /\
     eval_done s2 = true) /\
  (forall input s', do_eval input s = Ret tt s' -> eval_done s' = false).
Proof.
  intros result e'. subst result e'.
  split; [apply poll_output_pending|].
  split; [apply poll_output_result|].
  split.
  { intros Hp Hr Hd.
    destruct (poll_output_prompt s Hp Hr Hd)
      as (chunk & s' & Hrun & Hdone & Hpo & Hev & Htr & H1 & H2 & H3).
    exists chunk, s'.
    split; [exact Hrun|]. split; [exact Hdone|]. split; [exact Hpo|].
    split; [exact Hev|]. split; [exact Htr|]. split.
    - destruct (input_pending (snd (poll_result (evaluator s)))).
      + apply H1. reflexivity.
      + destruct (show_output s) eqn:Hso.
        * apply H2; auto.
        * destruct (eval_error (snd (poll_result (evaluator s)))) eqn:Herr.
          -- apply H2; auto.
          -- apply H3; auto.
    - intros Hsilent. apply poll_output_drained; [exact Hpo| |exact Hdone].
      rewrite Hev. exact Hsilent. }
  split; [apply poll_output_drained|].
  split.
  { intros s1 Hrun Hsilent n.
    destruct (poll_output_empty s s1 Hrun) as [Hp Hd].
    destruct (poll_times_drained n s1 Hp Hd Hsilent) as (s2 & Hrest & _ & Hd2 & _).
    exists s2. auto. }
  intros input s'. apply do_eval_resets_latch.
Qed.

End Discipline.

(** * The worker choreography *)

(** ** The trace, one event at a time *)

Lemma lookup_snoc {A} (l : list A) (x y : A) (i : nat) :
  (l ++ [x]) !! i = Some y ->
  l !! i = Some y \/ (i = length l /\ y = x).
Proof.
  intros Hl. apply lookup_app_Some in Hl as [Hl | [Hge Hl]]; [auto|].
  right. destruct (i - length l)%nat as [|k] eqn:Hk; simpl in Hl; [|discriminate].
  split; [lia|congruence].
Qed.

Lemma lookup_snoc_old {A} (l : list A) (x y : A) (i : nat) :
  l !! i = Some y -> (l ++ [x]) !! i = Some y.
Proof. intros Hl. apply lookup_app_l_Some. exact Hl. Qed.

Ltac subst_rhs :=
  repeat match goal with
         | H : _ = ?x |- _ => is_var x; subst x
         | H : ?x = _ |- _ =>
             is_var x;
             lazymatch type of x with option _ => fail | _ => subst x end
         | H : Join _ = Join _ |- _ => injection H as ?
         | H : Spawn _ _ = Spawn _ _ |- _ => injection H as ? ?
         | H : Send _ _ = Send _ _ |- _ => injection H as ? ?
         | H : Thread _ = Thread _ |- _ => injection H as ?
         | H : EvalWorker _ _ = EvalWorker _ _ |- _ => injection H as ? ?
         | H : PollWorker _ = PollWorker _ |- _ => injection H as ?
         | H : Thread _ = Caller |- _ => discriminate H
         | H : Caller = Thread _ |- _ => discriminate H
         | H : PollWorker _ = EvalWorker _ _ |- _ => discriminate H
         | H : EvalWorker _ _ = PollWorker _ |- _ => discriminate H
         end.

Ltac snoc H :=
  apply lookup_snoc in H as [H | [? H]];
  [| first [discriminate H | injection H as ? ?; subst_rhs ]].

Ltac absurd_event Hadm :=
  cbn in Hadm;
  repeat match type of Hadm with
         | match ?a with Caller => _ | Thread _ => _ end => destruct a
         end;
  contradiction.

Lemma poll_last_snoc (tr : list Event) e p :
  (forall t w, action e <> Spawn t w) ->
  (exists i a at_,
     tr !! i = Some {| actor := a; action := Spawn p (PollWorker at_) |} /\
     forall i' a' t' w', (i < i')%nat ->
       tr !! i' <> Some {| actor := a'; action := Spawn t' w' |}) ->
  exists i a at_,
    (tr ++ [e]) !! i = Some {| actor := a; action := Spawn p (PollWorker at_) |} /\
    forall i' a' t' w', (i < i')%nat ->
      (tr ++ [e]) !! i' <> Some {| actor := a'; action := Spawn t' w' |}.
Proof.
  intros Hne (i & a & at_ & Hi & Hlast).
  exists i, a, at_. split; [apply lookup_snoc_old; exact Hi|].
  intros i' a' t' w' Hlt Hi'.
  apply lookup_snoc in Hi' as [Hi'|[_ Hi']].
  - exact (Hlast i' a' t' w' Hlt Hi').
  - subst e. exact (Hne t' w' eq_refl).
Qed.

Lemma writes_snoc_old (tr : list Event) e j t k text :
  last_thread_writes tr ->
  tr !! j = Some {| actor := Thread t; action := Send k text |} ->
  exists i a at_, (i < j)%nat /\
    (tr ++ [e]) !! i = Some {| actor := a; action := Spawn t (PollWorker at_) |} /\
    forall i' a' t' w', (i < i' < j)%nat ->
      (tr ++ [e]) !! i' <> Some {| actor := a'; action := Spawn t' w' |}.
Proof.
  intros Hw Hj. destruct (Hw j t k text Hj) as (i & a & at_ & Hij & Hi & Hno).
  exists i, a, at_. split; [exact Hij|]. split; [apply lookup_snoc_old; exact Hi|].
  intros i' a' t' w' Hlt Hi'.
  apply lookup_snoc in Hi' as [Hi'|[Hlen _]].
  - exact (Hno i' a' t' w' Hlt Hi').
  - apply lookup_lt_Some in Hj. lia.
Qed.

Lemma writes_snoc (tr : list Event) e :
  last_thread_writes tr ->
  (forall t k text, e <> {| actor := Thread t; action := Send k text |}) ->
  last_thread_writes (tr ++ [e]).
Proof.
  intros Hw Hne j t k text Hj.
  apply lookup_snoc in Hj as [Hj|[_ Hj]].
  - eapply writes_snoc_old; eassumption.
  - subst e. destruct (Hne t k text eq_refl).
Qed.

Lemma writes_send (tr : list Event) t k text :
  last_thread_writes tr ->
  (exists i a at_,
     tr !! i = Some {| actor := a; action := Spawn t (PollWorker at_) |} /\
     forall i' a' t' w', (i < i')%nat ->
       tr !! i' <> Some {| actor := a'; action := Spawn t' w' |}) ->
  last_thread_writes (tr ++ [{| actor := Thread t; action := Send k text |}]).
Proof.
  intros Hw (i & a & at_ & Hi & Hlast) j t0 k0 text0 Hj.
  apply lookup_snoc in Hj as [Hj|[-> Hj]].
  - eapply writes_snoc_old; eassumption.
  - injection Hj as -> -> ->.
    exists i, a, at_. split; [apply lookup_lt_Some in Hi; exact Hi|].
    split; [apply lookup_snoc_old; exact Hi|].
    intros i' a' t' w' [Hlt Hlt'] Hi'.
    apply lookup_snoc in Hi' as [Hi'|[Hlen _]]; [|lia].
    exact (Hlast i' a' t' w' Hlt Hi').
Qed.

Lemma TInv_event ths eh ph tr e :
  TInv ths eh ph tr -> admissible eh ph e -> TInv ths eh ph (tr ++ [e]).
Proof.
  intros [Het Hpt Hrun Hjoin Hact Hsp Hjk Hja Hsend Hlat S1 S2 S3 S4 Hpl Hwr Hcf] Hadm.
  destruct e as [who act]. unfold admissible in Hadm. cbn [actor action] in Hadm.
  split; try assumption.
  - intros t Hlt He Hp. destruct (Hjoin t Hlt He Hp) as (j & a & Hj).
    exists j, a. apply lookup_snoc_old. exact Hj.
  - intros j t act' Hj. snoc Hj; [eauto|].
    assert (Hh : eh = Some t \/ ph = Some t).
    { destruct act'; try contradiction; auto. }
    destruct Hh as [Hh|Hh].
    + destruct (Het _ Hh) as (? & ? & Hl). apply lookup_lt_Some in Hl. exact Hl.
    + destruct (Hpt _ Hh) as (? & Hl). apply lookup_lt_Some in Hl. exact Hl.
  - intros j a t w Hj. snoc Hj; [eauto|]. absurd_event Hadm.
  - intros j a t Hj. snoc Hj; [eauto|]. absurd_event Hadm.
  - intros i j a a' t w Hi Hj. snoc Hi; [|absurd_event Hadm].
    snoc Hj; [eauto|]. absurd_event Hadm.
  - intros p Hp j t k text Hj. snoc Hj; [eauto|].
    cbn in Hadm. rewrite Hadm in Hp. injection Hp as ->. lia.
  - intros t' Hh j a t input done Hj. snoc Hj; [eauto|]. absurd_event Hadm.
  - intros i a t input done Hi t' Hlt. snoc Hi; [|absurd_event Hadm].
    destruct (S1 i a t input done Hi t' Hlt) as (j & a' & Hji & Hj).
    exists j, a'. split; [exact Hji|]. apply lookup_snoc_old. exact Hj.
  - intros i a t input done Hi j t' act' Hij Hj.
    snoc Hi; [|absurd_event Hadm].
    snoc Hj; [eauto|].
    apply (Hlat t') in Hi; [exact Hi|].
    destruct act'; try contradiction; auto.
  - intros i j t1 t2 k1 k2 x1 x2 Hij Hi Hj.
    snoc Hj.
    + snoc Hi; [eauto|]. apply lookup_lt_Some in Hj. lia.
    + snoc Hi; [|lia]. cbn in Hadm. eapply Hsend; eauto.
  - intros i a t at_ i' a' t' at' Hi Hi' Hlt.
    snoc Hi; [|absurd_event Hadm].
    snoc Hi'; [|absurd_event Hadm].
    destruct (S4 _ _ _ _ _ _ _ _ Hi Hi' Hlt) as (j & a'' & Hj1 & Hj).
    exists j, a''. split; [exact Hj1|]. apply lookup_snoc_old. exact Hj.
  - intros p Hp. apply poll_last_snoc; [|exact (Hpl p Hp)].
    cbn [action]. intros t w ->. absurd_event Hadm.
  - destruct who as [|t].
    + apply writes_snoc; [exact Hwr|]. discriminate.
    + destruct act as [c|k text|k|k this|t' w|t'];
        try (apply writes_snoc; [exact Hwr|discriminate]).
      cbn in Hadm. apply writes_send; [exact Hwr|]. exact (Hpl t Hadm).
  - intros j k a t w act' Hj Hk. snoc Hj; [|absurd_event Hadm].
    snoc Hk; [eauto|]. apply lookup_lt_Some in Hj. exact Hj.
Qed.

Lemma TInv_events ths eh ph tr evs :
  TInv ths eh ph tr -> Forall (admissible eh ph) evs -> TInv ths eh ph (tr ++ evs).
Proof.
  revert tr. induction evs as [|e evs IH]; intros tr Hinv Hall.
  - rewrite app_nil_r. exact Hinv.
  - inversion Hall as [|? ? He Hrest]; subst.
    change (e :: evs) with ([e] ++ evs). rewrite app_assoc.
    apply IH; [|exact Hrest]. apply TInv_event; assumption.
Qed.

Lemma TInv_join_eval ths t ph tr w :
  TInv ths (Some t) ph tr -> ths !! t = Some w -> finished w = true ->
  TInv ths None ph (tr ++ [{| actor := Caller; action := Join t |}]).
Proof.
  intros [Het Hpt Hrun Hjoin Hact Hsp Hjk Hja Hsend Hlat S1 S2 S3 S4 Hpl Hwr Hcf] Hw Hfin.
  split.
  - discriminate.
  - exact Hpt.
  - intros t' w' Hw' Hf'. destruct (Hrun t' w' Hw' Hf') as [Hh|Hh]; [|auto].
    injection Hh as ->. congruence.
  - intros t' Hlt _ Hp. destruct (decide (t' = t)) as [->|Hne].
    + exists (length tr), Caller. apply list_lookup_middle. reflexivity.
    + destruct (Hjoin t' Hlt) as (j & a & Hj); [congruence|exact Hp|].
      exists j, a. apply lookup_snoc_old. exact Hj.
  - intros j t' act Hj. snoc Hj; eauto.
  - intros j a t' w' Hj. snoc Hj; eauto.
  - intros j a t' Hj. snoc Hj; [eauto|]. apply lookup_lt_Some in Hw. exact Hw.
  - intros i j a a' t' w' Hi Hj. snoc Hi. snoc Hj; [eauto|].
    apply lookup_lt_Some in Hi. lia.
  - intros p Hp j t' k text Hj. snoc Hj; eauto.
  - intros t' [Hh|Hh] j a t0 input done Hj; [discriminate|]. snoc Hj; eauto.
  - intros i a t0 input done Hi t' Hlt. snoc Hi.
    destruct (S1 i a t0 input done Hi t' Hlt) as (j & a' & Hji & Hj).
    exists j, a'. split; [exact Hji|]. apply lookup_snoc_old. exact Hj.
  - intros i a t0 input done Hi j t' act' Hij Hj. snoc Hi. snoc Hj; eauto.
  - intros i j t1 t2 k1 k2 x1 x2 Hij Hi Hj. snoc Hj. snoc Hi; eauto.
  - intros i a t0 at_ i' a' t' at' Hi Hi' Hlt. snoc Hi. snoc Hi'.
    destruct (S4 _ _ _ _ _ _ _ _ Hi Hi' Hlt) as (j & a'' & Hj1 & Hj).
    exists j, a''. split; [exact Hj1|]. apply lookup_snoc_old. exact Hj.
  - intros p Hp. apply poll_last_snoc; [discriminate|exact (Hpl p Hp)].
  - apply writes_snoc; [exact Hwr|discriminate].
  - intros j k a t' w' act Hj Hk. snoc Hj. snoc Hk. eauto.
Qed.

Lemma TInv_join_poll ths eh t tr w :
  TInv ths eh (Some t) tr -> ths !! t = Some w -> finished w = true ->
  TInv ths eh None (tr ++ [{| actor := Caller; action := Join t |}]).
Proof.
  intros [Het Hpt Hrun Hjoin Hact Hsp Hjk Hja Hsend Hlat S1 S2 S3 S4 Hpl Hwr Hcf] Hw Hfin.
  split.
  - exact Het.
  - discriminate.
  - intros t' w' Hw' Hf'. destruct (Hrun t' w' Hw' Hf') as [Hh|Hh]; [auto|].
    injection Hh as ->. congruence.
  - intros t' Hlt He _. destruct (decide (t' = t)) as [->|Hne].
    + exists (length tr), Caller. apply list_lookup_middle. reflexivity.
    + destruct (Hjoin t' Hlt) as (j & a & Hj); [exact He|congruence|].
      exists j, a. apply lookup_snoc_old. exact Hj.
  - intros j t' act Hj. snoc Hj; eauto.
  - intros j a t' w' Hj. snoc Hj; eauto.
  - intros j a t' Hj. snoc Hj; [eauto|]. apply lookup_lt_Some in Hw. exact Hw.
  - intros i j a a' t' w' Hi Hj. snoc Hi. snoc Hj; [eauto|].
    apply lookup_lt_Some in Hi. lia.
  - discriminate.
  - intros t' [Hh|Hh] j a t0 input done Hj; [|discriminate]. snoc Hj; eauto.
  - intros i a t0 input done Hi t' Hlt. snoc Hi.
    destruct (S1 i a t0 input done Hi t' Hlt) as (j & a' & Hji & Hj).
    exists j, a'. split; [exact Hji|]. apply lookup_snoc_old. exact Hj.
  - intros i a t0 input done Hi j t' act' Hij Hj. snoc Hi. snoc Hj; eauto.
  - intros i j t1 t2 k1 k2 x1 x2 Hij Hi Hj. snoc Hj. snoc Hi; eauto.
  - intros i a t0 at_ i' a' t' at' Hi Hi' Hlt. snoc Hi. snoc Hi'.
    destruct (S4 _ _ _ _ _ _ _ _ Hi Hi' Hlt) as (j & a'' & Hj1 & Hj).
    exists j, a''. split; [exact Hj1|]. apply lookup_snoc_old. exact Hj.
  - discriminate.
  - apply writes_snoc; [exact Hwr|discriminate].
  - intros j k a t' w' act Hj Hk. snoc Hj. snoc Hk. eauto.
Qed.

Lemma TInv_spawn_eval ths tr input :
  TInv ths None None tr ->
  TInv (ths ++ [EvalWorker input false]) (Some (length ths)) None
    (tr ++ [{| actor := Caller;
               action := Spawn (length ths) (EvalWorker input false) |}]).
Proof.
  intros [Het Hpt Hrun Hjoin Hact Hsp Hjk Hja Hsend Hlat S1 S2 S3 S4 Hpl Hwr Hcf].
  split.
  - intros t Ht. injection Ht as <-. do 2 eexists. apply list_lookup_middle. reflexivity.
  - discriminate.
  - intros t w Hw Hf. apply lookup_snoc in Hw as [Hw | [-> _]]; [|auto].
    destruct (Hrun t w Hw Hf); discriminate.
  - intros t Hlt He _. rewrite length_app in Hlt. cbn in Hlt.
    assert (Hlt' : (t < length ths)%nat) by (assert (t <> length ths) by congruence; lia).
    destruct (Hjoin t Hlt') as (j & a & Hj); [discriminate|discriminate|].
    exists j, a. apply lookup_snoc_old. exact Hj.
  - intros j t act Hj. rewrite length_app. snoc Hj. apply Hact in Hj. lia.
  - intros j a t w Hj. snoc Hj.
    + destruct (Hsp _ _ _ _ Hj) as (w' & Hw' & Hk). exists w'. split; [|exact Hk].
      apply lookup_snoc_old. exact Hw'.
    + eexists. split; [apply list_lookup_middle; reflexivity|reflexivity].
  - intros j a t Hj. rewrite length_app. snoc Hj. apply Hjk in Hj. lia.
  - intros i j a a' t w Hi Hj. snoc Hj. snoc Hi; [eauto|].
    apply Hjk in Hj. lia.
  - discriminate.
  - intros t' [Hh|Hh] j a t input' done Hj; [|discriminate]. injection Hh as <-.
    snoc Hj; [|lia]. destruct (Hsp _ _ _ _ Hj) as (w' & Hw' & _).
    apply lookup_lt_Some in Hw'. lia.
  - intros i a t input' done Hi t' Hlt. snoc Hi.
    + destruct (S1 i a t input' done Hi t' Hlt) as (j & a' & Hji & Hj).
      exists j, a'. split; [exact Hji|]. apply lookup_snoc_old. exact Hj.
    + destruct (Hjoin t' Hlt) as (j & a' & Hj); [discriminate|discriminate|].
      exists j, a'. split; [apply lookup_lt_Some in Hj; lia|].
      apply lookup_snoc_old. exact Hj.
  - intros i a t input' done Hi j t' act' Hij Hj. snoc Hj.
    snoc Hi; [eauto|]. apply lookup_lt_Some in Hj. lia.
  - intros i j t1 t2 k1 k2 x1 x2 Hij Hi Hj. snoc Hj. snoc Hi; eauto.
  - intros i a t at_ i' a' t' at' Hi Hi' Hlt. snoc Hi. snoc Hi'.
    destruct (S4 _ _ _ _ _ _ _ _ Hi Hi' Hlt) as (j & a'' & Hj1 & Hj).
    exists j, a''. split; [exact Hj1|]. apply lookup_snoc_old. exact Hj.
  - discriminate.
  - apply writes_snoc; [exact Hwr|discriminate].
  - intros j k a t w act Hj Hk. snoc Hk. snoc Hj; [eauto|].
    apply Hact in Hk. lia.
Qed.

Lemma TInv_spawn_poll ths eh tr :
  TInv ths eh None tr ->
  TInv (ths ++ [PollWorker Polling]) eh (Some (length ths))
    (tr ++ [{| actor := Caller;
               action := Spawn (length ths) (PollWorker Polling) |}]).
Proof.
  intros [Het Hpt Hrun Hjoin Hact Hsp Hjk Hja Hsend Hlat S1 S2 S3 S4 Hpl Hwr Hcf].
  split.
  - intros t Ht. destruct (Het t Ht) as (input & done & Hw).
    exists input, done. apply lookup_snoc_old. exact Hw.
  - intros t Ht. injection Ht as <-. eexists. apply list_lookup_middle. reflexivity.
  - intros t w Hw Hf. apply lookup_snoc in Hw as [Hw | [-> _]]; [|auto].
    destruct (Hrun t w Hw Hf); [auto|discriminate].
  - intros t Hlt He Hp. rewrite length_app in Hlt. cbn in Hlt.
    assert (Hlt' : (t < length ths)%nat) by (assert (t <> length ths) by congruence; lia).
    destruct (Hjoin t Hlt') as (j & a & Hj); [exact He|discriminate|].
    exists j, a. apply lookup_snoc_old. exact Hj.
  - intros j t act Hj. rewrite length_app. snoc Hj. apply Hact in Hj. lia.
  - intros j a t w Hj. snoc Hj.
    + destruct (Hsp _ _ _ _ Hj) as (w' & Hw' & Hk). exists w'. split; [|exact Hk].
      apply lookup_snoc_old. exact Hw'.
    + eexists. split; [apply list_lookup_middle; reflexivity|reflexivity].
  - intros j a t Hj. rewrite length_app. snoc Hj. apply Hjk in Hj. lia.
  - intros i j a a' t w Hi Hj. snoc Hj. snoc Hi; [eauto|].
    apply Hjk in Hj. lia.
  - intros p Hp j t k text Hj. injection Hp as <-. snoc Hj.
    apply Hact in Hj. lia.
  - intros t' Hh j a t input' done Hj. snoc Hj.
    destruct Hh as [Hh|Hh]; [eapply Hlat; eauto|].
    injection Hh as <-. destruct (Hsp _ _ _ _ Hj) as (w' & Hw' & _).
    apply lookup_lt_Some in Hw'. lia.
  - intros i a t input' done Hi t' Hlt. snoc Hi.
    destruct (S1 i a t input' done Hi t' Hlt) as (j & a' & Hji & Hj).
    exists j, a'. split; [exact Hji|]. apply lookup_snoc_old. exact Hj.
  - intros i a t input' done Hi j t' act' Hij Hj. snoc Hj. snoc Hi; eauto.
  - intros i j t1 t2 k1 k2 x1 x2 Hij Hi Hj. snoc Hj. snoc Hi; eauto.
  - intros i a t at_ i' a' t' at' Hi Hi' Hlt. snoc Hi'; [|apply lookup_lt_Some in Hi; rewrite length_app in Hi; cbn in Hi; lia].
    snoc Hi.
    + destruct (S4 _ _ _ _ _ _ _ _ Hi Hi' Hlt) as (j & a'' & Hj1 & Hj).
      exists j, a''. split; [exact Hj1|]. apply lookup_snoc_old. exact Hj.
    + destruct (Hsp _ _ _ _ Hi') as (w' & Hw' & Hk).
      assert (Hlt' : (t' < length ths)%nat) by (apply lookup_lt_Some in Hw'; exact Hw').
      destruct (Hjoin t' Hlt') as (j & a'' & Hj); [|discriminate|].
      * intros He. destruct (Het _ He) as (input & done & Hw).
        rewrite Hw in Hw'. injection Hw' as <-. discriminate.
      * exists j, a''. split.
        -- split; [eapply Hja; eauto|apply lookup_lt_Some in Hj; lia].
        -- apply lookup_snoc_old. exact Hj.
  - intros p [= <-]. exists (length tr), Caller, Polling.
    split; [apply list_lookup_middle; reflexivity|].
    intros i' a' t' w' Hlt Hi'. apply lookup_lt_Some in Hi'.
    rewrite length_app in Hi'. cbn in Hi'. lia.
  - apply writes_snoc; [exact Hwr|discriminate].
  - intros j k a t w act Hj Hk. snoc Hk. snoc Hj; [eauto|].
    apply Hact in Hk. lia.
Qed.

Lemma TInv_set_worker ths eh ph tr t w w' :
  TInv ths eh ph tr -> ths !! t = Some w -> finished w = false ->
  is_eval_worker w' = is_eval_worker w ->
  TInv (<[t := w']> ths) eh ph tr.
Proof.
  intros [Het Hpt Hrun Hjoin Hact Hsp Hjk Hja Hsend Hlat S1 S2 S3 S4 Hpl Hwr Hcf] Hw Hfin Hkind.
  assert (Hlt : (t < length ths)%nat) by (apply lookup_lt_Some in Hw; exact Hw).
  split; try assumption; try (rewrite length_insert; assumption).
  - intros t0 Ht0. destruct (Het t0 Ht0) as (input & done & Hw0).
    destruct (decide (t0 = t)) as [->|Hne].
    + rewrite list_lookup_insert_eq by exact Hlt.
      rewrite Hw in Hw0. injection Hw0 as ->.
      destruct w'; [eauto|discriminate].
    + rewrite list_lookup_insert_ne by congruence. eauto.
  - intros t0 Ht0. destruct (Hpt t0 Ht0) as (at_ & Hw0).
    destruct (decide (t0 = t)) as [->|Hne].
    + rewrite list_lookup_insert_eq by exact Hlt.
      rewrite Hw in Hw0. injection Hw0 as ->.
      destruct w'; [discriminate|eauto].
    + rewrite list_lookup_insert_ne by congruence. eauto.
  - intros t0 w0 Hw0 Hf0. destruct (decide (t0 = t)) as [->|Hne].
    + eapply Hrun; eauto.
    + rewrite list_lookup_insert_ne in Hw0 by congruence. eapply Hrun; eauto.
  - intros j a t0 w0 Hj. destruct (Hsp _ _ _ _ Hj) as (w1 & Hw1 & Hk).
    destruct (decide (t0 = t)) as [->|Hne].
    + exists w'. rewrite list_lookup_insert_eq by exact Hlt. split; [reflexivity|].
      rewrite Hw in Hw1. injection Hw1 as <-. congruence.
    + exists w1. rewrite list_lookup_insert_ne by congruence. auto.
Qed.


Lemma TInv_start : TInv [] None None [].
Proof.
  split;
    unfold spawns_after_joins, earlier_workers_silent, relays_in_order,
      pollers_after_joins, last_thread_writes, acts_after_creation;
    intros;
    match goal with
    | H : [] !! _ = Some _ |- _ => discriminate H
    | H : None = Some _ |- _ => discriminate H
    | H : (_ < length [])%nat |- _ => cbn in H; lia
    end.
Qed.


Section Quiet.
Context {E : Type} `{GenericEval E}.


Lemma qstep_refl ok (s : GenericShell E) : qstep ok s s.
Proof.
  repeat split. exists []. split; [|reflexivity]. cbn. rewrite app_nil_r. reflexivity.
Qed.

Lemma qstep_trans ok (s1 s2 s3 : GenericShell E) :
  qstep ok s1 s2 -> qstep ok s2 s3 -> qstep ok s1 s3.
Proof.
  intros (Ht & He & Hp & Hs & acts & Htr & Hok) (Ht' & He' & Hp' & Hs' & acts' & Htr' & Hok').
  repeat split; try congruence.
  exists (acts ++ acts'). split.
  - rewrite Htr', Htr, Hs. unfold by_. rewrite map_app, app_assoc. reflexivity.
  - rewrite forallb_app, Hok, Hok'. reflexivity.
Qed.

Lemma quiet_ret {A} ok (a : A) : quiet (E:=E) ok (ret a).
Proof. intros s. apply qstep_refl. Qed.

Lemma quiet_bind {A B} ok (m : M E A) (f : A -> M E B) :
  quiet ok m -> (forall a, quiet ok (f a)) -> quiet ok (bind m f).
Proof.
  intros Hm Hf s. unfold bind. specialize (Hm s).
  destruct (m s) as [a s'| | |]; try exact I; [|contradiction].
  specialize (Hf a s'). destruct (f a s'); try exact I; [|contradiction].
  eapply qstep_trans; eassumption.
Qed.

Lemma quiet_gets {A} ok (f : GenericShell E -> A) : quiet ok (gets f).
Proof. intros s. apply qstep_refl. Qed.

Lemma quiet_modify ok (f : GenericShell E -> GenericShell E) :
  benign f -> quiet ok (modify f).
Proof.
  intros Hf s. destruct (Hf s) as (? & ? & ? & ? & Htr).
  repeat split; try assumption.
  exists []. cbn. rewrite app_nil_r. auto.
Qed.

Lemma quiet_log ok a : ok a = true -> quiet (E:=E) ok (log a).
Proof.
  intros Hok s. unfold log, modify. repeat split.
  exists [a]. split; [reflexivity|]. cbn. rewrite Hok. reflexivity.
Qed.

Lemma quiet_fault {A} ok : quiet ok (@null_dereference E A).
Proof. intros s. exact I. Qed.

Lemma quiet_weaken {A} (m : M E A) : quiet is_invoke m -> quiet is_plain m.
Proof.
  intros Hm s. specialize (Hm s). destruct (m s); try assumption.
  destruct Hm as (? & ? & ? & ? & acts & Htr & Hok).
  repeat split; try assumption. exists acts. split; [assumption|].
  rewrite forallb_forall in *. intros act Ha. specialize (Hok act Ha).
  destruct act; try discriminate; reflexivity.
Qed.

End Quiet.

Ltac benign_tac := intros ?; repeat split; reflexivity.

Ltac quiet_tac :=
  repeat first
    [ apply quiet_ret
    | apply quiet_gets
    | apply quiet_fault
    | apply quiet_log; reflexivity
    | apply quiet_modify; benign_tac
    | apply quiet_bind; [|intros ?]
    | match goal with
      | |- quiet _ (if ?b then _ else _) => destruct b
      | |- quiet _ (match ?o with Some _ => _ | None => _ end) => destruct o
      end ].

Section QuietCode.
Context {E : Type} `{GenericEval E}.

Lemma quiet_begin_eval : quiet (E:=E) is_invoke evaluator_begin_eval.
Proof. unfold evaluator_begin_eval. quiet_tac. Qed.
Lemma quiet_eval_expr input : quiet (E:=E) is_invoke (evaluator_eval_expr input).
Proof. unfold evaluator_eval_expr. quiet_tac. Qed.
Lemma quiet_poll_result : quiet (E:=E) is_invoke evaluator_poll_result.
Proof. unfold evaluator_poll_result. quiet_tac. Qed.
Lemma quiet_interrupt : quiet (E:=E) is_invoke evaluator_interrupt.
Proof. unfold evaluator_interrupt. quiet_tac. Qed.
Lemma quiet_clear_pending : quiet (E:=E) is_invoke evaluator_clear_pending.
Proof. unfold evaluator_clear_pending. quiet_tac. Qed.
Lemma quiet_input_pending : quiet (E:=E) is_invoke evaluator_input_pending.
Proof. unfold evaluator_input_pending. quiet_tac. Qed.
Lemma quiet_eval_error : quiet (E:=E) is_invoke evaluator_eval_error.
Proof. unfold evaluator_eval_error. quiet_tac. Qed.

Lemma quiet_put_output text : quiet (E:=E) is_invoke (put_output text).
Proof. unfold put_output. quiet_tac. Qed.

Lemma quiet_get_prompt : quiet (E:=E) is_invoke get_prompt.
Proof. unfold get_prompt. quiet_tac. Qed.

Lemma quiet_poll_output : quiet (E:=E) is_invoke poll_output.
Proof. unfold poll_output. quiet_tac. Qed.

Lemma quiet_Send text : quiet (E:=E) is_plain (socket_Send text).
Proof. unfold socket_Send, on_socket. quiet_tac. Qed.
Lemma quiet_sendPrompt : quiet (E:=E) is_plain socket_sendPrompt.
Proof. unfold socket_sendPrompt, on_socket. quiet_tac. Qed.
Lemma quiet_SetShell this : quiet (E:=E) is_plain (socket_SetShell this).
Proof. unfold socket_SetShell, on_socket. quiet_tac. Qed.

Lemma quiet_telnet_abort : quiet (E:=E) is_invoke telnet_abort.
Proof. unfold telnet_abort. quiet_tac. Qed.

Lemma quiet_telnet_erase : quiet (E:=E) is_invoke telnet_erase.
Proof. unfold telnet_erase. quiet_tac. Qed.

Lemma quiet_perform op held : quiet (E:=E) is_plain (perform op held).
Proof.
  destruct op; cbn [perform];
    first [ apply quiet_weaken; first [apply quiet_get_prompt|apply quiet_poll_output]
          | apply quiet_bind; [|intros ?; apply quiet_ret] ].
  - apply quiet_weaken, quiet_interrupt.
  - apply quiet_weaken, quiet_clear_pending.
  - quiet_tac.
  - apply quiet_weaken, quiet_put_output.
  - apply quiet_weaken, quiet_put_output.
  - quiet_tac.
  - apply quiet_Send.
  - apply quiet_sendPrompt.
  - apply quiet_SetShell.
Qed.

Lemma quiet_receive expr : quiet (E:=E) is_plain (receive expr).
Proof.
  unfold receive.
  apply quiet_bind; [quiet_tac|intros ?].
  destruct (0 =? _); [apply quiet_ret|]. cbn zeta.
  destruct (iac_scan _ _ _) as [[]|]; try apply quiet_ret.
  destruct (_ || _); [apply quiet_ret|].
  apply quiet_bind; [apply quiet_weaken, quiet_input_pending|intros pending].
  destruct (_ && _); quiet_tac.
Qed.

Lemma quiet_iac_loop expr m (n : nat) i :
  i = m + Z.of_nat n - 1 -> quiet (E:=E) is_invoke (iac_loop expr m i).
Proof.
  revert i. induction n as [|n IH]; intros i ->; rewrite iac_loop_eq.
  - destruct (Z_le_dec _ _); [lia|quiet_tac].
  - destruct (Z_le_dec _ _); [|quiet_tac].
    destruct (escape_at expr _) as [[]|].
    + apply quiet_telnet_abort.
    + apply quiet_telnet_erase.
    + apply IH. lia.
Qed.

Lemma quiet_iac_loop_any expr m i : quiet (E:=E) is_invoke (iac_loop expr m i).
Proof.
  destruct (Z_le_dec m i) as [Hle|Hgt].
  - apply (quiet_iac_loop expr m (Z.to_nat (i - m + 1))). lia.
  - rewrite iac_loop_eq. destruct (Z_le_dec m i); [lia|quiet_tac].
Qed.

End QuietCode.

Section Triples.
Context {E : Type} `{GenericEval E}.


Lemma SInv_qstep ok (s s' : GenericShell E) :
  SInv s -> qstep ok s s' ->
  (forall a, ok a = true ->
     admissible (evalthr s) (pollthr s) {| actor := self s; action := a |}) ->
  SInv s'.
Proof.
  intros Hinv (Ht & He & Hp & Hs & acts & Htr & Hok) Hadm.
  unfold SInv. rewrite Ht, He, Hp, Htr.
  apply TInv_events; [exact Hinv|].
  unfold by_. apply Forall_map. apply Forall_forall. intros a Ha.
  apply Hadm. rewrite forallb_forall in Hok. apply Hok. apply list_elem_of_In. exact Ha.
Qed.

Lemma caller_admissible eh ph a :
  is_plain a = true -> admissible eh ph {| actor := Caller; action := a |}.
Proof. destruct a; try discriminate; intros _; exact I. Qed.

Lemma poller_admissible eh t a :
  is_plain a = true -> admissible eh (Some t) {| actor := Thread t; action := a |}.
Proof. destruct a; try discriminate; intros _; cbn; auto. Qed.

Lemma evaluator_admissible ph t a :
  is_invoke a = true -> admissible (Some t) ph {| actor := Thread t; action := a |}.
Proof. destruct a; try discriminate; intros _; cbn; auto. Qed.

Lemma CInv_qstep (s s' : GenericShell E) :
  CInv s -> qstep is_plain s s' -> CInv s'.
Proof.
  intros [Hinv Hself] Hq. split.
  - eapply SInv_qstep; [exact Hinv|exact Hq|].
    intros a Ha. rewrite Hself. apply caller_admissible. exact Ha.
  - destruct Hq as (_ & _ & _ & Hs & _). congruence.
Qed.


Lemma triple_bind {A B} P (m : M E A) Q (f : A -> M E B) R :
  triple P m Q -> (forall a, triple (Q a) (f a) R) -> triple P (bind m f) R.
Proof.
  intros Hm Hf s HP. unfold bind. specialize (Hm s HP).
  destruct (m s) as [a s'| | |]; try exact I; [|exact Hm].
  apply (Hf a s' Hm).
Qed.

Lemma triple_weaken {A} (P P' : GenericShell E -> Prop) (m : M E A) (Q Q' : A -> GenericShell E -> Prop) :
  triple P' m Q' -> (forall s, P s -> P' s) -> (forall a s, Q' a s -> Q a s) ->
  triple P m Q.
Proof.
  intros Hm HP HQ s Hs. specialize (Hm s (HP s Hs)).
  destruct (m s); auto.
Qed.

Lemma triple_ret {A} (P : GenericShell E -> Prop) (a : A) :
  triple P (ret a) (fun _ => P).
Proof. intros s HP. exact HP. Qed.

Lemma triple_quiet {A} (m : M E A) (R : option nat -> option nat -> Prop) :
  quiet is_plain m ->
  triple (E:=E) (fun s => CInv s /\ R (evalthr s) (pollthr s)) m
         (fun _ s => CInv s /\ R (evalthr s) (pollthr s)).
Proof.
  intros Hm s [Hinv HR]. specialize (Hm s).
  destruct (m s) as [a s'| | |]; try exact I; [|contradiction].
  split; [eapply CInv_qstep; eassumption|].
  destruct Hm as (_ & -> & -> & _). exact HR.
Qed.

Lemma triple_quiet_inv {A} (m : M E A) :
  quiet is_plain m -> triple (E:=E) CInv m (fun _ => CInv).
Proof.
  intros Hm.
  eapply triple_weaken; [apply (triple_quiet m (fun _ _ => True) Hm)| |].
  - intros s Hs. split; [exact Hs|exact I].
  - intros a s [Hs _]. exact Hs.
Qed.

(** The two joins of [do_eval] and of the destructor. *)
Lemma triple_join_eval pc :
  triple (E:=E) CInv
    (h <- gets evalthr;;
     match h with
     | Some t => thread_join pc t;; modify (set_evalthr None)
     | None => ret tt
     end)
    (fun _ s => CInv s /\ evalthr s = None).
Proof.
  intros s [Hinv Hself]. unfold SInv in Hinv.
  open_shell s. subst me. unfold CInv, SInv.
  destruct eth as [t|]; shell_unfold; [|auto].
  destruct (ths !! t) as [w|] eqn:Hw; [|exact I].
  destruct (finished w) eqn:Hf; shell_unfold; [|auto].
  refine (conj (conj _ eq_refl) eq_refl). eapply TInv_join_eval; eassumption.
Qed.

Lemma triple_join_poll pc eh0 :
  triple (E:=E) (fun s => CInv s /\ evalthr s = eh0)
    (h <- gets pollthr;;
     match h with
     | Some t => thread_join pc t;; modify (set_pollthr None)
     | None => ret tt
     end)
    (fun _ s => CInv s /\ evalthr s = eh0 /\ pollthr s = None).
Proof.
  intros s [[Hinv Hself] Heh]. unfold SInv in Hinv.
  open_shell s. subst me eh0. unfold CInv, SInv.
  destruct pth as [t|]; shell_unfold; [|auto].
  destruct (ths !! t) as [w|] eqn:Hw; [|exact I].
  destruct (finished w) eqn:Hf; shell_unfold; [|auto].
  refine (conj (conj _ eq_refl) (conj eq_refl eq_refl)).
  eapply TInv_join_poll; eassumption.
Qed.

Lemma triple_do_eval input : triple (E:=E) CInv (do_eval input) (fun _ => CInv).
Proof.
  unfold do_eval.
  eapply triple_bind; [apply triple_join_eval|intros ?].
  eapply triple_bind; [apply triple_join_poll|intros ?].
  intros s [[Hinv Hself] [Heh Hph]]. unfold SInv in Hinv.
  open_shell s. subst me eth pth. unfold CInv, SInv.
  shell_unfold. split; [|reflexivity].
  apply TInv_spawn_eval. apply TInv_event; [exact Hinv|exact I].
Qed.

Lemma triple_dtor : triple (E:=E) CInv GenericShell_dtor (fun _ => CInv).
Proof.
  unfold GenericShell_dtor.
  eapply triple_bind; [apply triple_join_eval|intros ?].
  eapply triple_weaken; [apply (triple_join_poll InDtor None)| |]; cbn; tauto.
Qed.

Lemma triple_eval_relay : triple (E:=E) CInv eval_relay (fun _ => CInv).
Proof.
  unfold eval_relay.
  eapply triple_bind; [apply triple_quiet_inv; quiet_tac|intros needed].
  destruct needed; cbn [negb].
  - intros s [Hinv Hself]. unfold SInv in Hinv.
    open_shell s. subst me. unfold CInv, SInv.
    destruct pth as [t|]; shell_unfold.
    + destruct (ths !! t) as [w|] eqn:Hw; [|exact I].
      destruct (finished w) eqn:Hf; shell_unfold; [|auto].
      split; [|reflexivity].
      apply TInv_spawn_poll. eapply TInv_join_poll; eassumption.
    + split; [|reflexivity]. apply TInv_spawn_poll. exact Hinv.
  - apply triple_quiet_inv.
    apply quiet_bind; [apply quiet_weaken, quiet_poll_output|intros ?; apply quiet_Send].
Qed.

Lemma triple_eval_destruct : triple (E:=E) CInv eval_destruct (fun _ => CInv).
Proof.
  unfold eval_destruct.
  eapply triple_bind; [apply triple_quiet_inv; quiet_tac|intros sd].
  destruct sd; [|apply triple_ret].
  eapply triple_bind; [apply triple_quiet_inv, quiet_sendPrompt|intros ?].
  eapply triple_bind; [apply triple_quiet_inv, quiet_SetShell|intros ?].
  unfold delete_this.
  eapply triple_bind; [apply triple_dtor|intros ?].
  apply triple_quiet_inv. quiet_tac.
Qed.

Lemma triple_line_discipline expr :
  triple (E:=E) CInv (line_discipline expr) (fun _ => CInv).
Proof.
  unfold line_discipline.
  destruct (0 =? length_of expr); [apply triple_do_eval|].
  cbn zeta.
  eapply triple_bind;
    [apply triple_quiet_inv, quiet_weaken, quiet_iac_loop_any|intros returned].
  destruct returned; [apply triple_ret|].
  destruct (_ || _).
  - apply triple_quiet_inv, quiet_weaken.
    apply quiet_bind; [apply quiet_interrupt|intros ?].
    apply quiet_bind; [apply quiet_clear_pending|intros ?].
    quiet_tac.
  - eapply triple_bind;
      [apply triple_quiet_inv, quiet_weaken, quiet_input_pending|intros pending].
    destruct (_ && _); [|apply triple_do_eval].
    apply triple_quiet_inv. quiet_tac.
Qed.

Lemma triple_eval expr : triple (E:=E) CInv (eval expr) (fun _ => CInv).
Proof.
  unfold eval.
  eapply triple_bind; [apply triple_quiet_inv; quiet_tac|intros ?].
  eapply triple_bind; [apply triple_line_discipline|intros ?].
  eapply triple_bind; [apply triple_eval_relay|intros ?].
  apply triple_eval_destruct.
Qed.

Lemma triple_delete_this : triple (E:=E) CInv delete_this (fun _ => CInv).
Proof.
  unfold delete_this.
  eapply triple_bind; [apply triple_dtor|intros ?].
  apply triple_quiet_inv. quiet_tac.
Qed.

Lemma quiet_perform_all ops held : quiet (E:=E) is_plain (perform_all ops held).
Proof.
  revert held. induction ops as [|op rest IH]; intros held; cbn [perform_all].
  - apply quiet_ret.
  - apply quiet_bind; [apply quiet_perform|intros ?; apply IH].
Qed.

Lemma triple_resume pc : triple (E:=E) CInv (resume pc) (fun _ => CInv).
Proof.
  destruct pc as [input| | |ops held tail]; cbn [resume].
  - eapply triple_bind; [apply triple_do_eval|intros ?].
    eapply triple_bind; [apply triple_eval_relay|intros ?].
    apply triple_eval_destruct.
  - eapply triple_bind; [apply triple_eval_relay|intros ?].
    apply triple_eval_destruct.
  - apply triple_delete_this.
  - eapply triple_bind; [apply triple_quiet_inv, quiet_perform_all|intros ?].
    destruct tail; [apply triple_eval_destruct|apply triple_delete_this].
Qed.

End Triples.

Section Steps.
Context {E : Type} `{GenericEval E}.

Lemma as_caller_inv (m : M E unit) (s : GenericShell E) c :
  triple (E:=E) CInv m (fun _ => CInv) -> SInv s -> as_caller m s = Some c ->
  SInv (shell c).
Proof.
  intros Hm Hinv Hc. unfold as_caller in Hc.
  specialize (Hm (set_self Caller s)).
  destruct (m (set_self Caller s)) as [a s'|pc s'| |]; try discriminate.
  - injection Hc as <-. apply Hm. split; [exact Hinv|reflexivity].
  - injection Hc as <-. apply Hm. split; [exact Hinv|reflexivity].
Qed.

Lemma running_eval_worker (s : GenericShell E) t input :
  SInv s -> threads s !! t = Some (EvalWorker input false) -> evalthr s = Some t.
Proof.
  intros Hinv Hw.
  destruct (inv_running _ _ _ _ Hinv t _ Hw eq_refl) as [Hh|Hh]; [exact Hh|].
  destruct (inv_poll_typed _ _ _ _ Hinv t Hh) as (at_ & Hw'). congruence.
Qed.

Lemma running_poll_worker (s : GenericShell E) t at_ :
  SInv s -> threads s !! t = Some (PollWorker at_) -> at_ <> PollDone ->
  pollthr s = Some t.
Proof.
  intros Hinv Hw Hrun.
  destruct (inv_running _ _ _ _ Hinv t _ Hw) as [Hh|Hh]; [|idtac|exact Hh].
  - destruct at_; [reflexivity|reflexivity|congruence].
  - destruct (inv_eval_typed _ _ _ _ Hinv t Hh) as (input & done & Hw'). congruence.
Qed.

Lemma poller_turn_inv {A} (m : M E A) (s : GenericShell E) t at_ w' a s1 :
  SInv s -> threads s !! t = Some (PollWorker at_) -> at_ <> PollDone ->
  quiet is_plain m -> m (set_self (Thread t) s) = Ret a s1 ->
  is_eval_worker w' = false ->
  SInv (set_threads (<[t := w']> (threads s1)) s1).
Proof.
  intros Hinv Hw Hrun Hm Hs1 Hkind.
  pose proof (running_poll_worker s t at_ Hinv Hw Hrun) as Hp.
  specialize (Hm (set_self (Thread t) s)). rewrite Hs1 in Hm.
  assert (Hinv1 : SInv s1).
  { eapply SInv_qstep; [|exact Hm|].
    - exact Hinv.
    - intros act Hact. cbn [self set_self evalthr pollthr]. rewrite Hp.
      apply poller_admissible. exact Hact. }
  destruct Hm as (Hths & _ & _ & _).
  unfold SInv. cbn [threads evalthr pollthr trace set_threads].
  eapply TInv_set_worker; [exact Hinv1| | |].
  - rewrite Hths. exact Hw.
  - destruct at_; [reflexivity|reflexivity|congruence].
  - exact Hkind.
Qed.

Lemma as_worker_inv t (s s' : GenericShell E) :
  SInv s -> as_worker t s = Some s' -> SInv s'.
Proof.
  intros Hinv Hrun.
  destruct (threads s !! t) as [[input [|]|at_]|] eqn:Hw.
  - rewrite (as_worker_finished t _ s Hw eq_refl) in Hrun. discriminate.
  - rewrite (as_worker_eval t input s Hw) in Hrun. injection Hrun as <-.
    pose proof (running_eval_worker s t input Hinv Hw) as He.
    unfold SInv in *. cbn [threads evalthr pollthr trace set_threads set_evaluator
                            set_trace set_self by_ map].
    eapply TInv_set_worker; [|exact Hw|reflexivity|reflexivity].
    apply TInv_event; [exact Hinv|].
    rewrite He. apply evaluator_admissible. reflexivity.
  - unfold as_worker in Hrun. rewrite Hw in Hrun.
    destruct at_ as [|retstr|]; [| |discriminate].
    + cbn [poll_wrapper_turn] in Hrun. unfold bind in Hrun.
      destruct (poll_output (set_self (Thread t) s)) as [r s1| | |] eqn:Hs1;
        try discriminate.
      destruct (0 <? String.length r)%nat.
      * injection Hrun as <-.
        eapply (poller_turn_inv poll_output s t Polling); eauto; try discriminate.
        apply quiet_weaken, quiet_poll_output.
      * injection Hrun as <-.
        eapply (poller_turn_inv poll_output s t Polling); eauto; try discriminate.
        apply quiet_weaken, quiet_poll_output.
    + cbn [poll_wrapper_turn] in Hrun. unfold bind in Hrun.
      destruct (socket_Send retstr (set_self (Thread t) s)) as [r s1| | |] eqn:Hs1;
        try discriminate.
      injection Hrun as <-.
      eapply (poller_turn_inv (socket_Send retstr) s t (Sending retstr));
        eauto; try discriminate.
      apply quiet_Send.
  - unfold as_worker in Hrun. rewrite Hw in Hrun. discriminate.
Qed.

Lemma quiet_turn_inv {A} (m : M E A) (s s' : GenericShell E) a :
  quiet is_plain m -> SInv s -> m (set_self Caller s) = Ret a s' -> SInv s'.
Proof.
  intros Hm Hinv Hrun. specialize (Hm (set_self Caller s)). rewrite Hrun in Hm.
  eapply (CInv_qstep (set_self Caller s)); [|exact Hm].
  split; [exact Hinv|reflexivity].
Qed.

Lemma turn_receive_inv expr (c c' : Config) :
  SInv (shell c) -> turn_receive expr c = Some c' -> SInv (shell c').
Proof.
  intros Hinv Hstep. unfold turn_receive in Hstep.
  destruct (blocked c); [discriminate|].
  destruct (deleted (shell c)); [discriminate|].
  destruct (receive expr (set_self Caller (shell c))) as [[ops|input] s'| | |] eqn:Hrun;
    try discriminate; injection Hstep as <-;
    exact (quiet_turn_inv _ _ _ _ (quiet_receive expr) Hinv Hrun).
Qed.

Lemma turn_resume_inv (c c' : Config) :
  SInv (shell c) -> turn_resume c = Some c' -> SInv (shell c').
Proof.
  intros Hinv Hstep. unfold turn_resume in Hstep.
  destruct (blocked c) as [[input| | |[|op rest] held tail]|]; try discriminate.
  1-3: eapply as_caller_inv; [apply triple_resume|exact Hinv|exact Hstep].
  destruct (perform op held (set_self Caller (shell c))) as [held' s'| | |] eqn:Hrun;
    try discriminate.
  injection Hstep as <-.
  exact (quiet_turn_inv _ _ _ _ (quiet_perform op held) Hinv Hrun).
Qed.

Lemma unpreempted_inv n (c c' : Config) :
  SInv (shell c) -> unpreempted n c = Some c' -> SInv (shell c').
Proof.
  revert c. induction n as [|n IH]; intros c Hinv Hrun; cbn [unpreempted] in Hrun.
  - injection Hrun as <-. exact Hinv.
  - destruct (blocked c) as [[input| | |ops held tail]|] eqn:Hb.
    1-3: eapply turn_resume_inv; eassumption.
    + destruct (turn_resume c) as [c1|] eqn:Hc1; [|discriminate].
      eapply IH; [|exact Hrun]. eapply turn_resume_inv; eassumption.
    + injection Hrun as <-. exact Hinv.
Qed.

Lemma step_inv a (c c' : Config) :
  SInv (shell c) -> step a c = Some c' -> SInv (shell c').
Proof.
  intros Hinv Hstep. destruct a as [expr|expr| |t]; cbn [step] in Hstep.
  - destruct (turn_receive expr c) as [c1|] eqn:Hc1; [|discriminate].
    eapply unpreempted_inv; [|exact Hstep]. eapply turn_receive_inv; eassumption.
  - eapply turn_receive_inv; eassumption.
  - eapply turn_resume_inv; eassumption.
  - destruct (as_worker t (shell c)) as [s'|] eqn:Hw; [|discriminate].
    injection Hstep as <-. eapply as_worker_inv; eassumption.
Qed.

Lemma run_inv schedule (c c' : Config) :
  SInv (shell c) -> run schedule c = Some c' -> SInv (shell c').
Proof.
  revert c. induction schedule as [|a rest IH]; intros c Hinv Hrun; cbn [run] in Hrun.
  - injection Hrun as <-. exact Hinv.
  - destruct (step a c) as [c1|] eqn:Hstep; [|discriminate].
    eapply IH; [|exact Hrun]. eapply step_inv; eassumption.
Qed.

Lemma session_inv (ev : E) done0 needed0 hush_o hush_p k :
  SInv (shell (session ev done0 needed0 hush_o hush_p k)).
Proof.
  unfold SInv. cbn.
  apply (TInv_event [] None None []); [apply TInv_start|exact I].
Qed.

Lemma caller_in_place (tr : list Event) :
  earlier_workers_silent tr -> acts_after_creation tr -> caller_writes_in_place tr.
Proof.
  intros Hsilent Hborn c k text Hc. split.
  - intros i a t input done j t' act Hi Hic Hj Hlt.
    destruct (Nat.lt_ge_cases i j) as [Hij|Hji]; [|lia].
    pose proof (Hsilent i a t input done Hi j t' act Hij Hj). lia.
  - intros i a t w j act Hi Hci Hj.
    pose proof (Hborn i j a t w act Hi Hj). lia.
Qed.

(** C1, amended: in every run of a session, whatever the lines submitted
    and however the turns of the caller and of the threads are
    interleaved: an evaluation thread is created only after every thread
    created before it has been joined, and a polling thread only after
    every earlier polling thread has been joined; once an evaluation has
    been started no thread created before it does anything; of two texts
    written to the socket by polling threads the earlier is written by
    the thread of the earlier evaluation (or by the same thread); a
    thread writes to the socket only while it is the thread created
    last, which is the polling thread of the last evaluation started; a
    thread does nothing before it has been created; and a text that the
    thread calling [eval] writes itself comes after everything done by
    the threads of the evaluations before the last one started, and
    before everything done by the threads created later.  Its place
    among the texts of the polling thread of the last evaluation started
    is not determined. *)
Theorem C1_evaluations_are_serialized (ev : E) done0 needed0 hush_o hush_p k
    schedule (c : Config) :
  run schedule (session ev done0 needed0 hush_o hush_p k) = Some c ->
  spawns_after_joins (trace (shell c)) /\
  pollers_after_joins (trace (shell c)) /\
  earlier_workers_silent (trace (shell c)) /\
  relays_in_order (trace (shell c)) /\
  last_thread_writes (trace (shell c)) /\
  acts_after_creation (trace (shell c)) /\
  caller_writes_in_place (trace (shell c)).
Proof.
  intros Hrun.
  pose proof (run_inv schedule _ c (session_inv ev done0 needed0 hush_o hush_p k) Hrun)
    as Hinv.
  destruct Hinv.
  repeat (split; [assumption|]).
  apply caller_in_place; assumption.
Qed.

End Steps.

Section Unpreempted.
Context {E : Type} `{GenericEval E}.

Lemma set_self_same (s : GenericShell E) a : self s = a -> set_self a s = s.
Proof. intros <-. destruct s; reflexivity. Qed.

Lemma as_caller_ext (m m' : M E unit) (s : GenericShell E) :
  (forall s, m s = m' s) -> as_caller m s = as_caller m' s.
Proof. intros Heq. unfold as_caller. rewrite Heq. reflexivity. Qed.

Lemma quiet_self {A} ok (m : M E A) (s s' : GenericShell E) a :
  quiet ok m -> m s = Ret a s' -> self s' = self s.
Proof.
  intros Hm Hrun. specialize (Hm s). rewrite Hrun in Hm.
  destruct Hm as (_ & _ & _ & Hself & _). exact Hself.
Qed.

Lemma quiet_not_blocked {A} ok (m : M E A) (s s' : GenericShell E) pc :
  quiet ok m -> m s <> Blocked pc s'.
Proof. intros Hm Hrun. specialize (Hm s). rewrite Hrun in Hm. exact Hm. Qed.

(** The turns of a caller that is not preempted add up to what it has
    left to do. *)
Lemma unpreempted_ops tail extra :
  (forall n held (s : GenericShell E), (extra <= n)%nat -> self s = Caller ->
     unpreempted n {| shell := s; blocked := park [] held tail s |} =
     as_caller (finish tail) s) ->
  forall ops n held (s : GenericShell E),
    ops <> [] -> (length ops + extra <= n)%nat -> self s = Caller ->
    unpreempted n {| shell := s; blocked := Some (InCall ops held tail) |} =
    as_caller (resume (InCall ops held tail)) s.
Proof.
  intros Hend. induction ops as [|op rest IH]; intros n held s Hne Hn Hself;
    [congruence|].
  destruct n as [|n]; [cbn in Hn; lia|].
  cbn [unpreempted blocked turn_resume shell].
  unfold as_caller. cbn [resume perform_all]. unfold bind at 1 2.
  rewrite (set_self_same s Caller Hself).
  destruct (perform op held s) as [held' s1|pc s1| |] eqn:Hrun; try reflexivity.
  2:{ destruct (quiet_not_blocked _ _ _ _ _ (quiet_perform op held) Hrun). }
  pose proof (quiet_self _ _ _ _ _ (quiet_perform op held) Hrun) as Hself1.
  rewrite Hself in Hself1.
  destruct rest as [|op' rest'].
  - rewrite Hend by (cbn in Hn; lia || exact Hself1).
    unfold as_caller. rewrite (set_self_same s1 Caller Hself1). reflexivity.
  - change (park (op' :: rest') held' tail s1)
      with (Some (InCall (op' :: rest') held' tail)).
    rewrite IH by (discriminate || (cbn in *; lia) || exact Hself1).
    unfold as_caller. cbn [resume]. unfold bind at 1.
    rewrite (set_self_same s1 Caller Hself1). reflexivity.
Qed.

Lemma unpreempted_delete ops n held (s : GenericShell E) :
  ops <> [] -> (length ops + 1 <= n)%nat -> self s = Caller ->
  unpreempted n {| shell := s; blocked := Some (InCall ops held ThenDelete) |} =
  as_caller (resume (InCall ops held ThenDelete)) s.
Proof.
  apply unpreempted_ops.
  intros n' held' s' Hn _. destruct n' as [|n']; [lia|]. reflexivity.
Qed.

Lemma unpreempted_destruct ops n held (s : GenericShell E) :
  ops <> [] -> (length ops + 3 <= n)%nat -> self s = Caller ->
  unpreempted n {| shell := s; blocked := Some (InCall ops held ThenDestruct) |} =
  as_caller (resume (InCall ops held ThenDestruct)) s.
Proof.
  apply unpreempted_ops.
  intros n' held' s' Hn Hself. cbn [park finish].
  destruct (self_destruct s') eqn:Hsd.
  - rewrite unpreempted_delete by (discriminate || (cbn; lia) || exact Hself).
    unfold as_caller. rewrite (set_self_same s' Caller Hself).
    cbn [resume perform_all perform finish]. unfold eval_destruct.
    unfold bind, gets, ret. rewrite Hsd.
    destruct (socket_sendPrompt s') as [? s1| | |]; try reflexivity.
    destruct (socket_SetShell false s1) as [? s2| | |]; reflexivity.
  - unfold as_caller, eval_destruct, bind, gets, ret.
    rewrite (set_self_same s' Caller Hself), Hsd.
    destruct n'; reflexivity.
Qed.

(** A call that is not preempted is [eval], run to its return or to a
    [join] that blocks. *)
Lemma step_Submit expr (c : @Config E) :
  step (Submit expr) c =
  match blocked c with
  | None => if deleted (shell c) then None else as_caller (eval expr) (shell c)
  | Some _ => None
  end.
Proof.
  cbn [step]. unfold turn_receive.
  destruct (blocked c); [reflexivity|].
  destruct (deleted (shell c)); [reflexivity|].
  rewrite (as_caller_ext _ _ _ (eval_call expr)).
  unfold as_caller at 1, call. unfold bind at 1.
  destruct (receive expr (set_self Caller (shell c))) as [[ops|input] s1|pc s1| |] eqn:Hrun;
    try reflexivity.
  - pose proof (quiet_self _ _ _ _ _ (quiet_receive expr) Hrun) as Hself.
    cbn [self set_self] in Hself.
    assert (Hne : ops <> []).
    { clear -Hrun. unfold receive in Hrun. unfold bind at 1, modify in Hrun.
      destruct (0 =? _); [discriminate|]. cbn zeta in Hrun.
      destruct (iac_scan _ _ _) as [[]|]; try (injection Hrun as <- _; discriminate).
      destruct (_ || _); [injection Hrun as <- _; discriminate|].
      unfold bind at 1 in Hrun.
      destruct (evaluator_input_pending _) as [pending s2| | |]; try discriminate.
      destruct (_ && _); [|discriminate].
      unfold bind, modify, gets, ret in Hrun.
      destruct (show_prompt _); injection Hrun as <- _; discriminate. }
    destruct ops as [|op rest]; [congruence|].
    change (park (op :: rest) "" ThenDestruct s1)
      with (Some (InCall (op :: rest) ""%string ThenDestruct)).
    cbn [turns_left blocked].
    rewrite unpreempted_destruct by (assumption || lia).
    unfold as_caller. rewrite (set_self_same s1 Caller Hself). reflexivity.
  - pose proof (quiet_self _ _ _ _ _ (quiet_receive expr) Hrun) as Hself.
    cbn [self set_self] in Hself.
    cbn [turns_left blocked unpreempted turn_resume shell].
    unfold as_caller. rewrite (set_self_same s1 Caller Hself). reflexivity.
  - destruct (quiet_not_blocked _ _ _ _ _ (quiet_receive expr) Hrun).
Qed.

Lemma step_Submit_eval expr (c : @Config E) :
  match turn_receive expr c with
  | Some c' => unpreempted (turns_left c') c'
  | None => None
  end =
  match blocked c with
  | None => if deleted (shell c) then None else as_caller (eval expr) (shell c)
  | Some _ => None
  end.
Proof. exact (step_Submit expr c). Qed.

End Unpreempted.

(** * The conduct of a session *)

(** ** Lists *)

Lemma omap_all_none {A B} (f : A -> option B) (l : list A) :
  (forall i x, l !! i = Some x -> f x = None) -> omap f l = [].
Proof.
  induction l as [|x l IH]; intros Hall; [reflexivity|].
  cbn. rewrite (Hall 0%nat x eq_refl). apply IH.
  intros i y Hy. apply (Hall (S i) y Hy).
Qed.

Lemma omap_insert_same {A B} (f : A -> option B) (l : list A) t x y :
  l !! t = Some x -> f y = f x -> omap f (<[t := y]> l) = omap f l.
Proof.
  intros Hx Hf.
  rewrite insert_take_drop by (eapply lookup_lt_Some; exact Hx).
  rewrite <- (take_drop_middle l t x Hx) at 3.
  rewrite !omap_app. cbn. rewrite Hf. reflexivity.
Qed.

Lemma omap_insert_last {A B} (f : A -> option B) (l : list A) t x y v :
  l !! t = Some x -> f x = None -> f y = Some v ->
  (forall t' w, (t < t')%nat -> l !! t' = Some w -> f w = None) ->
  omap f (<[t := y]> l) = omap f l ++ [v].
Proof.
  intros Hx Hfx Hfy Hlater.
  rewrite insert_take_drop by (eapply lookup_lt_Some; exact Hx).
  rewrite <- (take_drop_middle l t x Hx) at 3.
  rewrite !omap_app. cbn. rewrite Hfx, Hfy.
  rewrite (omap_all_none f (drop (S t) l)).
  - rewrite app_nil_r. reflexivity.
  - intros i w Hw. rewrite lookup_drop in Hw.
    apply (Hlater (S t + i)%nat w); [lia|exact Hw].
Qed.

Lemma evaluated_snoc tr e :
  evaluated (tr ++ [e]) =
  evaluated tr ++
  match action e with Invoke (eval_expr_call input) => [input] | _ => [] end.
Proof.
  unfold evaluated. rewrite omap_app. cbn.
  destruct (action e) as [[]| | | | |]; reflexivity.
Qed.

Lemma started_snoc tr e :
  started (tr ++ [e]) =
  started tr ++
  match action e with Spawn _ (EvalWorker input _) => [input] | _ => [] end.
Proof.
  unfold started. rewrite omap_app. cbn.
  destruct (action e) as [| | | |? []|]; reflexivity.
Qed.

(** ** The table and the trace, one event at a time *)

Lemma WInv_event k ths tr e :
  WInv k ths tr ->
  match actor e with
  | Caller => caller_action k (action e)
  | Thread t =>
      worker_action k (action e) /\ exists at_, ths !! t = Some (PollWorker at_)
  end ->
  is_passive (action e) = true ->
  WInv k ths (tr ++ [e]).
Proof.
  intros [Hkind Hsend Hcaller Hworker Hev Hst] Hrole Hpass.
  destruct e as [who a0]. cbn [actor action] in *.
  split; try assumption.
  - intros i a Hi. snoc Hi; [eauto|]. exact Hrole.
  - intros i t a Hi. snoc Hi; [eauto|].
    destruct Hrole as [Hact Hpoll].
    split; [exact Hact|].
    destruct a as [[]| | | | |]; try discriminate; exact Hpoll.
  - rewrite evaluated_snoc, Hev. cbn [action].
    destruct a0 as [[]| | | | |]; try discriminate; apply app_nil_r.
  - rewrite started_snoc, Hst. cbn [action].
    destruct a0 as [| | | |? []|]; try discriminate; apply app_nil_r.
Qed.

Lemma WInv_spawn k ths tr w :
  WInv k ths tr ->
  is_eval_worker w = Nat.even (length ths) ->
  finished w = false ->
  (forall r, w = PollWorker (Sending r) -> r <> ""%string) ->
  WInv k (ths ++ [w])
    (tr ++ [{| actor := Caller; action := Spawn (length ths) w |}]).
Proof.
  intros [Hkind Hsend Hcaller Hworker Hev Hst] Hw Hrun Hchunk.
  split.
  - intros t w' Ht. apply lookup_snoc in Ht as [Ht|[-> ->]]; eauto.
  - intros t r Ht. apply lookup_snoc in Ht as [Ht|[-> Ht]]; eauto.
  - intros i a Hi. apply lookup_snoc in Hi as [Hi|[_ Hi]]; [eauto|].
    injection Hi as ->. exact I.
  - intros i t a Hi. apply lookup_snoc in Hi as [Hi|[_ Hi]]; [|discriminate].
    destruct (Hworker i t a Hi) as [Hact Hths]. split; [exact Hact|].
    destruct a as [[]| | | | |];
      first [ apply lookup_app_l_Some; exact Hths
            | destruct Hths as [at_ Hths]; exists at_;
              apply lookup_app_l_Some; exact Hths ].
  - rewrite evaluated_snoc, omap_app, Hev. cbn.
    destruct w as [input [|]|at_]; [discriminate|reflexivity|reflexivity].
  - rewrite started_snoc, omap_app, Hst. cbn.
    destruct w as [input done|at_]; reflexivity.
Qed.

Lemma WInv_evaluate k ths tr t input :
  WInv k ths tr ->
  ths !! t = Some (EvalWorker input false) ->
  (forall t' w, (t < t')%nat -> ths !! t' = Some w -> is_eval_worker w = false) ->
  WInv k (<[t := EvalWorker input true]> ths)
    (tr ++ [{| actor := Thread t; action := Invoke (eval_expr_call input) |}]).
Proof.
  intros [Hkind Hsend Hcaller Hworker Hev Hst] Hw Hlater.
  pose proof (lookup_lt_Some _ _ _ Hw) as Hlt.
  split.
  - intros t' w' Ht. apply list_lookup_insert_Some in Ht as [(<- & <- & _)|[_ Ht]];
      [apply (Hkind t _ Hw)|eauto].
  - intros t' r Ht. apply list_lookup_insert_Some in Ht as [(_ & Ht & _)|[_ Ht]];
      [discriminate|eauto].
  - intros i a Hi. apply lookup_snoc in Hi as [Hi|[_ Hi]]; [eauto|discriminate].
  - intros i t' a Hi. apply lookup_snoc in Hi as [Hi|[_ Hi]].
    + destruct (Hworker i t' a Hi) as [Hact Hths]. split; [exact Hact|].
      destruct (decide (t = t')) as [<-|Hne].
      * exfalso. destruct a as [[]| | | | |];
          first [ congruence | destruct Hths as [at_ Hths]; congruence ].
      * destruct a as [[]| | | | |];
          rewrite list_lookup_insert_ne by exact Hne; exact Hths.
    + injection Hi as -> ->. split; [exact I|].
      apply list_lookup_insert_eq. exact Hlt.
  - rewrite evaluated_snoc, Hev. cbn [action].
    symmetry. eapply omap_insert_last; [exact Hw|reflexivity|reflexivity|].
    intros t' w' Hlt' Hw'. specialize (Hlater t' w' Hlt' Hw').
    destruct w'; [discriminate|reflexivity].
  - rewrite started_snoc, Hst. cbn [action]. rewrite app_nil_r.
    symmetry. eapply omap_insert_same; [exact Hw|reflexivity].
Qed.

Lemma WInv_poll_state k ths tr t at_ at' :
  WInv k ths tr ->
  ths !! t = Some (PollWorker at_) ->
  (forall r, at' = Sending r -> r <> ""%string) ->
  WInv k (<[t := PollWorker at']> ths) tr.
Proof.
  intros [Hkind Hsend Hcaller Hworker Hev Hst] Hw Hchunk.
  split.
  - intros t' w' Ht. apply list_lookup_insert_Some in Ht as [(<- & <- & _)|[_ Ht]];
      [apply (Hkind t _ Hw)|eauto].
  - intros t' r Ht. apply list_lookup_insert_Some in Ht as [(_ & Ht & _)|[_ Ht]];
      [injection Ht as ->; apply Hchunk; reflexivity|eauto].
  - exact Hcaller.
  - intros i t' a Hi.
    destruct (Hworker i t' a Hi) as [Hact Hths]. split; [exact Hact|].
    destruct (decide (t = t')) as [<-|Hne].
    + destruct a as [[]| | | | |];
        first [ congruence
              | exists at'; apply list_lookup_insert_eq;
                eapply lookup_lt_Some; exact Hw ].
    + destruct a as [[]| | | | |];
        first [ rewrite list_lookup_insert_ne by exact Hne; exact Hths
              | destruct Hths as [a' Hths]; exists a';
                rewrite list_lookup_insert_ne by exact Hne; exact Hths ].
  - rewrite Hev. symmetry. eapply omap_insert_same; [exact Hw|reflexivity].
  - rewrite Hst. symmetry. eapply omap_insert_same; [exact Hw|reflexivity].
Qed.

Lemma WInv_start k : WInv k [] [].
Proof. split; try reflexivity; intros *; rewrite lookup_nil; discriminate. Qed.

Lemma Paired_valid ths eh ph t :
  Paired ths eh ph -> eh = Some t \/ ph = Some t -> (t < length ths)%nat.
Proof.
  intros (_ & Heh & Hph) [Ht|Ht].
  - destruct (Heh t Ht) as [Hlen _]. lia.
  - specialize (Hph t Ht). lia.
Qed.

Lemma even_succ_negb n : Nat.even (S n) = negb (Nat.even n).
Proof. rewrite Nat.even_succ. symmetry. apply Nat.negb_even. Qed.

Lemma Paired_none ths : Nat.even (length ths) = true -> Paired ths None None.
Proof. intros Heven. split; [exact Heven|]. split; discriminate. Qed.

Lemma Half_spawn ths w :
  Nat.even (length ths) = true -> Half (ths ++ [w]) (Some (length ths)) None.
Proof.
  intros Heven. unfold Half. rewrite length_app, Nat.add_1_r, even_succ_negb, Heven.
  split; [reflexivity|]. split; [|reflexivity]. exists (length ths). auto.
Qed.

Lemma Paired_spawn ths eh w :
  Half ths eh None ->
  Paired (ths ++ [w]) eh (Some (length ths)).
Proof.
  intros (Hodd & (t & -> & Hlen) & _).
  unfold Paired. rewrite length_app, Nat.add_1_r, even_succ_negb, Hodd.
  split; [reflexivity|]. split.
  - intros t' [= <-]. rewrite Hlen. auto.
  - intros t' [= <-]. reflexivity.
Qed.

(** Splitting the conjunctions of a goal, the records left whole. *)
Ltac conjs := repeat match goal with |- _ /\ _ => split end.

(** A trace grown by events of the caller. *)
Ltac winv :=
  repeat first
    [ assumption
    | apply WInv_event; [|cbn; auto; fail|reflexivity] ].

Lemma WInv_events k ths tr evs :
  WInv k ths tr ->
  Forall (fun e =>
    match actor e with
    | Caller => caller_action k (action e)
    | Thread t =>
        worker_action k (action e) /\ exists at_, ths !! t = Some (PollWorker at_)
    end /\ is_passive (action e) = true) evs ->
  WInv k ths (tr ++ evs).
Proof.
  intros Hinv Hevs. revert tr Hinv.
  induction Hevs as [|e evs [He Hp] _ IH]; intros tr Hinv.
  - rewrite app_nil_r. exact Hinv.
  - change (e :: evs) with ([e] ++ evs). rewrite app_assoc.
    apply IH. apply WInv_event; assumption.
Qed.

Section Hoare.
Context {E : Type} `{GenericEval E}.
Variable k : Socket.

Lemma hoare_bind {A B} P (m : M E A) Q (f : A -> M E B) R Bl :
  hoare P m Q Bl -> (forall a, hoare (Q a) (f a) R Bl) -> hoare P (bind m f) R Bl.
Proof.
  intros Hm Hf s HP. unfold bind. specialize (Hm s HP).
  destruct (m s) as [a s'| | |]; try exact Hm.
  apply (Hf a s' Hm).
Qed.

Lemma hoare_conseq {A} (P P' : GenericShell E -> Prop) (m : M E A)
    (Q Q' : A -> GenericShell E -> Prop) (Bl Bl' : PC -> GenericShell E -> Prop) :
  hoare P' m Q' Bl' -> (forall s, P s -> P' s) -> (forall a s, Q' a s -> Q a s) ->
  (forall pc s, Bl' pc s -> Bl pc s) ->
  hoare P m Q Bl.
Proof.
  intros Hm HP HQ HB s Hs. specialize (Hm s (HP s Hs)).
  destruct (m s); auto.
Qed.

(** [do_eval]: it returns with the evaluation worker created and
    [pollthr] null, or it waits in one of its two joins. *)
Lemma hoare_do_eval input sd0 :
  hoare (fun s : GenericShell E => Core k s /\ Still s /\ self_destruct s = sd0)
    (do_eval input)
    (fun _ s => Core k s /\ deleted s = false /\
       Half (threads s) (evalthr s) (pollthr s) /\
       pending_output s = ""%string /\ self_destruct s = sd0 /\
       poll_needed s = true)
    (fun pc s => pc = InDoEval input /\ Core k s /\ Still s /\ self_destruct s = sd0).
Proof.
  intros s (HC & HS & Hsd). unfold Core, Still in *.
  open_shell s.
  destruct HC as (-> & -> & -> & HW). destruct HS as (HP & -> & ->). subst sd0.
  pose proof (fun t => Paired_valid _ _ _ t HP) as Hvalid.
  destruct HP as (Heven & Heh & Hph).
  destruct eth as [te|]; [destruct (Heh te eq_refl) as [Hlen ->]|];
    [|destruct pth as [tp|]]; shell_unfold.
  - destruct (ths !! te) as [we|] eqn:Hwe. 2:{ apply lookup_ge_None in Hwe. lia. }
    destruct (finished we); shell_unfold.
    2:{ conjs; auto. split; auto. }
    destruct (ths !! S te) as [wp|] eqn:Hwp. 2:{ apply lookup_ge_None in Hwp. lia. }
    destruct (finished wp); shell_unfold.
    + conjs; auto.
      * apply WInv_spawn; [winv|auto|reflexivity|discriminate].
      * apply Half_spawn. exact Heven.
    + conjs; auto.
      * winv.
      * split; [exact Heven|]. split; [discriminate|exact Hph].
  - specialize (Hph tp eq_refl).
    destruct (ths !! tp) as [wp|] eqn:Hwp. 2:{ apply lookup_ge_None in Hwp. lia. }
    destruct (finished wp); shell_unfold.
    + conjs; auto.
      * apply WInv_spawn; [winv|auto|reflexivity|discriminate].
      * apply Half_spawn. exact Heven.
    + conjs; auto. split; [exact Heven|]. split; [discriminate|]. intros ? [= <-]. exact Hph.
  - conjs; auto.
    + apply WInv_spawn; [winv|auto|reflexivity|discriminate].
    + apply Half_spawn. exact Heven.
Qed.

(** [poll_output] always returns, and empties [pending_output]. *)
Lemma poll_output_frame (s : GenericShell E) :
  exists r s', poll_output s = Ret r s' /\ same_frame s s' /\
    pending_output s' = ""%string.
Proof.
  open_shell s. unfold same_frame. shell_unfold.
  destruct (0 <? String.length po)%nat eqn:Hpo.
  { do 2 eexists. split; [reflexivity|]. cbn. conjs; reflexivity. }
  apply empty_length in Hpo. subst po.
  repeat match goal with
         | |- context [if ?b then _ else _] => destruct b
         end.
  all: do 2 eexists; (split; [reflexivity|]); cbn; conjs; reflexivity.
Qed.

Lemma quiet_poll_calls : quiet (E:=E) is_poll_action poll_output.
Proof. unfold poll_output. quiet_tac. Qed.

(** The actions of code that creates and joins no thread keep the
    invariant of the table and the trace. *)
Lemma WInv_qstep ok (s s' : GenericShell E) :
  WInv k (threads s) (trace s) -> qstep ok s s' ->
  (forall a, ok a = true ->
     match self s with
     | Caller => caller_action k a
     | Thread t =>
         worker_action k a /\ exists at_, threads s !! t = Some (PollWorker at_)
     end /\ is_passive a = true) ->
  WInv k (threads s') (trace s').
Proof.
  intros Hinv (Hths & _ & _ & _ & acts & Htr & Hok) Hrole.
  rewrite Hths, Htr. apply WInv_events; [exact Hinv|].
  unfold by_. apply Forall_map. apply Forall_forall. intros a Ha.
  cbn [actor action]. apply Hrole.
  rewrite forallb_forall in Hok. apply Hok. apply list_elem_of_In. exact Ha.
Qed.

Lemma poll_action_caller a :
  is_poll_action a = true -> caller_action k a /\ is_passive a = true.
Proof. destruct a as [[]| | | | |]; try discriminate; intros _; split; auto; exact I. Qed.

Lemma poll_action_worker a :
  is_poll_action a = true -> worker_action k a /\ is_passive a = true.
Proof. destruct a as [[]| | | | |]; try discriminate; intros _; split; reflexivity. Qed.

(** [eval_relay]: the line was answered by [line_discipline] and the
    answer is sent, or the polling worker is created; its own [join] is
    never reached with a handle that is set. *)
Lemma hoare_eval_relay :
  hoare (fun s : GenericShell E => Core k s /\ Answered s) eval_relay
    (fun _ s => Core k s /\ Still s) (fun _ _ => False).
Proof.
  intros s (HC & Hdel & [(HH & Hpo & Hsd & Hpn)|(HP & Hpn)]).
  - unfold Core, Still in *. open_shell s.
    destruct HC as (-> & -> & -> & HW). subst.
    pose proof HH as (Hodd & (te & -> & Hlen) & ->).
    shell_unfold. conjs; auto.
    + apply WInv_spawn; [winv|auto|reflexivity|discriminate].
    + apply (Paired_spawn ths (Some te)). exact HH.
  - unfold eval_relay, bind at 1, gets. rewrite Hpn. cbn [negb].
    destruct (poll_output_frame s) as (r & s1 & Hrun & Hfr & Hpo1).
    pose proof (quiet_poll_calls s) as Hq. unfold bind. rewrite Hrun in *.
    assert (HW1 : WInv k (threads s1) (trace s1)).
    { destruct HC as (_ & _ & Hself & HW).
      eapply WInv_qstep; [exact HW|exact Hq|].
      intros a Ha. rewrite Hself. apply poll_action_caller. exact Ha. }
    unfold same_frame in Hfr.
    destruct Hfr as (_ & _ & _ & _ & Hap & Hsock & Heth & Hpth & _ & _ & Hths & Hself & Hdel1).
    destruct HC as (Hsock0 & Hap0 & Hself0 & _).
    unfold socket_Send, on_socket, bind, gets, log, modify.
    rewrite Hsock, Hsock0. unfold Core, Still.
    cbn [socket abort_prompt self threads trace evalthr pollthr pending_output
         deleted set_trace].
    rewrite Hsock, Hap, Hself, Hths, Heth, Hpth, Hdel1, Hself0.
    conjs; auto.
    rewrite <- Hths. apply WInv_event; [exact HW1|reflexivity|reflexivity].
Qed.

(** The destructor and [delete this]: both workers are joined, or the
    caller waits. *)
Lemma hoare_delete_this :
  hoare (fun s : GenericShell E => Core k s /\ Still s) delete_this
    (fun _ s => Core k s /\ Paired (threads s) (evalthr s) (pollthr s) /\
       pending_output s = ""%string /\ deleted s = true /\
       evalthr s = None /\ pollthr s = None)
    (fun pc s => pc = InDtor /\ Core k s /\ Still s).
Proof.
  intros s (HC & HS). unfold Core, Still in *.
  open_shell s.
  destruct HC as (-> & -> & -> & HW). destruct HS as (HP & -> & ->).
  pose proof (fun t => Paired_valid _ _ _ t HP) as Hvalid.
  destruct HP as (Heven & Heh & Hph).
  destruct eth as [te|]; [destruct (Heh te eq_refl) as [Hlen ->]|];
    [|destruct pth as [tp|]]; shell_unfold.
  - destruct (ths !! te) as [we|] eqn:Hwe. 2:{ apply lookup_ge_None in Hwe. lia. }
    destruct (finished we); shell_unfold.
    2:{ conjs; auto. split; auto. }
    destruct (ths !! S te) as [wp|] eqn:Hwp. 2:{ apply lookup_ge_None in Hwp. lia. }
    destruct (finished wp); shell_unfold.
    + conjs; auto; [winv|apply Paired_none; exact Heven].
    + conjs; auto; [winv|]. split; [exact Heven|]. split; [discriminate|exact Hph].
  - specialize (Hph tp eq_refl).
    destruct (ths !! tp) as [wp|] eqn:Hwp. 2:{ apply lookup_ge_None in Hwp. lia. }
    destruct (finished wp); shell_unfold.
    + conjs; auto; [winv|apply Paired_none; exact Heven].
    + conjs; auto. split; [exact Heven|]. split; [discriminate|].
      intros ? [= <-]. exact Hph.
  - conjs; auto. apply Paired_none; exact Heven.
Qed.

Lemma hoare_eval_destruct :
  hoare (fun s : GenericShell E => Core k s /\ Still s) eval_destruct
    (fun _ s => Core k s /\ Paired (threads s) (evalthr s) (pollthr s) /\
       pending_output s = ""%string /\ Rest s)
    (fun pc s => pc = InDtor /\ Core k s /\ Still s).
Proof.
  unfold eval_destruct.
  intros s (HC & HS). unfold bind at 1, gets.
  destruct (self_destruct s) eqn:Hsd.
  - revert s HC HS Hsd.
    assert (Hsend : hoare (fun s : GenericShell E => Core k s /\ Still s)
              (socket_sendPrompt;; socket_SetShell false)
              (fun _ s => Core k s /\ Still s)
              (fun pc s => pc = InDtor /\ Core k s /\ Still s)).
    { intros s (HC & HS). unfold Core, Still in *. open_shell s.
      destruct HC as (-> & -> & -> & HW). destruct HS as (HP & -> & ->).
      shell_unfold. conjs; auto. winv. }
    intros s HC HS Hsd.
    pose proof (hoare_bind _ _ _ (fun _ => delete_this) _ _
      Hsend (fun _ => hoare_delete_this) s (conj HC HS)) as Hrun.
    unfold bind in *.
    destruct (socket_sendPrompt s) as [? s1| | |]; try exact Hrun.
    destruct (socket_SetShell false s1) as [? s2| | |]; try exact Hrun.
    destruct (delete_this s2) as [? s3| | |]; try exact Hrun.
    destruct Hrun as (HC3 & HP3 & Hpo3 & Hdel3 & He3 & Hp3).
    conjs; auto. right. auto.
  - destruct HS as (HP & Hpo & Hdel). unfold ret. conjs; auto. left; auto.
Qed.

Lemma hoare_telnet_abort Bl :
  hoare (Fresh k) telnet_abort (fun r s => r = true /\ Core k s /\ Answered s) Bl.
Proof.
  intros s (HC & HS & Hsd & Hpn). unfold Core, Still, Answered in *. open_shell s.
  destruct HC as (-> & -> & -> & HW). destruct HS as (HP & -> & ->). subst.
  shell_unfold. conjs; auto. winv.
Qed.

Lemma hoare_telnet_erase Bl :
  hoare (Fresh k) telnet_erase (fun r s => r = true /\ Core k s /\ Answered s) Bl.
Proof.
  intros s (HC & HS & Hsd & Hpn). unfold Core, Still, Answered in *. open_shell s.
  destruct HC as (-> & -> & -> & HW). destruct HS as (HP & -> & ->). subst.
  shell_unfold. destruct sp; shell_unfold; [destruct (input_pending ev)|].
  all: conjs; auto; winv.
Qed.

Lemma hoare_iac_loop expr m i Bl :
  hoare (Fresh k) (iac_loop expr m i)
    (fun r s => if r then Core k s /\ Answered s else Fresh k s) Bl.
Proof.
  assert (Hn : forall (n : nat) i, i = m + Z.of_nat n - 1 ->
            hoare (Fresh k) (iac_loop expr m i)
              (fun r s => if r then Core k s /\ Answered s else Fresh k s) Bl).
  { clear i. induction n as [|n IH]; intros i ->; rewrite iac_loop_eq.
    - destruct (Z_le_dec _ _); [lia|]. intros s Hs. exact Hs.
    - destruct (Z_le_dec _ _); [|intros s Hs; exact Hs].
      destruct (escape_at expr _) as [[]|].
      + eapply hoare_conseq; [apply (hoare_telnet_abort Bl)|auto| |auto].
        intros r s (-> & Hs). exact Hs.
      + eapply hoare_conseq; [apply (hoare_telnet_erase Bl)|auto| |auto].
        intros r s (-> & Hs). exact Hs.
      + apply IH. lia. }
  destruct (Z_le_dec m i) as [Hle|Hgt].
  - apply (Hn (Z.to_nat (i - m + 1))). lia.
  - rewrite iac_loop_eq. destruct (Z_le_dec m i); [lia|]. intros s Hs. exact Hs.
Qed.

(** [line_discipline]: the line is answered, or an evaluation is started,
    or the caller waits in [do_eval]. *)
Lemma hoare_line_discipline expr :
  hoare (Fresh k) (line_discipline expr)
    (fun _ s => Core k s /\ Answered s)
    (fun pc s => (exists input, pc = InDoEval input) /\
       Core k s /\ Still s /\ self_destruct s = false).
Proof.
  assert (Hdo : forall input,
    hoare (Fresh k) (do_eval input)
      (fun _ s => Core k s /\ Answered s)
      (fun pc s => (exists input, pc = InDoEval input) /\
         Core k s /\ Still s /\ self_destruct s = false)).
  { intros input. eapply hoare_conseq; [apply (hoare_do_eval input false)| | |].
    - intros s (HC & HS & Hsd & _). auto.
    - intros _ s (HC & Hdel & HH & Hpo & Hsd & Hpn). unfold Answered. auto 10.
    - intros pc s (-> & Hs). eauto. }
  unfold line_discipline.
  destruct (0 =? length_of expr); [apply Hdo|].
  cbn zeta.
  eapply hoare_bind; [apply hoare_iac_loop|intros returned].
  destruct returned; [intros s Hs; exact Hs|].
  destruct (_ || _).
  - intros s (HC & HS & Hsd & Hpn). unfold Core, Still, Answered in *. open_shell s.
    destruct HC as (-> & -> & -> & HW). destruct HS as (HP & -> & ->). subst.
    shell_unfold. conjs; auto. winv.
  - eapply (hoare_bind _ _ (fun _ => Fresh k)).
    + intros s (HC & HS & Hsd & Hpn). unfold Fresh, Core, Still in *. open_shell s.
      destruct HC as (-> & -> & -> & HW). destruct HS as (HP & -> & ->). subst.
      shell_unfold. conjs; auto. winv.
    + intros pending. destruct (_ && _); [|apply Hdo].
      intros s (HC & HS & Hsd & Hpn). unfold Core, Still, Answered in *. open_shell s.
      destruct HC as (-> & -> & -> & HW). destruct HS as (HP & -> & ->). subst.
      shell_unfold. destruct sp; shell_unfold; conjs; auto.
Qed.

(** [eval], from a shell between two calls. *)
Lemma hoare_eval expr :
  hoare (fun s : GenericShell E => Core k s /\ Still s /\ self_destruct s = false)
    (eval expr)
    (fun _ s => Core k s /\ Paired (threads s) (evalthr s) (pollthr s) /\
       pending_output s = ""%string /\ Rest s)
    (fun pc s => Core k s /\ Still s /\
       ((exists input, pc = InDoEval input) /\ self_destruct s = false \/
        pc = InDtor)).
Proof.
  unfold eval.
  eapply (hoare_bind _ _ (fun _ => Fresh k)).
  { intros s (HC & HS & Hsd). unfold Fresh, Core, Still in *. open_shell s.
    destruct HC as (-> & -> & -> & HW). destruct HS as (HP & -> & ->). subst.
    shell_unfold. conjs; auto. }
  intros ?.
  eapply hoare_bind.
  { eapply hoare_conseq; [apply hoare_line_discipline|auto|intros ? ? Hs; exact Hs|].
    intros pc s (Hpc & HC & HS & Hsd). auto. }
  intros ?. cbn beta.
  eapply hoare_bind.
  { eapply hoare_conseq; [apply hoare_eval_relay|auto|intros ? ? Hs; exact Hs|].
    intros pc s []. }
  intros ?. cbn beta.
  eapply hoare_conseq; [apply hoare_eval_destruct|auto|auto|].
  intros pc s (-> & HC & HS). auto.
Qed.

(** The caller that tries its [join] again. *)
Lemma hoare_resume pc :
  hoare (fun s : GenericShell E => Core k s /\ Still s /\
           match pc with
           | InDoEval _ => self_destruct s = false
           | InEval | InCall _ _ _ => False
           | InDtor => True
           end)
    (resume pc)
    (fun _ s => Core k s /\ Paired (threads s) (evalthr s) (pollthr s) /\
       pending_output s = ""%string /\ Rest s)
    (fun pc s => Core k s /\ Still s /\
       ((exists input, pc = InDoEval input) /\ self_destruct s = false \/
        pc = InDtor)).
Proof.
  destruct pc as [input| | |ops held tail]; cbn [resume].
  4: intros s (_ & _ & []).
  - eapply hoare_bind.
    { eapply hoare_conseq; [apply (hoare_do_eval input false)|auto|
                            intros ? ? Hs; exact Hs|].
      intros pc s (-> & HC & HS & Hsd). eauto 10. }
    intros ?. cbn beta.
    eapply hoare_bind.
    { eapply hoare_conseq; [apply hoare_eval_relay| |intros ? ? Hs; exact Hs|].
      - intros s (HC & Hdel & HH & Hpo & Hsd & Hpn). unfold Answered. auto 10.
      - intros pc s []. }
    intros ?. cbn beta.
    eapply hoare_conseq; [apply hoare_eval_destruct|auto|auto|].
    intros pc s (-> & HC & HS). auto.
  - intros s (_ & _ & []).
  - eapply hoare_conseq; [apply hoare_delete_this|tauto| |].
    + intros _ s (HC & HP & Hpo & Hdel & He & Hp). unfold Rest. auto 10.
    + intros pc s (-> & HC & HS). auto.
Qed.

End Hoare.

(** ** The configurations of a session *)

Section Sessions.
Context {E : Type} `{GenericEval E}.
Variable k : Socket.

Lemma as_caller_hoare (m : M E unit) (s : GenericShell E) P Q Bl :
  hoare P m Q Bl -> P (set_self Caller s) ->
  exists c, as_caller m s = Some c /\
    match blocked c with
    | None => Q tt (shell c)
    | Some pc => Bl pc (shell c)
    end.
Proof.
  intros Hm HP. specialize (Hm _ HP). unfold as_caller.
  destruct (m (set_self Caller s)) as [[] s'|pc s'| |]; try contradiction.
  - eexists. split; [reflexivity|exact Hm].
  - eexists. split; [reflexivity|exact Hm].
Qed.

(** The caller's move at a [join], from a configuration of the session. *)
Lemma caller_move (c : @Config E) (m : M E unit) :
  Good k c -> preempted c = false ->
  hoare (fun s : GenericShell E => Core k s /\ Still s /\
           match blocked c with
           | None | Some (InDoEval _) => self_destruct s = false
           | Some InEval | Some (InCall _ _ _) => False
           | Some InDtor => True
           end)
    m
    (fun _ s => Core k s /\ Paired (threads s) (evalthr s) (pollthr s) /\
       pending_output s = ""%string /\ Rest s)
    (fun pc s => Core k s /\ Still s /\
       ((exists input, pc = InDoEval input) /\ self_destruct s = false \/
        pc = InDtor)) ->
  deleted (shell c) = false ->
  exists c', as_caller m (shell c) = Some c' /\ Good k c'.
Proof.
  intros (Hsock & Hap & HW & HP & Hpo & Hb) Hpre Hm Hdel.
  specialize (Hpo Hpre).
  destruct (as_caller_hoare m (shell c) _ _ _ Hm) as (c' & Hrun & Hc').
  - unfold Core, Still. cbn [socket abort_prompt self threads trace evalthr pollthr
                             pending_output deleted self_destruct set_self].
    conjs; auto.
    unfold preempted in Hpre.
    destruct (blocked c) as [[]|]; try tauto; try discriminate.
    destruct Hb as [[Hsd _]|[Hd _]]; congruence.
  - exists c'. split; [exact Hrun|]. unfold Good, preempted.
    destruct (blocked c') as [pc|].
    + destruct Hc' as ((Hs' & Ha' & _ & HW') & (HP' & Hpo' & Hdel') & Hpc).
      conjs; auto.
      destruct Hpc as [[[input ->] Hsd]| ->]; auto.
    + destruct Hc' as ((Hs' & Ha' & _ & HW') & HP' & Hpo' & HR').
      conjs; auto.
Qed.

(** The head of a call, from a configuration of the session. *)
Lemma receive_move expr (c : @Config E) :
  Good k c -> blocked c = None -> deleted (shell c) = false ->
  exists c', turn_receive expr c = Some c' /\ Good k c'.
Proof.
  intros (Hsock & Hap & HW & HP & Hpo & Hb) Hbl Hdel.
  unfold turn_receive. rewrite Hbl, Hdel.
  unfold preempted in Hpo. rewrite Hbl in Hpo, Hb. specialize (Hpo eq_refl).
  destruct Hb as [[Hsd _]|[Hd _]]; [|congruence].
  destruct c as [s b]; cbn [shell blocked] in *. clear Hbl b.
  open_shell s. subst.
  unfold receive, Good, Rest, Agenda, preempted. shell_unfold.
  destruct (0 =? _).
  { eexists. split; [reflexivity|]. cbn [shell blocked]. shell_unfold.
    conjs; auto; discriminate. }
  destruct (iac_scan _ _ _) as [[]|].
  1,2: eexists; (split; [reflexivity|]); cbn [shell blocked park]; shell_unfold;
       conjs; auto; discriminate.
  destruct (_ || _).
  { eexists. split; [reflexivity|]. cbn [shell blocked park]. shell_unfold.
    conjs; auto; discriminate. }
  destruct (negb (input_pending ev) && _).
  - destruct sp; eexists; (split; [reflexivity|]); cbn [shell blocked park];
      shell_unfold; conjs; auto; try discriminate; winv.
  - eexists. split; [reflexivity|]. cbn [shell blocked park]. shell_unfold.
    conjs; auto; winv.
Qed.

(** One access of the caller. *)
Lemma perform_prelude op held (s : GenericShell E) :
  is_prelude op = true -> Core k s ->
  exists held' s', perform op held s = Ret held' s' /\ Core k s' /\
    threads s' = threads s /\ evalthr s' = evalthr s /\ pollthr s' = pollthr s /\
    self_destruct s' = self_destruct s /\ deleted s' = deleted s.
Proof.
  intros Hop HC. unfold Core in *. open_shell s.
  destruct HC as (-> & -> & -> & HW).
  destruct op; try discriminate; call_unfold.
  4: destruct sp; shell_unfold; [destruct (input_pending ev)|].
  all: do 2 eexists; (split; [reflexivity|]); shell_unfold; conjs; auto; winv.
Qed.

Lemma perform_poll held (s : GenericShell E) :
  Core k s ->
  exists held' s', perform OpPoll held s = Ret held' s' /\ Core k s' /\
    threads s' = threads s /\ evalthr s' = evalthr s /\ pollthr s' = pollthr s /\
    self_destruct s' = self_destruct s /\ deleted s' = deleted s /\
    pending_output s' = ""%string.
Proof.
  intros (Hsock & Hap & Hself & HW). cbn [perform].
  destruct (poll_output_frame s) as (r & s1 & Hrun & Hfr & Hpo1).
  pose proof (quiet_poll_calls s) as Hq. rewrite Hrun in Hq.
  exists r, s1. split; [exact Hrun|].
  destruct Hfr as (_ & _ & _ & _ & Hap1 & Hsock1 & Heth & Hpth & Hsd & _ & Hths & Hself1 & Hdel1).
  unfold Core. conjs; try congruence.
  eapply WInv_qstep; [exact HW|exact Hq|].
  intros a Ha. rewrite Hself. apply poll_action_caller. exact Ha.
Qed.

Lemma perform_socket op held (s : GenericShell E) :
  op = OpSend \/ op = OpSendPrompt \/ op = OpSetShell -> Core k s ->
  exists s', perform op held s = Ret held s' /\ Core k s' /\
    threads s' = threads s /\ evalthr s' = evalthr s /\ pollthr s' = pollthr s /\
    self_destruct s' = self_destruct s /\ deleted s' = deleted s /\
    pending_output s' = pending_output s.
Proof.
  intros Hop HC. unfold Core in *. open_shell s.
  destruct HC as (-> & -> & -> & HW).
  destruct Hop as [-> | [-> | ->]]; call_unfold.
  all: eexists; (split; [reflexivity|]); shell_unfold; conjs; auto; winv.
Qed.

Lemma before_poll_cases op rest :
  before_poll (op :: rest) = true ->
  (op = OpPoll /\ rest = [OpSend]) \/
  (is_prelude op = true /\ before_poll rest = true /\ rest <> []).
Proof.
  intros Hb. destruct op; cbn [before_poll is_prelude andb] in Hb; try discriminate.
  1-7: right; (split; [reflexivity|]); (split; [exact Hb|]);
       intros ->; discriminate.
  left. destruct rest as [|[] [|]]; try discriminate. auto.
Qed.

(** The next access of a caller inside [eval], from a configuration of
    the session. *)
Lemma access_move (c : @Config E) ops held tail :
  Good k c -> blocked c = Some (InCall ops held tail) ->
  exists c', turn_resume c = Some c' /\ Good k c'.
Proof.
  intros (Hsock & Hap & HW & HP & _ & Hb) Hbl.
  unfold turn_resume. rewrite Hbl in *. destruct Hb as [Hdel Hag].
  destruct c as [s b]; cbn [shell blocked] in *. clear Hbl b.
  assert (HC : Core k (set_self Caller s)).
  { unfold Core. cbn [socket abort_prompt self threads trace set_self]. auto. }
  assert (Hgood : forall (s' : GenericShell E) b,
    Core k s' -> threads s' = threads s -> evalthr s' = evalthr s ->
    pollthr s' = pollthr s -> deleted s' = false ->
    (preempted {| shell := s'; blocked := b |} = false ->
     pending_output s' = ""%string) ->
    match b with
    | None => self_destruct s' = false
    | Some InDtor => True
    | Some (InCall ops' _ tail') => Agenda ops' tail' s'
    | _ => False
    end ->
    Good k {| shell := s'; blocked := b |}).
  { intros s' b (Hs' & Ha' & _ & HW') Hths Heth Hpth Hdel' Hpo' Hb'.
    unfold Good, Rest. cbn [shell blocked]. rewrite Heth, Hpth.
    conjs; auto; [rewrite Hths; exact HP|].
    destruct b as [[input| | |ops' held' tail']|]; try contradiction; auto. }
  assert (Hin : forall (s' : GenericShell E) ops' held' tail',
    preempted {| shell := s'; blocked := Some (InCall ops' held' tail') |} = false ->
    pending_output s' = ""%string) by (intros ? ? ? ? Hp; discriminate Hp).
  destruct tail; cbn [Agenda] in Hag.
  - destruct Hag as [Hbefore|[-> Hpo]].
    + destruct ops as [|op rest]; [discriminate|].
      destruct (before_poll_cases op rest Hbefore) as [[-> ->]|(Hop & Hrest & Hne)].
      * destruct (perform_poll held _ HC)
          as (held' & s' & -> & HC' & Hths & Heth & Hpth & Hsd & Hdel' & Hpo').
        cbn [threads evalthr pollthr self_destruct deleted set_self] in *.
        eexists. split; [reflexivity|]. cbn [park].
        apply Hgood; auto; try congruence; try apply Hin; cbn [Agenda]; auto.
      * destruct (perform_prelude op held _ Hop HC)
          as (held' & s' & -> & HC' & Hths & Heth & Hpth & Hsd & Hdel').
        cbn [threads evalthr pollthr self_destruct deleted set_self] in *.
        eexists. split; [reflexivity|].
        destruct rest as [|op' rest']; [congruence|]. cbn [park].
        apply Hgood; auto; try congruence; try apply Hin; cbn [Agenda]; auto.
    + destruct (perform_socket OpSend held _ (or_introl eq_refl) HC)
        as (s' & -> & HC' & Hths & Heth & Hpth & Hsd & Hdel' & Hpo').
      cbn [threads evalthr pollthr self_destruct deleted pending_output set_self] in *.
      eexists. split; [reflexivity|]. cbn [park].
      rewrite Hpo in Hpo'.
      destruct (self_destruct s') eqn:Hsd'.
      * apply Hgood; auto; try congruence; try apply Hin; cbn [Agenda]; auto.
      * apply Hgood; auto; congruence.
  - destruct Hag as (Hops & Hpo & Hsd).
    destruct Hops as [-> | ->].
    + destruct (perform_socket OpSendPrompt held _ (or_intror (or_introl eq_refl)) HC)
        as (s' & -> & HC' & Hths & Heth & Hpth & Hsd' & Hdel' & Hpo').
      cbn [threads evalthr pollthr self_destruct deleted pending_output set_self] in *.
      eexists. split; [reflexivity|]. cbn [park].
      apply Hgood; auto; try congruence; try apply Hin; cbn [Agenda].
      rewrite Hpo', Hsd'. auto.
    + destruct (perform_socket OpSetShell held _ (or_intror (or_intror eq_refl)) HC)
        as (s' & -> & HC' & Hths & Heth & Hpth & Hsd' & Hdel' & Hpo').
      cbn [threads evalthr pollthr self_destruct deleted pending_output set_self] in *.
      eexists. split; [reflexivity|]. cbn [park].
      apply Hgood; auto; try congruence.
Qed.

(** A worker's turn from a configuration of the session. *)
Lemma Good_turn (s s' : GenericShell E) b :
  Good k {| shell := s; blocked := b |} ->
  socket s' = socket s -> abort_prompt s' = abort_prompt s ->
  evalthr s' = evalthr s -> pollthr s' = pollthr s ->
  self_destruct s' = self_destruct s -> deleted s' = deleted s ->
  pending_output s' = pending_output s \/ pending_output s' = ""%string ->
  length (threads s') = length (threads s) ->
  WInv k (threads s') (trace s') ->
  Good k {| shell := s'; blocked := b |}.
Proof.
  intros (Hsock & Hap & HW & HP & Hpo & Hb) Hsock' Hap' Heth Hpth Hsd Hdel Hpo' Hlen HW'.
  unfold Good, Rest, preempted in *. cbn [shell blocked] in *.
  rewrite Hsock', Hap', Heth, Hpth, Hsd, Hdel.
  conjs; auto.
  - unfold Paired in *. rewrite Hlen. exact HP.
  - intros Hpre. destruct Hpo' as [-> | ->]; auto.
  - destruct b as [[input| | |ops held tail]|]; auto.
    destruct Hb as [Hd Hag]. split; [exact Hd|].
    destruct tail; cbn [Agenda] in *.
    + destruct Hag as [Hbp|[-> Hq]]; [auto|right].
      split; [reflexivity|]. destruct Hpo' as [-> | ->]; auto.
    + destruct Hag as (Hops & Hq & Hsd'). rewrite Hsd. conjs; auto.
      destruct Hpo' as [-> | ->]; auto.
Qed.

Lemma worker_move (c : @Config E) t w :
  Good k c -> SInv (shell c) ->
  threads (shell c) !! t = Some w -> finished w = false ->
  exists s', as_worker t (shell c) = Some s' /\
    Good k {| shell := s'; blocked := blocked c |}.
Proof.
  intros Hgood Hinv Hw Hrun.
  pose proof Hgood as (Hsock & Hap & HW & HP & _ & _).
  destruct c as [s b]. cbn [shell blocked] in *.
  destruct w as [input [|]|at_]; [discriminate| |].
  - rewrite (as_worker_eval t input s Hw). eexists. split; [reflexivity|].
    pose proof (running_eval_worker s t input Hinv Hw) as He.
    destruct HP as (Heven & Heh & Hph).
    destruct (Heh t He) as [Hlen Hp].
    apply (Good_turn s); auto.
    + cbn [threads set_threads]. apply length_insert.
    + cbn [threads trace set_threads set_evaluator set_trace set_self by_ map self].
      apply WInv_evaluate; [exact HW|exact Hw|].
      intros t' w' Hlt Hw'.
      pose proof (lookup_lt_Some _ _ _ Hw') as Hlt'.
      assert (t' = S t) as -> by lia.
      rewrite (w_kind _ _ _ HW _ _ Hw'), even_succ_negb.
      rewrite <- (w_kind _ _ _ HW _ _ Hw). reflexivity.
  - assert (Hp : pollthr s = Some t).
    { eapply running_poll_worker; [exact Hinv|exact Hw|].
      destruct at_; [discriminate|discriminate|discriminate Hrun]. }
    unfold as_worker. rewrite Hw.
    destruct at_ as [|retstr|]; [| |discriminate Hrun]; cbn [poll_wrapper_turn].
    + unfold bind.
      destruct (poll_output_frame (set_self (Thread t) s)) as (r & s1 & Hs1 & Hfr & Hpo1).
      pose proof (quiet_poll_calls (set_self (Thread t) s)) as Hq.
      rewrite Hs1 in *.
      assert (HW1 : WInv k (threads s1) (trace s1)).
      { eapply WInv_qstep; [|exact Hq|].
        - exact HW.
        - intros a Ha. cbn [self set_self threads]. split.
          + split; [apply (poll_action_worker k a Ha)|eauto].
          + apply (poll_action_worker k a Ha). }
      destruct Hfr as (_ & _ & _ & _ & Hap1 & Hsock1 & Heth1 & Hpth1 & Hsd1 & _ &
                       Hths1 & _ & Hdel1).
      cbn [abort_prompt socket evalthr pollthr self_destruct threads deleted set_self]
        in Hap1, Hsock1, Heth1, Hpth1, Hsd1, Hths1, Hdel1.
      assert (Hgood' : forall at',
        (forall r', at' = Sending r' -> r' <> ""%string) ->
        Good k {| shell := set_threads (<[t := PollWorker at']> (threads s1)) s1;
                  blocked := b |}).
      { intros at' Hat'. apply (Good_turn s); auto.
        - cbn [threads set_threads]. rewrite length_insert, Hths1. reflexivity.
        - cbn [threads trace set_threads].
          eapply WInv_poll_state; [exact HW1|rewrite Hths1; exact Hw|exact Hat']. }
      destruct (0 <? String.length r)%nat eqn:Hr.
      * eexists. split; [reflexivity|]. apply Hgood'.
        intros r' [= <-]. apply nonempty_length. exact Hr.
      * eexists. split; [reflexivity|]. apply Hgood'. discriminate.
    + unfold socket_Send, on_socket, bind, gets, log, modify, set_worker.
      cbn [socket set_self]. rewrite Hsock.
      eexists. split; [reflexivity|].
      apply (Good_turn s); auto.
      * cbn [threads set_threads]. apply length_insert.
      * cbn [threads trace set_threads set_trace set_self self].
        eapply WInv_poll_state; [| |discriminate].
        -- apply WInv_event; [exact HW| |reflexivity].
           cbn [actor action]. split; [|eauto].
           split; [reflexivity|]. apply (w_sending _ _ _ HW _ _ Hw).
        -- exact Hw.
Qed.

Lemma resume_move (c : @Config E) pc :
  Good k c -> blocked c = Some pc ->
  exists c', turn_resume c = Some c' /\ Good k c'.
Proof.
  intros Hgood Hb.
  destruct pc as [input| | |ops held tail].
  4: exact (access_move c ops held tail Hgood Hb).
  all: assert (Hdel : deleted (shell c) = false)
         by (destruct Hgood as (_ & _ & _ & _ & _ & Hpc); rewrite Hb in Hpc; tauto).
  all: unfold turn_resume; rewrite Hb.
  all: apply caller_move;
         [exact Hgood|unfold preempted; rewrite Hb; reflexivity| |exact Hdel].
  all: rewrite Hb.
  all: eapply hoare_conseq; [apply (hoare_resume k _)| |auto|auto].
  all: intros s (HC & HS & Hpc); auto.
Qed.

Lemma unpreempted_good n (c : @Config E) :
  Good k c -> exists c', unpreempted n c = Some c' /\ Good k c'.
Proof.
  revert c. induction n as [|n IH]; intros c Hgood; cbn [unpreempted].
  - eauto.
  - destruct (blocked c) as [pc|] eqn:Hb; [|eauto].
    destruct (resume_move c pc Hgood Hb) as (c1 & Hc1 & Hg1).
    rewrite Hc1.
    destruct pc as [input| | |ops held tail]; eauto.
Qed.

Lemma step_total a (c : @Config E) :
  Good k c -> SInv (shell c) -> enabled a c ->
  exists c', step a c = Some c' /\ Good k c'.
Proof.
  intros Hgood Hinv Hen. destruct a as [expr|expr| |t]; cbn [step enabled] in *.
  - destruct Hen as [Hb Hdel].
    destruct (receive_move expr c Hgood Hb Hdel) as (c1 & -> & Hg1).
    apply unpreempted_good. exact Hg1.
  - destruct Hen as [Hb Hdel]. apply receive_move; assumption.
  - destruct Hen as [pc Hb]. exact (resume_move c pc Hgood Hb).
  - destruct Hen as (w & Hw & Hrun).
    destruct (worker_move c t w Hgood Hinv Hw Hrun) as (s' & -> & Hs').
    eexists. split; [reflexivity|exact Hs'].
Qed.

Lemma step_enabled a (c c' : @Config E) :
  Good k c -> step a c = Some c' -> enabled a c.
Proof.
  intros Hgood Hstep. destruct a as [expr|expr| |t]; cbn [step enabled] in *.
  1,2: unfold turn_receive in Hstep;
       (destruct (blocked c); [discriminate|]);
       (destruct (deleted (shell c)); [discriminate|]); auto.
  - unfold turn_resume in Hstep.
    destruct (blocked c) as [pc|]; [eauto|discriminate].
  - destruct (threads (shell c) !! t) as [w|] eqn:Hw.
    + exists w. split; [reflexivity|].
      destruct (finished w) eqn:Hf; [|reflexivity].
      rewrite (as_worker_finished t w _ Hw Hf) in Hstep. discriminate.
    + unfold as_worker in Hstep. rewrite Hw in Hstep. discriminate.
Qed.

Lemma step_good a (c c' : @Config E) :
  Good k c -> SInv (shell c) -> step a c = Some c' -> Good k c'.
Proof.
  intros Hgood Hinv Hstep.
  destruct (step_total a c Hgood Hinv (step_enabled a c c' Hgood Hstep))
    as (c1 & Hc1 & Hg1).
  congruence.
Qed.

Lemma run_good schedule (c c' : @Config E) :
  Good k c -> SInv (shell c) -> run schedule c = Some c' ->
  Good k c' /\ SInv (shell c').
Proof.
  revert c. induction schedule as [|a rest IH]; intros c Hgood Hinv Hrun;
    cbn [run] in Hrun.
  - injection Hrun as <-. auto.
  - destruct (step a c) as [c1|] eqn:Hstep; [|discriminate].
    eapply IH; [| |exact Hrun].
    + eapply step_good; eassumption.
    + eapply step_inv; eassumption.
Qed.

Lemma session_good (ev : E) done0 needed0 hush_o hush_p :
  Good k (session ev done0 needed0 hush_o hush_p k).
Proof.
  unfold Good, Rest. cbn. conjs; auto.
  - apply (WInv_event k [] [] {| actor := Caller; action := SetShell k true |});
      [apply WInv_start|reflexivity|reflexivity].
  - apply Paired_none. reflexivity.
Qed.

(** Every configuration a session reaches satisfies both invariants. *)
Lemma reached (ev : E) done0 needed0 hush_o hush_p schedule (c : @Config E) :
  run schedule (session ev done0 needed0 hush_o hush_p k) = Some c ->
  Good k c /\ SInv (shell c).
Proof.
  apply run_good; [apply session_good|apply session_inv].
Qed.

End Sessions.

Lemma started_but_last (l : list Worker) :
  (forall t w, l !! t = Some w -> is_eval_worker w = true -> finished w = false ->
     forall t' w', (t < t')%nat -> l !! t' = Some w' -> is_eval_worker w' = false) ->
  exists rest, omap worker_input l = omap worker_evaluated l ++ rest /\
    (length rest <= 1)%nat.
Proof.
  induction l as [|w l IH]; intros Hlast.
  - exists []. split; [reflexivity|cbn; lia].
  - destruct w as [input [|]|at_].
    + destruct IH as (rest & Heq & Hlen).
      { intros t w Hw He Hf t' w' Hlt Hw'.
        apply (Hlast (S t) w Hw He Hf (S t') w'); [lia|exact Hw']. }
      exists rest. cbn. rewrite Heq. auto.
    + exists [input]. cbn. split; [|lia].
      assert (Hpoll : forall i w, l !! i = Some w -> is_eval_worker w = false).
      { intros i w Hw.
        apply (Hlast 0%nat (EvalWorker input false) eq_refl eq_refl eq_refl (S i) w);
          [lia|exact Hw]. }
      rewrite !omap_all_none; [reflexivity| |].
      * intros i w Hw. specialize (Hpoll i w Hw). destruct w; [discriminate|reflexivity].
      * intros i w Hw. specialize (Hpoll i w Hw). destruct w; [discriminate|reflexivity].
    + destruct IH as (rest & Heq & Hlen).
      { intros t w Hw He Hf t' w' Hlt Hw'.
        apply (Hlast (S t) w Hw He Hf (S t') w'); [lia|exact Hw']. }
      exists rest. cbn. auto.
Qed.

Section Reached.
Context {E : Type} `{GenericEval E}.
Variables (ev : E) (done0 needed0 hush_o hush_p : bool) (k : Socket).
Variables (schedule : list Sched) (c : @Config E).
Hypothesis Hrun : run schedule (session ev done0 needed0 hush_o hush_p k) = Some c.

Lemma reached_good : Good k c.
Proof. exact (proj1 (reached k ev done0 needed0 hush_o hush_p schedule c Hrun)). Qed.

Lemma reached_inv : SInv (shell c).
Proof. exact (proj2 (reached k ev done0 needed0 hush_o hush_p schedule c Hrun)). Qed.

Lemma reached_table : WInv k (threads (shell c)) (trace (shell c)).
Proof. destruct reached_good as (_ & _ & HW & _). exact HW. Qed.

Lemma reached_paired :
  Paired (threads (shell c)) (evalthr (shell c)) (pollthr (shell c)).
Proof. destruct reached_good as (_ & _ & _ & HP & _). exact HP. Qed.

End Reached.

(** ** What holds in every run of a session *)

Section Runs.
Context {E : Type} `{GenericEval E}.

(** X1: in a session bound to a socket no move that can be asked fails:
    a line submitted while the caller is outside [eval] and the shell
    lives, a blocked caller trying its [join] again, and a turn of a
    worker that has not finished each yield the next configuration.  No
    null socket or thread pointer is dereferenced and no assertion fails,
    whatever the lines and however the workers are scheduled. *)
Theorem X1_enabled_moves_never_fail (ev : E) done0 needed0 hush_o hush_p k
    schedule (c : Config) a :
  run schedule (session ev done0 needed0 hush_o hush_p k) = Some c ->
  enabled a c ->
  exists c', step a c = Some c'.
Proof.
  intros Hrun Hen.
  destruct (step_total k a c
              (reached_good ev done0 needed0 hush_o hush_p k schedule c Hrun)
              (reached_inv ev done0 needed0 hush_o hush_p k schedule c Hrun) Hen)
    as (c' & Hstep & _).
  exists c'. exact Hstep.
Qed.

(** X2: the caller never waits in the [join] that [eval] itself makes
    before it creates the polling thread: when that [join] is reached
    [do_eval] has just joined the polling thread and set [pollthr] to
    null.  The caller only ever waits inside [do_eval] or inside the
    destructor. *)
Theorem X2_eval_never_waits_for_the_poller (ev : E) done0 needed0 hush_o hush_p k
    schedule (c : Config) :
  run schedule (session ev done0 needed0 hush_o hush_p k) = Some c ->
  blocked c <> Some InEval.
Proof.
  intros Hrun Hb.
  destruct (reached_good ev done0 needed0 hush_o hush_p k schedule c Hrun)
    as (_ & _ & _ & _ & _ & Hpc).
  rewrite Hb in Hpc. exact Hpc.
Qed.

(** X3: threads are created two per evaluation: whenever the caller is
    outside [eval] or waits in a [join], the thread table holds
    alternately an evaluation worker and the polling worker created for
    it, and so an even number of threads. *)
Theorem X3_two_threads_per_evaluation (ev : E) done0 needed0 hush_o hush_p k
    schedule (c : Config) :
  run schedule (session ev done0 needed0 hush_o hush_p k) = Some c ->
  Nat.even (length (threads (shell c))) = true /\
  forall t w, threads (shell c) !! t = Some w -> is_eval_worker w = Nat.even t.
Proof.
  intros Hrun. split.
  - apply (reached_paired ev done0 needed0 hush_o hush_p k schedule c Hrun).
  - apply (w_kind _ _ _ (reached_table ev done0 needed0 hush_o hush_p k schedule c Hrun)).
Qed.

(** X4: the expressions reach the evaluator in the order in which their
    evaluations were started, each once: the arguments of the calls of
    [eval_expr] made so far are the inputs of the evaluation workers
    created so far, in the same order, but for at most the last one, whose
    worker has not called [eval_expr] yet. *)
Theorem X4_evaluated_in_the_order_started (ev : E) done0 needed0 hush_o hush_p k
    schedule (c : Config) :
  run schedule (session ev done0 needed0 hush_o hush_p k) = Some c ->
  exists rest,
    started (trace (shell c)) = evaluated (trace (shell c)) ++ rest /\
    (length rest <= 1)%nat.
Proof.
  intros Hrun.
  pose proof (reached_table ev done0 needed0 hush_o hush_p k schedule c Hrun) as HW.
  pose proof (reached_paired ev done0 needed0 hush_o hush_p k schedule c Hrun) as HP.
  pose proof (reached_inv ev done0 needed0 hush_o hush_p k schedule c Hrun) as Hinv.
  rewrite (w_started _ _ _ HW), (w_evaluated _ _ _ HW).
  apply started_but_last.
  intros t w Hw He Hf t' w' Hlt Hw'.
  destruct w as [input done|]; [|discriminate]. cbn in Hf. subst done.
  pose proof (running_eval_worker _ t input Hinv Hw) as Heh.
  destruct HP as (_ & HPe & _). destruct (HPe t Heh) as [Hlen _].
  pose proof (lookup_lt_Some _ _ _ Hw') as Hlt'.
  assert (t' = S t) as -> by lia.
  rewrite (w_kind _ _ _ HW _ _ Hw'), even_succ_negb.
  rewrite <- (w_kind _ _ _ HW _ _ Hw). reflexivity.
Qed.

(** X5: [eval_expr] is never called on the thread that calls [eval]:
    every call of [eval_expr] is made by an evaluation worker, with the
    input that worker was created with. *)
Theorem X5_only_evaluation_workers_evaluate (ev : E) done0 needed0 hush_o hush_p k
    schedule (c : Config) i a input :
  run schedule (session ev done0 needed0 hush_o hush_p k) = Some c ->
  trace (shell c) !! i = Some {| actor := a; action := Invoke (eval_expr_call input) |} ->
  exists t, a = Thread t /\
    threads (shell c) !! t = Some (EvalWorker input true).
Proof.
  intros Hrun Hi.
  pose proof (reached_table ev done0 needed0 hush_o hush_p k schedule c Hrun) as HW.
  destruct a as [|t].
  - destruct (w_caller _ _ _ HW _ _ Hi).
  - exists t. split; [reflexivity|].
    apply (proj2 (w_worker _ _ _ HW _ _ _ Hi)).
Qed.

(** X6: the threads the shell creates only evaluate, poll and relay: an
    action of a worker is a call of [eval_expr], or a call of one of the
    three methods [poll_output] calls ([poll_result], [input_pending],
    [eval_error]) made by a polling worker, or a [Send] to the socket of
    the session made by a polling worker.  A worker never calls
    [begin_eval], [interrupt] or [clear_pending], never creates or joins a
    thread, and never calls [sendPrompt] or [SetShell]. *)
Theorem X6_workers_keep_to_their_role (ev : E) done0 needed0 hush_o hush_p k
    schedule (c : Config) i t a :
  run schedule (session ev done0 needed0 hush_o hush_p k) = Some c ->
  trace (shell c) !! i = Some {| actor := Thread t; action := a |} ->
  (exists input, a = Invoke (eval_expr_call input)) \/
  ((exists at_, threads (shell c) !! t = Some (PollWorker at_)) /\
   ((exists call, a = Invoke call /\ is_poll_call call = true) \/
    (exists text, a = Send k text))).
Proof.
  intros Hrun Hi.
  pose proof (reached_table ev done0 needed0 hush_o hush_p k schedule c Hrun) as HW.
  destruct (w_worker _ _ _ HW _ _ _ Hi) as [Hact Hths].
  destruct a as [[]|k' text| | | |]; cbn in Hact; try contradiction;
    try discriminate; eauto 10.
  destruct Hact as [-> _]. eauto 10.
Qed.

(** X7: a polling worker never writes an empty text to the socket: the
    loop of [poll_wrapper] ends at the first empty chunk without sending
    it. *)
Theorem X7_workers_send_no_empty_text (ev : E) done0 needed0 hush_o hush_p k
    schedule (c : Config) t text :
  run schedule (session ev done0 needed0 hush_o hush_p k) = Some c ->
  In (Thread t, text) (sent (trace (shell c))) ->
  text <> ""%string.
Proof.
  intros Hrun Hin.
  pose proof (reached_table ev done0 needed0 hush_o hush_p k schedule c Hrun) as HW.
  unfold sent in Hin. apply list_elem_of_In in Hin.
  apply list_elem_of_omap in Hin as ([who a] & Hin & Hsome).
  cbn [action actor] in Hsome.
  destruct a as [|k' text'| | | |]; try discriminate.
  injection Hsome as -> ->.
  apply list_elem_of_lookup in Hin as [i Hi].
  destruct (w_worker _ _ _ HW _ _ _ Hi) as [[_ Hne] _]. exact Hne.
Qed.

(** X8: a deleted shell leaves no thread behind.  Once [delete this] has
    completed, both handles are null, every thread the shell created has
    finished, the caller is not blocked, and no further move is possible:
    the trace is final. *)
Theorem X8_deleted_shell_is_at_rest (ev : E) done0 needed0 hush_o hush_p k
    schedule (c : Config) :
  run schedule (session ev done0 needed0 hush_o hush_p k) = Some c ->
  deleted (shell c) = true ->
  evalthr (shell c) = None /\ pollthr (shell c) = None /\ blocked c = None /\
  (forall t w, threads (shell c) !! t = Some w -> finished w = true) /\
  forall a, step a c = None.
Proof.
  intros Hrun Hdel.
  pose proof (reached_inv ev done0 needed0 hush_o hush_p k schedule c Hrun) as Hinv.
  destruct (reached_good ev done0 needed0 hush_o hush_p k schedule c Hrun)
    as (_ & _ & _ & _ & _ & Hpc).
  assert (Hb : blocked c = None).
  { destruct (blocked c) as [[]|]; [| |exfalso| |reflexivity];
      [destruct Hpc; congruence|contradiction|congruence|destruct Hpc; congruence]. }
  rewrite Hb in Hpc. destruct Hpc as [[_ Hd]|(_ & He & Hp)]; [congruence|].
  assert (Hfin : forall t w, threads (shell c) !! t = Some w -> finished w = true).
  { intros t w Hw. destruct (finished w) eqn:Hf; [reflexivity|].
    destruct (inv_running _ _ _ _ Hinv t w Hw Hf); congruence. }
  conjs; auto.
  intros [expr|expr| |t]; cbn [step]; unfold turn_receive, turn_resume.
  - rewrite Hb, Hdel. reflexivity.
  - rewrite Hb, Hdel. reflexivity.
  - rewrite Hb. reflexivity.
  - destruct (threads (shell c) !! t) as [w|] eqn:Hw.
    + rewrite (as_worker_finished t w _ Hw (Hfin t w Hw)). reflexivity.
    + unfold as_worker. rewrite Hw. reflexivity.
Qed.

(** X9: nothing stays queued between two calls: whenever the caller is
    outside [eval] or waits in a [join] (it is not between two of the
    accesses of a call), [pending_output] is empty, since every text
    [line_discipline] queued has been sent before [eval] returned; and
    [self_destruct] is set only in a shell that has been deleted or is
    being deleted. *)
Theorem X9_nothing_stays_queued (ev : E) done0 needed0 hush_o hush_p k
    schedule (c : Config) :
  run schedule (session ev done0 needed0 hush_o hush_p k) = Some c ->
  preempted c = false ->
  pending_output (shell c) = ""%string /\
  (self_destruct (shell c) = true ->
   deleted (shell c) = true \/ blocked c = Some InDtor).
Proof.
  intros Hrun Hpre.
  destruct (reached_good ev done0 needed0 hush_o hush_p k schedule c Hrun)
    as (_ & _ & _ & _ & Hpo & Hpc).
  split; [exact (Hpo Hpre)|]. intros Hsd.
  unfold preempted in Hpre.
  destruct (blocked c) as [[]|]; [|contradiction|auto|discriminate|].
  - destruct Hpc; congruence.
  - destruct Hpc as [[Hf _]|[Hd _]]; [congruence|auto].
Qed.

(** X22: one evaluation at a time.  A thread that has not finished is
    the one its handle points to: an evaluation worker still running is
    the thread of [evalthr], a polling worker still running is the thread
    of [pollthr].  So at no moment do two evaluation threads, or two
    polling threads, run side by side. *)
Theorem X22_one_evaluation_at_a_time (ev : E) done0 needed0 hush_o hush_p k
    schedule (c : Config) t w :
  run schedule (session ev done0 needed0 hush_o hush_p k) = Some c ->
  threads (shell c) !! t = Some w -> finished w = false ->
  (if is_eval_worker w then evalthr (shell c) else pollthr (shell c)) = Some t /\
  forall t' w', threads (shell c) !! t' = Some w' -> finished w' = false ->
    is_eval_worker w' = is_eval_worker w -> t' = t.
Proof.
  intros Hrun Hw Hf.
  pose proof (reached_inv ev done0 needed0 hush_o hush_p k schedule c Hrun) as Hinv.
  assert (Hhandle : forall t w, threads (shell c) !! t = Some w -> finished w = false ->
            (if is_eval_worker w then evalthr (shell c) else pollthr (shell c)) = Some t).
  { clear t w Hw Hf. intros t w Hw Hf. destruct w as [input done|at_]; cbn [is_eval_worker].
    - cbn in Hf. subst done. eapply running_eval_worker; eassumption.
    - eapply running_poll_worker; [exact Hinv|exact Hw|].
      intros ->. discriminate Hf. }
  split; [apply Hhandle; assumption|].
  intros t' w' Hw' Hf' Hkind.
  pose proof (Hhandle t w Hw Hf) as Ht. pose proof (Hhandle t' w' Hw' Hf') as Ht'.
  rewrite Hkind in Ht'. congruence.
Qed.

End Runs.

(** ** Lines answered by the caller *)

Section Answers.
Context {E : Type} `{GenericEval E}.


Lemma leaving_is_no_raw_control expr :
  leaves_shell expr ->
  (SYN =? uchar (char_at expr (length_of expr - 1))) ||
  (CAN =? uchar (char_at expr (length_of expr - 1))) ||
  (ESC =? uchar (char_at expr (length_of expr - 1))) = false.
Proof.
  intros [Hl| ->]; [|reflexivity].
  unfold last_byte in Hl. rewrite Hl. reflexivity.
Qed.

Lemma farewell_nonempty :
  (0 <? String.length (("" ++ "") ++ "Exiting the shell" ++ newline))%nat = true.
Proof. reflexivity. Qed.

(** X11: what leaving the shell does.  A line that ends in
    end-of-transmission or is the single period, received while the
    evaluator has no input pending and prompts are shown, starts no
    evaluation: the caller writes the farewell, calls [sendPrompt],
    unregisters the shell with [SetShell(nullptr)], and only then deletes
    it, the destructor joining the evaluation thread and then the polling
    thread that the handles still point to. *)
Theorem X11_leaving_the_shell expr k (s : GenericShell E) :
  1 <= length_of expr <= INT_MAX ->
  no_escape expr -> leaves_shell expr ->
  input_pending (evaluator s) = false ->
  socket s = Some k -> pending_output s = ""%string -> show_prompt s = true ->
  joinable (evalthr s) s -> joinable (pollthr s) s ->
  exists s', eval expr s = Ret tt s' /\
    trace s' = trace s ++ by_ (self s)
      ([Invoke input_pending_call; Send k ("Exiting the shell" ++ newline);
        SendPrompt k; SetShell k false] ++ map Join (handles s)) /\
    self_destruct s' = true /\ deleted s' = true /\
    evalthr s' = None /\ pollthr s' = None /\
    threads s' = threads s /\ evaluator s' = evaluator s.
Proof.
  intros Hlen Hno Hleave Hpend Hsock Hpo Hsp Hje Hjp.
  pose proof (leaving_is_no_raw_control expr Hleave) as Hc.
  pose proof (proj2 (exit_test expr) Hleave) as Hx.
  unfold eval.
  rewrite line_discipline_scan by lia.
  rewrite (scan_no_escape expr) by assumption.
  unfold joinable, handles in *.
  open_shell s; subst.
  destruct eth as [te|], pth as [tp|].
  all: try destruct Hje as (we & Hwe & Hfe); try destruct Hjp as (wp & Hwp & Hfp).
  all: eexists; split;
    [ shell_unfold; rewrite Hc; shell_unfold; rewrite Hpend, Hx;
      cbn [negb andb]; shell_unfold; rewrite farewell_nonempty; shell_unfold;
      repeat first [rewrite Hwe | rewrite Hfe | rewrite Hwp | rewrite Hfp
                   | progress shell_unfold]; reflexivity |].
  all: cbn [threads trace evalthr pollthr self pending_output self_destruct
            socket eval_done deleted evaluator by_ map app].
  all: rewrite <- ?app_assoc; cbn [app]; conjs; reflexivity.
Qed.

(** X13: an erase-line escape discards the line and nothing else.  When
    no thread of the shell is running, the escape nearest to the end of
    the trailing window is the escape prefix followed by the erase-line
    marker, and prompts are shown, the evaluator is neither interrupted
    nor cleared (a multi-line expression in progress stays pending), no
    thread is created or joined, and the caller writes the prompt that
    fits the state of the evaluator: the pending prompt if input is
    pending, the normal prompt otherwise. *)
Theorem X13_erase_line_resends_the_prompt expr i k (s : GenericShell E) :
  length_of expr <= INT_MAX ->
  in_window expr i ->
  escape_with expr i EL ->
  (forall j, i < j <= length_of expr - 2 ->
     ~ escape_with expr j IP /\ ~ escape_with expr j AO) ->
  quiescent s ->
  socket s = Some k -> pending_output s = ""%string -> self_destruct s = false ->
  show_prompt s = true ->
  let prompt :=
    if input_pending (evaluator s) then pending_prompt s else normal_prompt s in
  prompt <> ""%string ->
  exists s', eval expr s = Ret tt s' /\
    trace s' = trace s ++ by_ (self s) [Invoke input_pending_call; Send k prompt] /\
    evaluator s' = evaluator s /\ threads s' = threads s /\
    evalthr s' = evalthr s /\ pollthr s' = pollthr s /\
    pending_output s' = ""%string.
Proof.
  intros Hlen Hi Hesc Hlater _ Hsock Hpo Hsd Hsp prompt Hprompt.
  unfold eval.
  rewrite line_discipline_scan by (unfold in_window in Hi; lia).
  rewrite (scan_erase expr i) by assumption.
  open_shell s; subst. subst prompt.
  apply nonempty_length in Hprompt.
  shell_unfold.
  destruct (input_pending ev); shell_unfold; cbn [append].
  all: rewrite Hprompt; shell_unfold.
  all: eexists; split; [reflexivity|]; shell_unfold.
  all: rewrite <- !app_assoc; conjs; reflexivity.
Qed.

End Answers.

(** ** Lines and their trailing window *)

Lemma length_of_append (p t : string) :
  length_of (p ++ t) = length_of p + length_of t.
Proof.
  unfold length_of. induction p as [|c p IH]; [reflexivity|].
  cbn [append String.length]. lia.
Qed.

Lemma char_at_append_r (p t : string) j :
  0 <= j -> char_at (p ++ t) (length_of p + j) = char_at t j.
Proof.
  intros Hj. unfold char_at, length_of.
  replace (Z.to_nat (Z.of_nat (String.length p) + j))
    with (Z.to_nat j + String.length p)%nat by lia.
  rewrite <- append_correct2. reflexivity.
Qed.

Lemma no_escape_append (p t : string) :
  20 <= length_of t -> no_escape t -> no_escape (p ++ t).
Proof.
  intros Hlen Hno j Hj. unfold in_window in Hj. rewrite length_of_append in Hj.
  assert (Hp : 0 <= length_of p) by (unfold length_of; lia).
  assert (Hw : in_window t (j - length_of p)) by (unfold in_window; lia).
  specialize (Hno _ Hw). unfold escape_with in *.
  replace j with (length_of p + (j - length_of p)) by lia.
  replace (length_of p + (j - length_of p) + 1)
    with (length_of p + (j - length_of p + 1)) by lia.
  rewrite !char_at_append_r by lia. exact Hno.
Qed.

Lemma last_byte_append (p t : string) :
  1 <= length_of t -> last_byte (p ++ t) = last_byte t.
Proof.
  intros Hlen. unfold last_byte. rewrite length_of_append.
  replace (length_of p + length_of t - 1) with (length_of p + (length_of t - 1)) by lia.
  rewrite char_at_append_r by lia. reflexivity.
Qed.

Section Window.
Context {E : Type} `{GenericEval E}.

(** X12: an escape sequence that stands before the trailing window is not
    acted upon.  When the last twenty bytes of a line or more hold no
    recognised escape and do not end in a control byte, the line is
    evaluated whole, whatever stands before them, be it the escape prefix
    followed by the interrupt marker: the evaluator is not interrupted,
    and the evaluation worker is bound to the entire line with its
    newline put back. *)
Theorem X12_escapes_before_the_window_are_ignored prefix tail (s : GenericShell E) :
  20 <= length_of tail -> length_of (prefix ++ tail) <= INT_MAX ->
  no_escape tail -> no_raw_control tail -> last_byte tail <> EOT ->
  joinable (evalthr s) s -> joinable (pollthr s) s ->
  self_destruct s = false ->
  let input := ((prefix ++ tail) ++ newline)%string in
  let n := length (threads s) in
  exists s', eval (prefix ++ tail) s = Ret tt s' /\
    threads s' = threads s ++ [EvalWorker input false; PollWorker Polling] /\
    trace s' = trace s ++ by_ (self s)
      (Invoke input_pending_call :: map Join (handles s) ++
       [Invoke begin_eval_call; Spawn n (EvalWorker input false);
        Spawn (S n) (PollWorker Polling)]).
Proof.
  intros Htail Hlen Hno Hraw Heot Hje Hjp Hsd input n.
  set (expr := (prefix ++ tail)%string) in *.
  assert (Hlast : last_byte expr = last_byte tail)
    by (apply last_byte_append; lia).
  assert (Hlong : 20 <= length_of expr).
  { unfold expr. rewrite length_of_append. unfold length_of at 1. lia. }
  destruct Hraw as (Hesc & Hcan & Hsyn). rewrite <- Hlast in Hesc, Hcan, Hsyn, Heot.
  unfold last_byte in *.
  assert (Hc : (SYN =? uchar (char_at expr (length_of expr - 1))) ||
               (CAN =? uchar (char_at expr (length_of expr - 1))) ||
               (ESC =? uchar (char_at expr (length_of expr - 1))) = false).
  { rewrite !orb_false_iff, !Z.eqb_neq. repeat split; congruence. }
  assert (Hx : negb (input_pending (evaluator s)) &&
     ((EOT =? char_val (char_at expr (length_of expr - 1))) ||
      ((1 =? length_of expr) && (char_val "." =? char_val (char_at expr 0)))) = false).
  { apply andb_false_iff; right. apply not_true_is_false.
    rewrite exit_test. intros [Hl|He]; [exact (Heot Hl)|].
    rewrite He in Hlong. vm_compute in Hlong. apply Hlong. reflexivity. }
  pose (s1 := set_trace (trace s ++ by_ (self s) [Invoke input_pending_call])
                (set_poll_needed false s)).
  destruct (evaluation_started input s1) as (s' & Hrun & Hths & Htr & Hrest);
    [exact Hje|exact Hjp|exact Hsd|].
  exists s'. split; [|split; [exact Hths|]].
  - rewrite <- Hrun. unfold eval.
    rewrite line_discipline_scan by lia.
    rewrite (scan_no_escape expr) by (apply no_escape_append; assumption).
    subst s1 input. open_shell s.
    shell_unfold. rewrite Hc. shell_unfold. rewrite Hx. reflexivity.
  - rewrite Htr. subst s1.
    cbn [trace self set_trace set_poll_needed handles evalthr pollthr].
    rewrite <- app_assoc. reflexivity.
Qed.

End Window.

(** ** The output relay and the polling worker *)


Lemma evaluated_app tr tr' : evaluated (tr ++ tr') = evaluated tr ++ evaluated tr'.
Proof. apply omap_app. Qed.

Section Relay.
Context {E : Type} `{GenericEval E}.

(** X14: what [poll_output] leaves alone.  It always returns.  It
    leaves [pending_output] empty, and the toggles, the prompts, the
    socket, the two handles, the threads, [self_destruct] and
    [poll_needed] as they were: it changes nothing but [pending_output],
    the state of the evaluator, the trace and the latch [eval_done],
    which it never resets.  On the evaluator it calls nothing but
    [poll_result], [input_pending] and [eval_error]; and when something
    is queued it returns the whole queue without calling the evaluator
    at all. *)
Theorem X14_poll_output_keeps_the_frame (s : GenericShell E) :
  exists r s' acts,
    poll_output s = Ret r s' /\ same_frame s s' /\
    pending_output s' = ""%string /\
    trace s' = trace s ++ by_ (self s) acts /\
    forallb is_poll_action acts = true /\
    (eval_done s = true -> eval_done s' = true) /\
    (pending_output s <> ""%string ->
     r = pending_output s /\ acts = [] /\ evaluator s' = evaluator s).
Proof.
  destruct (poll_output_frame s) as (r & s' & Hrun & Hfr & Hpo).
  pose proof (quiet_poll_calls s) as Hq. rewrite Hrun in Hq.
  destruct Hq as (_ & _ & _ & _ & acts & Htr & Hok).
  exists r, s', acts. conjs; auto.
  - intros Hd.
    destruct (string_dec (pending_output s) "") as [Hp|Hp].
    2: { rewrite (poll_output_pending s Hp) in Hrun. injection Hrun as _ <-. exact Hd. }
    destruct (string_dec (fst (poll_result (evaluator s))) "") as [Hr|Hr].
    2: { rewrite (poll_output_result s Hp Hr) in Hrun. injection Hrun as _ <-. exact Hd. }
    rewrite (poll_output_drained s Hp Hr Hd) in Hrun. injection Hrun as _ <-. exact Hd.
  - intros Hne. rewrite (poll_output_pending s Hne) in Hrun.
    injection Hrun as <- <-. cbn [trace set_pending_output evaluator] in *.
    conjs; auto.
    rewrite <- (app_nil_r (trace s)) in Htr at 1.
    apply app_inv_head in Htr. unfold by_ in Htr.
    destruct acts; [reflexivity|discriminate].
Qed.





End Relay.

(** ** The caller that waits *)

Section Waiting.
Context {E : Type} `{GenericEval E}.

(** X16: a caller that waits in [do_eval] waits exactly as long as a
    thread the handles point to is running.  When it tries again while
    one of them has not finished it stays blocked at the same point, with
    the same input, and nothing is created or evaluated; when both have
    finished it joins them and starts the evaluation of the very line
    that was submitted, and [eval] returns. *)
Theorem X16_a_waiting_caller_resumes (ev : E) done0 needed0 hush_o hush_p k
    schedule (c : Config) input :
  run schedule (session ev done0 needed0 hush_o hush_p k) = Some c ->
  blocked c = Some (InDoEval input) ->
  ((exists t w, In t (handles (shell c)) /\
      threads (shell c) !! t = Some w /\ finished w = false) ->
   exists c', step Resume c = Some c' /\ blocked c' = Some (InDoEval input) /\
     threads (shell c') = threads (shell c) /\
     evaluated (trace (shell c')) = evaluated (trace (shell c))) /\
  ((forall t w, In t (handles (shell c)) ->
      threads (shell c) !! t = Some w -> finished w = true) ->
   exists c', step Resume c = Some c' /\ blocked c' = None /\
     threads (shell c') =
       threads (shell c) ++ [EvalWorker input false; PollWorker Polling]).
Proof.
  intros Hrun Hb.
  destruct (reached_good ev done0 needed0 hush_o hush_p k schedule c Hrun)
    as (_ & _ & _ & HP & _ & Hpc).
  rewrite Hb in Hpc. destruct Hpc as [Hsd _].
  assert (Hvalid : forall t, In t (handles (shell c)) ->
            exists w, threads (shell c) !! t = Some w).
  { intros t Ht. apply lookup_lt_is_Some. apply (Paired_valid _ _ _ t HP).
    unfold handles in Ht. apply in_app_or in Ht.
    destruct (evalthr (shell c)), (pollthr (shell c)); cbn in Ht;
      intuition (subst; auto). }
  clear Hrun. destruct c as [s b]. cbn [shell blocked] in *. subst b.
  cbn [step]. unfold turn_resume. cbn [blocked shell resume]. unfold as_caller. split.
  - intros (t & w & Ht & Hw & Hf).
    destruct (evaluation_waits input (set_self Caller s))
      as (s1 & Hrun & Hths & Hev & _).
    + exact Hvalid.
    + intros [Hje Hjp]. unfold joinable, handles in *.
      cbn [threads evalthr pollthr set_self] in *.
      apply in_app_or in Ht.
      destruct (evalthr s) as [te|], (pollthr s) as [tp|]; cbn in Ht;
        repeat match goal with
               | Hx : _ \/ _ |- _ => destruct Hx
               | Hx : False |- _ => destruct Hx
               | Hx : exists _, _ |- _ => destruct Hx as (? & ? & ?)
               end; subst; congruence.
    + rewrite Hrun. eexists. split; [reflexivity|]. cbn [blocked shell].
      cbn [threads trace set_self] in Hths, Hev. auto.
  - intros Hfin.
    destruct (evaluation_started input (set_self Caller s))
      as (s1 & Hrun & Hths & _).
    + unfold joinable. cbn [evalthr threads set_self].
      destruct (evalthr s) as [te|] eqn:He; [|exact I].
      destruct (Hvalid te) as [w Hw]; [unfold handles; rewrite He; left; reflexivity|].
      exists w. split; [exact Hw|]. apply (Hfin te w); [|exact Hw].
      unfold handles. rewrite He. left. reflexivity.
    + unfold joinable. cbn [pollthr threads set_self].
      destruct (pollthr s) as [tp|] eqn:Hp; [|exact I].
      assert (Hin : In tp (handles s)).
      { unfold handles. rewrite Hp. apply in_or_app. right. left. reflexivity. }
      destruct (Hvalid tp Hin) as [w Hw].
      exists w. split; [exact Hw|]. apply (Hfin tp w Hin Hw).
    + exact Hsd.
    + rewrite Hrun. eexists. split; [reflexivity|]. cbn [blocked shell].
      cbn [threads set_self] in Hths. auto.
Qed.

End Waiting.

(** ** The members the constructor leaves uninitialised *)

Section Uninitialised.
Context {E : Type} `{GenericEval E}.

Lemma iac_loop_cases expr m i :
  iac_loop (E:=E) expr m i = ret false \/
  iac_loop (E:=E) expr m i = telnet_abort \/
  iac_loop (E:=E) expr m i = telnet_erase.
Proof.
  assert (Hn : forall (n : nat) i, i = m + Z.of_nat n - 1 ->
            iac_loop (E:=E) expr m i = ret false \/
            iac_loop (E:=E) expr m i = telnet_abort \/
            iac_loop (E:=E) expr m i = telnet_erase).
  { clear i. induction n as [|n IH]; intros i ->; rewrite iac_loop_eq.
    - destruct (Z_le_dec _ _); [lia|auto].
    - destruct (Z_le_dec _ _); [|auto].
      destruct (escape_at expr _) as [[]|]; auto.
      apply IH. lia. }
  destruct (Z_le_dec m i) as [Hle|Hgt].
  - apply (Hn (Z.to_nat (i - m + 1))). lia.
  - rewrite iac_loop_eq. destruct (Z_le_dec m i); [lia|auto].
Qed.

Lemma raw_reply_nonempty (np : string) :
  (0 <? String.length (("" ++ newline) ++ np))%nat = true.
Proof. reflexivity. Qed.

Lemma reply_nonempty (x : string) :
  x <> ""%string -> (0 <? String.length ("" ++ x))%nat = true.
Proof. intros Hx. apply nonempty_length. exact Hx. Qed.

(** Running a line that [line_discipline] answers itself. *)
Ltac run_reply :=
  shell_unfold;
  repeat first
    [ rewrite raw_reply_nonempty | rewrite farewell_nonempty
    | match goal with
      | Hx : input_pending _ = _ |- _ => rewrite Hx
      | Hx : (0 <? String.length _)%nat = true |- _ => rewrite Hx
      end
    | progress (cbn [negb andb]; shell_unfold) ];
  reflexivity.

Lemma calm_eval expr d n (s : GenericShell E) :
  Calm s -> deleted s = false ->
  eval expr (garbage d n s) = eval expr s \/
  exists s', eval expr s = Ret tt s' /\
    eval expr (garbage d n s) = Ret tt (garbage d false s') /\
    poll_needed s' = false /\ Calm s'.
Proof.
  intros (Hths & He & Hp & Hsp & Hnp & Hpp & Hap & Hpo & Hsd) Hdel.
  destruct Hsd as [Hd|Hsd]; [congruence|].
  pose proof (reply_nonempty _ Hnp) as Hnp'.
  pose proof (reply_nonempty _ Hpp) as Hpp'.
  pose proof (reply_nonempty _ Hap) as Hap'.
  unfold eval, garbage, line_discipline, Calm.
  open_shell s. subst.
  destruct (0 =? length_of expr).
  { left. shell_unfold. reflexivity. }
  cbn zeta.
  destruct (iac_loop_cases expr
              (if int_of_size_t (size_t_sub (length_of expr) 20) <? 0 then 0
               else int_of_size_t (size_t_sub (length_of expr) 20))
              (int_of_size_t (size_t_sub (length_of expr) 2))) as [Hc|[Hc|Hc]];
    rewrite Hc; clear Hc.
  - destruct ((SYN =? uchar (char_at expr (length_of expr - 1))) ||
              (CAN =? uchar (char_at expr (length_of expr - 1))) ||
              (ESC =? uchar (char_at expr (length_of expr - 1)))).
    + destruct sock as [k|]; [right|left].
      * eexists. split; [run_reply|]. split; [run_reply|]. cbn. conjs; auto.
      * run_reply.
    + destruct (input_pending ev) eqn:Hpend;
      destruct ((EOT =? char_val (char_at expr (length_of expr - 1))) ||
                ((1 =? length_of expr) && (char_val "." =? char_val (char_at expr 0))));
        try (left; shell_unfold; rewrite ?Hpend; reflexivity).
      destruct sock as [k|]; [right|left].
      * eexists. split; [run_reply|]. split; [run_reply|]. cbn. conjs; auto.
      * run_reply.
  - destruct sock as [k|]; [right|left].
    + eexists. split; [run_reply|]. split; [run_reply|]. cbn. conjs; auto.
    + run_reply.
  - destruct (input_pending ev) eqn:Hpend; (destruct sock as [k|]; [right|left]).
    + eexists. split; [run_reply|]. split; [run_reply|]. cbn. conjs; auto.
    + run_reply.
    + eexists. split; [run_reply|]. split; [run_reply|]. cbn. conjs; auto.
    + run_reply.
Qed.

Lemma Calm_Early (s : GenericShell E) : Calm s -> Early s.
Proof. intros (? & ? & ? & ? & ? & ? & ? & _). unfold Early. auto 10. Qed.

Lemma nonempty_append (x y : string) :
  (0 <? String.length (x ++ y))%nat =
  (0 <? String.length x)%nat || (0 <? String.length y)%nat.
Proof. destruct x; [reflexivity|reflexivity]. Qed.

(** The head of a call does not read the two members. *)
Lemma calm_receive expr d n (s : GenericShell E) :
  Calm s -> deleted s = false ->
  match receive expr s with
  | Ret v s' =>
      receive expr (garbage d n s) = Ret v (garbage d false s') /\
      Early s' /\ deleted s' = false /\ pending_output s' = ""%string /\
      self s' = self s /\
      match v with
      | Answer ops =>
          ops <> [] /\ before_poll ops = true /\ loaded false false ops = true
      | Evaluate _ => self_destruct s' = false
      end
  | _ => False
  end.
Proof.
  intros (Hths & He & Hp & Hsp & Hnp & Hpp & Hap & Hpo & Hsd) Hdel.
  destruct Hsd as [Hd|Hsd]; [congruence|].
  unfold receive, garbage, Early.
  open_shell s. subst. shell_unfold.
  destruct (0 =? _); [conjs; auto|].
  destruct (iac_scan _ _ _) as [[]|];
    [conjs; auto; discriminate|conjs; auto; discriminate|].
  destruct (_ || _); [conjs; auto; discriminate|].
  destruct (negb (input_pending ev) && _); shell_unfold; conjs; auto; discriminate.
Qed.

(** One access does not read them either: when the caller polls a text
    is queued. *)
Lemma calm_perform op rest held tail d n (s : GenericShell E) :
  Early s -> deleted s = false -> self s = Caller -> Agenda (op :: rest) tail s ->
  loaded (0 <? String.length (pending_output s))%nat
         (0 <? String.length held)%nat (op :: rest) = true ->
  match perform op held s with
  | Ret held' s' =>
      perform op held (garbage d n s) = Ret held' (garbage d n s') /\
      Early s' /\ deleted s' = false /\ self s' = Caller /\
      match park rest held' tail s' with
      | None => pending_output s' = ""%string /\ self_destruct s' = false
      | Some InDtor => pending_output s' = ""%string
      | Some (InCall ops' held'' tail') =>
          Agenda ops' tail' s' /\
          loaded (0 <? String.length (pending_output s'))%nat
                 (0 <? String.length held'')%nat ops' = true
      | Some _ => False
      end
  | Blocked _ _ => False
  | Aborted _ _ => False
  | Fault => perform op held (garbage d n s) = Fault
  end.
Proof.
  intros (Hths & He & Hp & Hsp & Hnp & Hpp & Hap) Hdel Hself Hag Hload.
  apply nonempty_length in Hnp, Hpp, Hap.
  unfold garbage, Early.
  open_shell s. subst.
  destruct tail; cbn [Agenda] in Hag.
  - destruct Hag as [Hbefore|[[= -> ->] Hpo]].
    + destruct (before_poll_cases op rest Hbefore) as [[-> ->]|(Hop & Hrest & Hne)].
      * cbn [loaded] in Hload. call_unfold. rewrite Hload. shell_unfold.
        cbn [park]. shell_unfold.
        conjs; auto; try (apply nonempty_length; assumption).
        cbn [Agenda]. auto.
      * destruct rest as [|op' rest']; [congruence|]. cbn [park Agenda].
        destruct op; try discriminate; cbn [loaded] in Hload; call_unfold.
        4: destruct (input_pending ev).
        all: conjs; auto; try (apply nonempty_length; assumption).
        all: shell_unfold; rewrite ?nonempty_append, ?Hap, ?Hnp, ?Hpp, ?orb_true_r;
          exact Hload.
    + cbn in Hpo. subst po. call_unfold. destruct sock as [k|]; [|reflexivity].
      shell_unfold. cbn [park]. shell_unfold.
      destruct sd; conjs; auto; try (apply nonempty_length; assumption).
      cbn [Agenda]. auto.
  - destruct Hag as (Hops & Hpo & Hsd). cbn in Hpo, Hsd. subst po sd.
    destruct Hops as [[= -> ->] | [= -> ->]]; call_unfold;
      (destruct sock as [k|]; [|reflexivity]); shell_unfold; cbn [park]; shell_unfold;
      conjs; auto; try (apply nonempty_length; assumption).
    cbn [Agenda]. auto.
Qed.

(** Nor do the joins, while there is no thread to join. *)
Lemma calm_join pc d n (s : GenericShell E) :
  Early s ->
  match pc with
  | InDoEval _ => self_destruct s = false
  | InDtor => pending_output s = ""%string
  | _ => False
  end ->
  match resume pc s with
  | Ret _ s' =>
      (resume pc (garbage d n s) = Ret tt s' \/
       resume pc (garbage d n s) = Ret tt (garbage d n s') /\ Calm s')
  | Blocked _ _ => False
  | Aborted _ _ => False
  | Fault => resume pc (garbage d n s) = Fault
  end.
Proof.
  intros (Hths & He & Hp & Hsp & Hnp & Hpp & Hap) Hpc.
  unfold garbage, Calm. open_shell s. subst.
  destruct pc as [input| | |ops held tail]; try contradiction; cbn [resume].
  - subst. shell_unfold. auto.
  - subst. shell_unfold. right. conjs; auto.
Qed.

Lemma alike_step a (c1 c2 : @Config E) :
  alike c1 c2 ->
  match step a c1, step a c2 with
  | Some c1', Some c2' => alike c1' c2'
  | None, None => True
  | _, _ => False
  end.
Proof.
  intros [->|(Hb & (d & n & Hs2) & Hcond)].
  { destruct (step a c2); [left; reflexivity|exact I]. }
  destruct c1 as [s1 b1], c2 as [s2 b2]. cbn [shell blocked] in *. subst.
  destruct a as [expr|expr| |t].
  - (* a call that is not preempted *)
    rewrite !step_Submit. cbn [blocked shell].
    destruct b1 as [pc|]; [exact I|].
    change (deleted (garbage d n s1)) with (deleted s1).
    destruct (deleted s1) eqn:Hdel; [exact I|].
    unfold as_caller.
    change (set_self Caller (garbage d n s1)) with (garbage d n (set_self Caller s1)).
    destruct (calm_eval expr d n (set_self Caller s1))
      as [Heq|(s' & Hr1 & Hr2 & Hpn & Hcalm')]; [exact Hcond|exact Hdel| |].
    + rewrite Heq.
      destruct (eval expr (set_self Caller s1)); try exact I; left; reflexivity.
    + rewrite Hr1, Hr2. right. cbn [shell blocked]. conjs; auto.
      exists d, false. reflexivity.
  - (* the head of a call *)
    cbn [step]. unfold turn_receive. cbn [blocked shell].
    destruct b1 as [pc|]; [exact I|].
    change (deleted (garbage d n s1)) with (deleted s1).
    destruct (deleted s1) eqn:Hdel; [exact I|].
    change (set_self Caller (garbage d n s1)) with (garbage d n (set_self Caller s1)).
    pose proof (calm_receive expr d n (set_self Caller s1) Hcond Hdel) as Hrec.
    destruct (receive expr (set_self Caller s1)) as [v s'|pc s'| |] eqn:Hrun.
    + destruct Hrec as (-> & Hearly & Hdel' & Hpo' & Hself & Hv).
      destruct v as [ops|input].
      * destruct Hv as (Hne & Hbefore & Hload).
        destruct ops as [|op rest]; [congruence|].
        right. cbn [shell blocked park]. conjs; auto.
        -- exists d, false. reflexivity.
        -- cbn [Agenda]. auto.
        -- rewrite Hpo'. exact Hload.
      * right. cbn [shell blocked]. conjs; auto.
        exists d, false. reflexivity.
    + contradiction.
    + contradiction.
    + contradiction.
  - (* the next turn of the caller *)
    cbn [step]. unfold turn_resume. cbn [blocked shell].
    destruct b1 as [[input| | |[|op rest] held tail]|]; try exact I; try contradiction.
    + destruct Hcond as [Hearly Hsd].
      pose proof (calm_join (InDoEval input) d n (set_self Caller s1) Hearly Hsd) as Hj.
      unfold as_caller.
      change (set_self Caller (garbage d n s1)) with (garbage d n (set_self Caller s1)).
      destruct (resume (InDoEval input) (set_self Caller s1)) as [[] s'|pc s'| |];
        try contradiction.
      * destruct Hj as [-> |[-> Hcalm]]; [left; reflexivity|].
        right. cbn [shell blocked]. conjs; eauto.
      * rewrite Hj. exact I.
    + destruct Hcond as [Hearly Hpo].
      pose proof (calm_join InDtor d n (set_self Caller s1) Hearly Hpo) as Hj.
      unfold as_caller.
      change (set_self Caller (garbage d n s1)) with (garbage d n (set_self Caller s1)).
      destruct (resume InDtor (set_self Caller s1)) as [[] s'|pc s'| |];
        try contradiction.
      * destruct Hj as [-> |[-> Hcalm]]; [left; reflexivity|].
        right. cbn [shell blocked]. conjs; eauto.
      * rewrite Hj. exact I.
    + destruct Hcond as (Hearly & Hdel & Hag & Hload).
      pose proof (calm_perform op rest held tail d n (set_self Caller s1)
                    Hearly Hdel eq_refl Hag Hload) as Hp.
      change (set_self Caller (garbage d n s1)) with (garbage d n (set_self Caller s1)).
      destruct (perform op held (set_self Caller s1)) as [held' s'|pc s'| |];
        try contradiction.
      * destruct Hp as (-> & Hearly' & Hdel' & Hself' & Hpark).
        change (park rest held' tail (garbage d n s'))
          with (park rest held' tail s').
        right. cbn [shell blocked]. split; [reflexivity|]. split; [eauto|].
        destruct (park rest held' tail s') as [[input| | |ops' held'' tail']|];
          try contradiction.
        -- auto.
        -- destruct Hpark as [Hag' Hload']. auto.
        -- destruct Hpark as [Hpo' Hsd'].
           destruct Hearly' as (? & ? & ? & ? & ? & ? & ?). unfold Calm. auto 12.
      * rewrite Hp. exact I.
  - cbn [step shell blocked]. unfold as_worker.
    change (threads (garbage d n s1)) with (threads s1).
    assert (Hths : threads s1 = []).
    { destruct b1 as [[input| | |ops held tail]|]; try contradiction;
        [destruct Hcond as [Hc _]|destruct Hcond as [Hc _]|destruct Hcond as [Hc _]|
         pose proof (Calm_Early _ Hcond) as Hc];
        destruct Hc as (Hc & _); exact Hc. }
    rewrite Hths. rewrite lookup_nil. exact I.
Qed.

Lemma alike_run schedule (c1 c2 : @Config E) :
  alike c1 c2 ->
  match run schedule c1, run schedule c2 with
  | Some c1', Some c2' => alike c1' c2'
  | None, None => True
  | _, _ => False
  end.
Proof.
  revert c1 c2. induction schedule as [|a rest IH]; intros c1 c2 Hal; cbn [run].
  - exact Hal.
  - pose proof (alike_step a c1 c2 Hal) as Hstep.
    destruct (step a c1) as [c1'|], (step a c2) as [c2'|]; try contradiction.
    + apply IH. exact Hstep.
    + exact I.
Qed.

Lemma session_alike (ev : E) d1 n1 d2 n2 hush_o k :
  alike (session ev d1 n1 hush_o false k) (session ev d2 n2 hush_o false k).
Proof.
  right. unfold Calm. cbn. conjs; auto; try discriminate.
  exists d2, n2. reflexivity.
Qed.

(** X17: the two members the constructor leaves uninitialised,
    [eval_done] and [poll_needed], never show.  Two sessions that show
    their prompts and differ only in the values these two members happen
    to hold make the same moves under every schedule, and reach
    configurations that are equal but for these two members: the same
    trace (so the same calls on the evaluator and the same texts on the
    socket), the same threads, the same evaluator.  [eval] writes
    [poll_needed] before it reads it, and [eval_done] is not read before
    [do_eval] has reset it. *)
Theorem X17_uninitialised_members_never_show (ev : E) d1 n1 d2 n2 hush_o k schedule :
  option_map (fun c => (forget (shell c), blocked c))
    (run schedule (session ev d1 n1 hush_o false k)) =
  option_map (fun c => (forget (shell c), blocked c))
    (run schedule (session ev d2 n2 hush_o false k)).
Proof.
  pose proof (alike_run schedule _ _ (session_alike ev d1 n1 d2 n2 hush_o k)) as Hal.
  destruct (run schedule (session ev d1 n1 hush_o false k)) as [c1|],
           (run schedule (session ev d2 n2 hush_o false k)) as [c2|];
    try contradiction; [|reflexivity].
  destruct Hal as [->|(Hb & (d & n & Hs2) & _)]; [reflexivity|].
  cbn [option_map]. rewrite Hb, Hs2. reflexivity.
Qed.


Lemma session_shell (ev : E) done0 needed0 hush_o hush_p k :
  session ev done0 needed0 hush_o hush_p k =
  {| shell :=
       {| show_output := negb hush_o;
          show_prompt := negb hush_p;
          normal_prompt := "> ";
          pending_prompt := "... ";
          abort_prompt := abort_acknowledgment;
          pending_output := "";
          evaluator := ev;
          socket := Some k;
          evalthr := None;
          pollthr := None;
          self_destruct := false;
          eval_done := done0;
          poll_needed := needed0;
          threads := [];
          trace := [{| actor := Caller; action := SetShell k true |}];
          self := Caller;
          deleted := false |};
     blocked := None |}.
Proof. reflexivity. Qed.

Lemma empty_reply : (0 <? String.length ("" ++ ""))%nat = false.
Proof. reflexivity. Qed.

(** X18: with prompts hushed the uninitialised [eval_done] is read.  In
    a session whose prompts are hushed, the reply to an erase-line escape
    received first is empty, [poll_output] falls through to the evaluator,
    and, the evaluator having no output, to the latch: if [eval_done]
    happens to hold true nothing more is called; if it holds false the
    latch is taken and [input_pending] (and [eval_error], when no input is
    pending and output is hushed as well) is called.  The text written is
    empty either way. *)
Theorem X18_hushed_session_reads_eval_done (ev : E) done0 needed0 hush_o k expr i :
  fst (poll_result ev) = ""%string ->
  length_of expr <= INT_MAX ->
  in_window expr i ->
  escape_with expr i EL ->
  (forall j, i < j <= length_of expr - 2 ->
     ~ escape_with expr j IP /\ ~ escape_with expr j AO) ->
  let e' := snd (poll_result ev) in
  exists c, run [Submit expr] (session ev done0 needed0 hush_o true k) = Some c /\
    blocked c = None /\ eval_done (shell c) = true /\
    trace (shell c) =
      by_ Caller
        ([SetShell k true; Invoke poll_result_call] ++
         (if done0 then []
          else Invoke input_pending_call ::
               if input_pending e' || negb hush_o then []
               else [Invoke eval_error_call]) ++
         [Send k ""%string]).
Proof.
  intros Hout Hlen Hi Hesc Hlater e'. subst e'.
  rewrite session_shell. cbn [run]. rewrite step_Submit.
  cbn [blocked shell deleted]. unfold as_caller, eval.
  rewrite line_discipline_scan by (unfold in_window in Hi; lia).
  rewrite (scan_erase expr i) by assumption.
  shell_unfold. rewrite empty_reply. shell_unfold.
  rewrite Hout. change ((0 <? String.length "")%nat) with false. shell_unfold.
  destruct done0, hush_o, (input_pending (snd (poll_result ev)));
    repeat (progress (cbn [negb andb orb]; shell_unfold));
    try (destruct (eval_error (snd (poll_result ev)));
         repeat (progress (cbn [negb andb orb]; shell_unfold))).
  all: eexists; (split; [reflexivity|]); cbn; auto.
Qed.

End Uninitialised.

(** ** The two toggles *)

Section Toggles.
Context {E : Type} `{GenericEval E}.

(** X19: the two toggles hush prompts only.  Whatever [hush_output] and
    [hush_prompt] are set to, [poll_output] returns the same chunk as
    without them as long as something is queued, or the evaluator has
    output, or the latch [eval_done] is already set: queued text and the
    output of the evaluator are relayed even when output is hushed.  The
    toggles are read only when the prompt is chosen. *)
Theorem X19_toggles_hush_prompts_only hush_o hush_p (s : GenericShell E) :
  pending_output s <> ""%string \/
  fst (poll_result (evaluator s)) <> ""%string \/
  eval_done s = true ->
  exists r s',
    poll_output s = Ret r s' /\
    (hush_output hush_o;; hush_prompt hush_p;; poll_output) s =
      Ret r (set_show_prompt (negb hush_p) (set_show_output (negb hush_o) s')).
Proof.
  intros Hcase. open_shell s.
  destruct (0 <? String.length po)%nat eqn:Hpo.
  { do 2 eexists. split; shell_unfold; rewrite Hpo; reflexivity. }
  destruct (0 <? String.length (fst (poll_result ev)))%nat eqn:Hr.
  { do 2 eexists. split; shell_unfold; rewrite Hpo; shell_unfold; rewrite Hr;
      reflexivity. }
  apply empty_length in Hpo, Hr.
  destruct Hcase as [Hc|[Hc|Hc]]; [contradiction|contradiction|]. subst ed.
  do 2 eexists. split; shell_unfold.
  all: rewrite (proj2 (empty_length _) Hpo); shell_unfold.
  all: rewrite (proj2 (empty_length _) Hr); reflexivity.
Qed.

End Toggles.

(** ** Lines received while a thread is running *)

Section Busy.
Context {E : Type} `{GenericEval E}.

Lemma not_joinable (s : GenericShell E) t w :
  In t (handles s) -> threads s !! t = Some w -> finished w = false ->
  ~ (joinable (evalthr s) s /\ joinable (pollthr s) s).
Proof.
  intros Hin Hw Hf [Hje Hjp]. unfold joinable, handles in *.
  apply in_app_or in Hin.
  destruct (evalthr s) as [te|], (pollthr s) as [tp|]; cbn in Hin;
    repeat match goal with
           | Hx : _ \/ _ |- _ => destruct Hx
           | Hx : False |- _ => destruct Hx
           | Hx : exists _, _ |- _ => destruct Hx as (? & ? & ?)
           end; subst; congruence.
Qed.

(** X20: a line to evaluate that arrives while a thread of the previous
    evaluation is still running, and that goes on running during the
    call, makes the caller wait inside [do_eval]: [eval] does not return;
    all the caller has done is to ask [input_pending] and to join the
    threads that had finished, so that no thread is created and neither
    [begin_eval] nor [eval_expr] is called; and the line, with its
    newline put back, is what the caller will evaluate when it
    resumes. *)
Theorem X20_a_new_line_waits_for_the_previous expr (s : GenericShell E) t w :
  1 <= length_of expr <= INT_MAX ->
  no_escape expr -> no_raw_control expr ->
  input_pending (evaluator s) = true \/ ~ leaves_shell expr ->
  (forall t', In t' (handles s) -> exists w', threads s !! t' = Some w') ->
  In t (handles s) -> threads s !! t = Some w -> finished w = false ->
  exists s1 joined, eval expr s = Blocked (InDoEval (expr ++ newline)) s1 /\
    threads s1 = threads s /\
    trace s1 = trace s ++
      by_ (self s) (Invoke input_pending_call :: map Join joined) /\
    evaluated (trace s1) = evaluated (trace s).
Proof.
  intros Hlen Hno Hraw Hexit Hvalid Hin Hw Hf.
  destruct Hraw as (Hesc & Hcan & Hsyn). unfold last_byte in *.
  assert (Hc : (SYN =? uchar (char_at expr (length_of expr - 1))) ||
               (CAN =? uchar (char_at expr (length_of expr - 1))) ||
               (ESC =? uchar (char_at expr (length_of expr - 1))) = false).
  { rewrite !orb_false_iff, !Z.eqb_neq. repeat split; congruence. }
  assert (Hx : negb (input_pending (evaluator s)) &&
     ((EOT =? char_val (char_at expr (length_of expr - 1))) ||
      ((1 =? length_of expr) && (char_val "." =? char_val (char_at expr 0)))) = false).
  { destruct Hexit as [-> | Hx]; [reflexivity|].
    apply andb_false_iff; right. apply not_true_is_false.
    rewrite exit_test. exact Hx. }
  pose (s0 := set_trace (trace s ++ by_ (self s) [Invoke input_pending_call])
                (set_poll_needed false s)).
  destruct (evaluation_waits (expr ++ newline) s0)
    as (s1 & Hrun & Hths & Hev & _ & _ & joined & Htr).
  - exact Hvalid.
  - exact (not_joinable s0 t w Hin Hw Hf).
  - exists s1, joined. split; [|split; [exact Hths|split]].
    + rewrite <- Hrun. unfold eval.
      rewrite line_discipline_scan by lia.
      rewrite (scan_no_escape expr) by assumption.
      subst s0. open_shell s.
      shell_unfold. rewrite Hc. shell_unfold. rewrite Hx. reflexivity.
    + rewrite Htr. subst s0. cbn [trace self set_trace set_poll_needed].
      rewrite <- app_assoc. reflexivity.
    + rewrite Hev. subst s0. cbn [trace set_trace set_poll_needed].
      rewrite evaluated_app. cbn. apply app_nil_r.
Qed.

(** X21: leaving the shell while the evaluation thread is still running
    and no polling thread is.  If the evaluation thread takes no turn
    during the call, the caller writes the farewell, calls [sendPrompt]
    and unregisters the shell with [SetShell(nullptr)] at once, and then
    waits in the destructor: the shell is not deleted before the thread
    has been joined, and until then the thread goes on running on a shell
    that the socket no longer knows. *)
Theorem X21_leaving_while_a_thread_runs expr k (s : GenericShell E) te w :
  1 <= length_of expr <= INT_MAX ->
  no_escape expr -> leaves_shell expr ->
  input_pending (evaluator s) = false ->
  socket s = Some k -> pending_output s = ""%string -> show_prompt s = true ->
  deleted s = false -> no_poller s ->
  evalthr s = Some te -> threads s !! te = Some w -> finished w = false ->
  exists s1, eval expr s = Blocked InDtor s1 /\
    trace s1 = trace s ++ by_ (self s)
      [Invoke input_pending_call; Send k ("Exiting the shell" ++ newline);
       SendPrompt k; SetShell k false] /\
    self_destruct s1 = true /\ deleted s1 = false /\
    threads s1 = threads s /\ evalthr s1 = Some te.
Proof.
  intros Hlen Hno Hleave Hpend Hsock Hpo Hsp Hdel _ He Hw Hf.
  pose proof (leaving_is_no_raw_control expr Hleave) as Hc.
  pose proof (proj2 (exit_test expr) Hleave) as Hx.
  unfold eval.
  rewrite line_discipline_scan by lia.
  rewrite (scan_no_escape expr) by assumption.
  open_shell s; subst.
  eexists; split;
    [ shell_unfold; rewrite Hc; shell_unfold; rewrite Hpend, Hx;
      cbn [negb andb]; shell_unfold; rewrite farewell_nonempty; shell_unfold;
      rewrite Hw, Hf; reflexivity |].
  cbn [threads trace evalthr self self_destruct deleted by_ map].
  rewrite <- ?app_assoc; cbn [app]. conjs; reflexivity.
Qed.

End Busy.

(** ** The joins *)

Lemma JInv_event ths eh ph tr e :
  JInv ths eh ph tr -> is_plain (action e) = true -> JInv ths eh ph (tr ++ [e]).
Proof.
  intros [Hvalid Hapart Hheld Hknown Honce] Hplain.
  destruct e as [who act]. cbn [action] in Hplain.
  split; try assumption.
  - intros t Ht i a Hi. apply lookup_snoc in Hi as [Hi|[_ Hi]].
    + exact (Hheld t Ht i a Hi).
    + injection Hi as _ <-. discriminate.
  - intros i a t Hi. apply lookup_snoc in Hi as [Hi|[_ Hi]]; [eauto|].
    injection Hi as _ <-. discriminate.
  - intros i j a a' t Hi Hj.
    apply lookup_snoc in Hi as [Hi|[_ Hi]]; [|injection Hi as _ <-; discriminate].
    apply lookup_snoc in Hj as [Hj|[_ Hj]]; [|injection Hj as _ <-; discriminate].
    eauto.
Qed.

Lemma JInv_events ths eh ph tr evs :
  JInv ths eh ph tr -> Forall (fun e => is_plain (action e) = true) evs ->
  JInv ths eh ph (tr ++ evs).
Proof.
  intros Hinv Hevs. revert tr Hinv.
  induction Hevs as [|e evs He _ IH]; intros tr Hinv.
  - rewrite app_nil_r. exact Hinv.
  - change (e :: evs) with ([e] ++ evs). rewrite app_assoc.
    apply IH. apply JInv_event; assumption.
Qed.

Lemma joined_snoc tr who t :
  joined_once tr -> not_joined tr t ->
  joined_once (tr ++ [{| actor := who; action := Join t |}]).
Proof.
  intros Honce Hnot i j a a' t' Hi Hj.
  apply lookup_snoc in Hi as [Hi|[-> Hi]]; apply lookup_snoc in Hj as [Hj|[-> Hj]].
  - eauto.
  - injection Hj as _ ->. destruct (Hnot i a Hi).
  - injection Hi as _ ->. destruct (Hnot j a' Hj).
  - reflexivity.
Qed.

Lemma JInv_join_eval ths t ph tr who :
  JInv ths (Some t) ph tr ->
  JInv ths None ph (tr ++ [{| actor := who; action := Join t |}]).
Proof.
  intros [Hvalid Hapart Hheld Hknown Honce]. split.
  - intros t' [Ht|Ht]; [discriminate|]. apply Hvalid. auto.
  - discriminate.
  - intros t' [Ht|Ht]; [discriminate|]. intros i a Hi.
    apply lookup_snoc in Hi as [Hi|[_ Hi]].
    + exact (Hheld t' (or_intror Ht) i a Hi).
    + injection Hi as _ ->. exact (Hapart t eq_refl Ht).
  - intros i a t' Hi. apply lookup_snoc in Hi as [Hi|[_ Hi]]; [eauto|].
    injection Hi as _ ->. apply Hvalid. auto.
  - apply joined_snoc; [exact Honce|]. apply Hheld. auto.
Qed.

Lemma JInv_join_poll ths eh t tr who :
  JInv ths eh (Some t) tr ->
  JInv ths eh None (tr ++ [{| actor := who; action := Join t |}]).
Proof.
  intros [Hvalid Hapart Hheld Hknown Honce]. split.
  - intros t' [Ht|Ht]; [|discriminate]. apply Hvalid. auto.
  - discriminate.
  - intros t' [Ht|Ht]; [|discriminate]. intros i a Hi.
    apply lookup_snoc in Hi as [Hi|[_ Hi]].
    + exact (Hheld t' (or_introl Ht) i a Hi).
    + injection Hi as _ ->. exact (Hapart t Ht eq_refl).
  - intros i a t' Hi. apply lookup_snoc in Hi as [Hi|[_ Hi]]; [eauto|].
    injection Hi as _ ->. apply Hvalid. auto.
  - apply joined_snoc; [exact Honce|]. apply Hheld. auto.
Qed.

Lemma not_joined_new ths eh ph tr e :
  JInv ths eh ph tr -> is_plain (action e) = false ->
  (forall t, action e <> Join t) ->
  not_joined (tr ++ [e]) (length ths).
Proof.
  intros Hinv _ Hne i a Hi. apply lookup_snoc in Hi as [Hi|[_ Hi]].
  - pose proof (j_known _ _ _ _ Hinv _ _ _ Hi). lia.
  - destruct e as [who act]. injection Hi as _ <-. exact (Hne _ eq_refl).
Qed.

Lemma JInv_spawn_eval ths ph tr who w :
  JInv ths None ph tr ->
  JInv (ths ++ [w]) (Some (length ths)) ph
    (tr ++ [{| actor := who; action := Spawn (length ths) w |}]).
Proof.
  intros Hinv. pose proof Hinv as [Hvalid Hapart Hheld Hknown Honce].
  split.
  - intros t [[= <-]|Ht]; rewrite length_app; cbn; [lia|].
    specialize (Hvalid t (or_intror Ht)). lia.
  - intros t [= <-] Ht. specialize (Hvalid _ (or_intror Ht)). lia.
  - intros t [[= <-]|Ht].
    + eapply not_joined_new; [exact Hinv|reflexivity|discriminate].
    + intros i a Hi. apply lookup_snoc in Hi as [Hi|[_ Hi]]; [|discriminate].
      exact (Hheld t (or_intror Ht) i a Hi).
  - intros i a t Hi. rewrite length_app. cbn.
    apply lookup_snoc in Hi as [Hi|[_ Hi]]; [|discriminate].
    specialize (Hknown _ _ _ Hi). lia.
  - intros i j a a' t Hi Hj.
    apply lookup_snoc in Hi as [Hi|[_ Hi]]; [|discriminate].
    apply lookup_snoc in Hj as [Hj|[_ Hj]]; [|discriminate].
    eauto.
Qed.

Lemma JInv_spawn_poll ths eh tr who w :
  JInv ths eh None tr ->
  JInv (ths ++ [w]) eh (Some (length ths))
    (tr ++ [{| actor := who; action := Spawn (length ths) w |}]).
Proof.
  intros Hinv. pose proof Hinv as [Hvalid Hapart Hheld Hknown Honce].
  split.
  - intros t [Ht|[= <-]]; rewrite length_app; cbn; [|lia].
    specialize (Hvalid t (or_introl Ht)). lia.
  - intros t Ht [= <-]. specialize (Hvalid _ (or_introl Ht)). lia.
  - intros t [Ht|[= <-]].
    + intros i a Hi. apply lookup_snoc in Hi as [Hi|[_ Hi]]; [|discriminate].
      exact (Hheld t (or_introl Ht) i a Hi).
    + eapply not_joined_new; [exact Hinv|reflexivity|discriminate].
  - intros i a t Hi. rewrite length_app. cbn.
    apply lookup_snoc in Hi as [Hi|[_ Hi]]; [|discriminate].
    specialize (Hknown _ _ _ Hi). lia.
  - intros i j a a' t Hi Hj.
    apply lookup_snoc in Hi as [Hi|[_ Hi]]; [|discriminate].
    apply lookup_snoc in Hj as [Hj|[_ Hj]]; [|discriminate].
    eauto.
Qed.

Lemma JInv_insert ths eh ph tr t w :
  JInv ths eh ph tr -> JInv (<[t := w]> ths) eh ph tr.
Proof.
  intros [Hvalid Hapart Hheld Hknown Honce].
  split; try assumption; intros *; rewrite length_insert; eauto.
Qed.

Lemma JInv_start : JInv [] None None [].
Proof.
  split.
  - intros t [Ht|Ht]; discriminate.
  - discriminate.
  - intros t [Ht|Ht]; discriminate.
  - intros i a t Hi. rewrite lookup_nil in Hi. discriminate.
  - intros i j a a' t Hi. rewrite lookup_nil in Hi. discriminate.
Qed.

Section JoinsCode.
Context {E : Type} `{GenericEval E}.

Lemma JS_qstep (s s' : GenericShell E) :
  JS s -> qstep is_plain s s' -> JS s'.
Proof.
  intros Hinv (Ht & He & Hp & Hs & acts & Htr & Hok).
  unfold JS. rewrite Ht, He, Hp, Htr.
  apply JInv_events; [exact Hinv|].
  unfold by_. apply Forall_map. apply Forall_forall. intros a Ha.
  cbn [action]. rewrite forallb_forall in Hok. apply Hok.
  apply list_elem_of_In. exact Ha.
Qed.

Lemma upholds_bind {A B} P (m : M E A) Q (f : A -> M E B) R :
  upholds P m Q -> (forall a, upholds (Q a) (f a) R) -> upholds P (bind m f) R.
Proof.
  intros Hm Hf s HP. unfold bind. specialize (Hm s HP).
  destruct (m s) as [a s'| | |]; try exact I; [|exact Hm].
  apply (Hf a s' Hm).
Qed.

Lemma upholds_weaken {A} (P P' : GenericShell E -> Prop) (m : M E A)
    (Q Q' : A -> GenericShell E -> Prop) :
  upholds P' m Q' -> (forall s, P s -> P' s) -> (forall a s, Q' a s -> Q a s) ->
  upholds P m Q.
Proof.
  intros Hm HP HQ s Hs. specialize (Hm s (HP s Hs)).
  destruct (m s); auto.
Qed.

Lemma upholds_ret {A} (P : GenericShell E -> Prop) (a : A) :
  upholds P (ret a) (fun _ => P).
Proof. intros s HP. exact HP. Qed.

Lemma upholds_quiet {A} (m : M E A) :
  quiet is_plain m -> upholds (E:=E) JS m (fun _ => JS).
Proof.
  intros Hm s Hinv. specialize (Hm s).
  destruct (m s) as [a s'| | |]; try exact I; [|contradiction].
  eapply JS_qstep; eassumption.
Qed.

(** The joins of [do_eval] and of the destructor. *)
Lemma upholds_join_eval pc :
  upholds (E:=E) JS
    (h <- gets evalthr;;
     match h with
     | Some t => thread_join pc t;; modify (set_evalthr None)
     | None => ret tt
     end)
    (fun _ s => JS s /\ evalthr s = None).
Proof.
  intros s Hinv. unfold JS in *. open_shell s.
  destruct eth as [t|]; shell_unfold; [|auto].
  destruct (ths !! t) as [w|] eqn:Hw; [|exact I].
  destruct (finished w) eqn:Hf; shell_unfold; [|auto].
  split; [|reflexivity]. apply JInv_join_eval. exact Hinv.
Qed.

Lemma upholds_join_poll pc :
  upholds (E:=E) (fun s => JS s /\ evalthr s = None)
    (h <- gets pollthr;;
     match h with
     | Some t => thread_join pc t;; modify (set_pollthr None)
     | None => ret tt
     end)
    (fun _ s => JS s /\ evalthr s = None /\ pollthr s = None).
Proof.
  intros s [Hinv Heh]. unfold JS in *. open_shell s. subst eth.
  destruct pth as [t|]; shell_unfold; [|auto].
  destruct (ths !! t) as [w|] eqn:Hw; [|exact I].
  destruct (finished w) eqn:Hf; shell_unfold; [|auto].
  conjs; auto. apply JInv_join_poll. exact Hinv.
Qed.

Lemma upholds_do_eval input :
  upholds (E:=E) JS (do_eval input) (fun _ s => JS s /\ pollthr s = None).
Proof.
  unfold do_eval.
  eapply upholds_bind; [apply upholds_join_eval|intros ?].
  eapply upholds_bind; [apply upholds_join_poll|intros ?].
  intros s (Hinv & Heh & Hph). unfold JS in *. open_shell s. subst eth pth.
  shell_unfold. split; [|reflexivity].
  apply JInv_spawn_eval. apply JInv_event; [exact Hinv|reflexivity].
Qed.

Lemma upholds_dtor : upholds (E:=E) JS GenericShell_dtor (fun _ => JS).
Proof.
  unfold GenericShell_dtor.
  eapply upholds_bind; [apply upholds_join_eval|intros ?].
  eapply upholds_weaken; [apply (upholds_join_poll InDtor)| |]; cbn; tauto.
Qed.

(** [eval_relay] joins the polling thread, if the handle is set, just
    before the handle is given the new thread. *)
Lemma upholds_eval_relay : upholds (E:=E) JS eval_relay (fun _ => JS).
Proof.
  unfold eval_relay.
  intros s Hinv. unfold bind at 1, gets.
  destruct (poll_needed s) eqn:Hpn; cbn [negb].
  - unfold JS in *. open_shell s.
    destruct pth as [t|]; shell_unfold.
    + destruct (ths !! t) as [w|] eqn:Hw; [|exact I].
      destruct (finished w) eqn:Hf; shell_unfold; [|exact Hinv].
      apply JInv_spawn_poll. apply JInv_join_poll. exact Hinv.
    + apply JInv_spawn_poll. exact Hinv.
  - revert s Hinv Hpn.
    assert (Hq : upholds (E:=E) JS (retstr <- poll_output;; socket_Send retstr)
                   (fun _ => JS)).
    { apply upholds_quiet.
      apply quiet_bind; [apply quiet_weaken, quiet_poll_output|
                         intros ?; apply quiet_Send]. }
    intros s Hinv _. exact (Hq s Hinv).
Qed.

Lemma upholds_eval_destruct : upholds (E:=E) JS eval_destruct (fun _ => JS).
Proof.
  unfold eval_destruct.
  eapply upholds_bind; [apply upholds_quiet; quiet_tac|intros sd].
  destruct sd; [|apply upholds_ret].
  eapply upholds_bind; [apply upholds_quiet, quiet_sendPrompt|intros ?].
  eapply upholds_bind; [apply upholds_quiet, quiet_SetShell|intros ?].
  unfold delete_this.
  eapply upholds_bind; [apply upholds_dtor|intros ?].
  apply upholds_quiet. quiet_tac.
Qed.

Lemma upholds_line_discipline expr :
  upholds (E:=E) JS (line_discipline expr) (fun _ => JS).
Proof.
  assert (Hdo : forall input, upholds (E:=E) JS (do_eval input) (fun _ => JS)).
  { intros input. eapply upholds_weaken; [apply upholds_do_eval|auto|].
    intros ? s [Hs _]. exact Hs. }
  unfold line_discipline.
  destruct (0 =? length_of expr); [apply Hdo|].
  cbn zeta.
  eapply upholds_bind;
    [apply upholds_quiet, quiet_weaken, quiet_iac_loop_any|intros returned].
  destruct returned; [apply upholds_ret|].
  destruct (_ || _).
  - apply upholds_quiet, quiet_weaken.
    apply quiet_bind; [apply quiet_interrupt|intros ?].
    apply quiet_bind; [apply quiet_clear_pending|intros ?].
    quiet_tac.
  - eapply upholds_bind;
      [apply upholds_quiet, quiet_weaken, quiet_input_pending|intros pending].
    destruct (_ && _); [|apply Hdo].
    apply upholds_quiet. quiet_tac.
Qed.

Lemma upholds_eval expr : upholds (E:=E) JS (eval expr) (fun _ => JS).
Proof.
  unfold eval.
  eapply upholds_bind; [apply upholds_quiet; quiet_tac|intros ?].
  eapply upholds_bind; [apply upholds_line_discipline|intros ?].
  eapply upholds_bind; [apply upholds_eval_relay|intros ?].
  apply upholds_eval_destruct.
Qed.

Lemma upholds_delete_this : upholds (E:=E) JS delete_this (fun _ => JS).
Proof.
  unfold delete_this.
  eapply upholds_bind; [apply upholds_dtor|intros ?].
  apply upholds_quiet. quiet_tac.
Qed.

Lemma upholds_resume pc : upholds (E:=E) JS (resume pc) (fun _ => JS).
Proof.
  destruct pc as [input| | |ops held tail]; cbn [resume].
  - eapply upholds_bind.
    { eapply upholds_weaken; [apply upholds_do_eval|auto|].
      intros ? s [Hs _]. exact Hs. }
    intros ?. cbn beta.
    eapply upholds_bind; [apply upholds_eval_relay|intros ?].
    apply upholds_eval_destruct.
  - eapply upholds_bind; [apply upholds_eval_relay|intros ?].
    apply upholds_eval_destruct.
  - apply upholds_delete_this.
  - eapply upholds_bind; [apply upholds_quiet, quiet_perform_all|intros ?].
    destruct tail; [apply upholds_eval_destruct|apply upholds_delete_this].
Qed.

Lemma quiet_turn_joins {A} (m : M E A) (s s' : GenericShell E) a :
  quiet is_plain m -> JS s -> m (set_self Caller s) = Ret a s' -> JS s'.
Proof.
  intros Hm Hinv Hrun. specialize (Hm (set_self Caller s)). rewrite Hrun in Hm.
  eapply (JS_qstep (set_self Caller s)); [exact Hinv|exact Hm].
Qed.

Lemma as_caller_joins (m : M E unit) (s : GenericShell E) c :
  upholds (E:=E) JS m (fun _ => JS) -> JS s -> as_caller m s = Some c ->
  JS (shell c).
Proof.
  intros Hm Hinv Hc. unfold as_caller in Hc.
  specialize (Hm (set_self Caller s) Hinv).
  destruct (m (set_self Caller s)) as [a s'|pc s'| |]; try discriminate.
  - injection Hc as <-. exact Hm.
  - injection Hc as <-. exact Hm.
Qed.

Lemma as_worker_joins t (s s' : GenericShell E) :
  JS s -> as_worker t s = Some s' -> JS s'.
Proof.
  intros Hinv Hrun.
  destruct (threads s !! t) as [[input [|]|at_]|] eqn:Hw.
  - rewrite (as_worker_finished t _ s Hw eq_refl) in Hrun. discriminate.
  - rewrite (as_worker_eval t input s Hw) in Hrun. injection Hrun as <-.
    unfold JS in *. cbn [threads evalthr pollthr trace set_threads set_evaluator
                         set_trace set_self by_ map].
    apply JInv_insert. apply JInv_event; [exact Hinv|reflexivity].
  - unfold as_worker in Hrun. rewrite Hw in Hrun.
    destruct at_ as [|retstr|]; [| |discriminate]; cbn [poll_wrapper_turn] in Hrun;
      unfold bind in Hrun.
    + pose proof (quiet_weaken _ quiet_poll_output (set_self (Thread t) s)) as Hq.
      destruct (poll_output (set_self (Thread t) s)) as [r s1| | |]; try discriminate.
      assert (Hinv1 : JS s1) by (eapply JS_qstep; [|exact Hq]; exact Hinv).
      destruct (0 <? String.length r)%nat; injection Hrun as <-;
        unfold JS in *; cbn [threads evalthr pollthr trace set_threads];
        apply JInv_insert; exact Hinv1.
    + pose proof (quiet_Send retstr (set_self (Thread t) s)) as Hq.
      destruct (socket_Send retstr (set_self (Thread t) s)) as [r s1| | |];
        try discriminate.
      assert (Hinv1 : JS s1) by (eapply JS_qstep; [|exact Hq]; exact Hinv).
      injection Hrun as <-.
      unfold JS in *; cbn [threads evalthr pollthr trace set_threads];
        apply JInv_insert; exact Hinv1.
  - unfold as_worker in Hrun. rewrite Hw in Hrun. discriminate.
Qed.

Lemma step_joins a (c c' : @Config E) :
  JS (shell c) -> step a c = Some c' -> JS (shell c').
Proof.
  intros Hinv Hstep. destruct a as [expr|expr| |t]; cbn [step] in Hstep.
  - rewrite step_Submit_eval in Hstep.
    destruct (blocked c); [discriminate|].
    destruct (deleted (shell c)); [discriminate|].
    eapply as_caller_joins; [apply upholds_eval|exact Hinv|exact Hstep].
  - unfold turn_receive in Hstep.
    destruct (blocked c); [discriminate|].
    destruct (deleted (shell c)); [discriminate|].
    destruct (receive expr (set_self Caller (shell c))) as [[ops|input] s'| | |] eqn:Hrun;
      try discriminate; injection Hstep as <-;
      exact (quiet_turn_joins _ _ _ _ (quiet_receive expr) Hinv Hrun).
  - unfold turn_resume in Hstep.
    destruct (blocked c) as [[input| | |[|op rest] held tail]|]; try discriminate.
    1-3: eapply as_caller_joins; [apply upholds_resume|exact Hinv|exact Hstep].
    destruct (perform op held (set_self Caller (shell c))) as [held' s'| | |] eqn:Hrun;
      try discriminate.
    injection Hstep as <-.
    exact (quiet_turn_joins _ _ _ _ (quiet_perform op held) Hinv Hrun).
  - destruct (as_worker t (shell c)) as [s'|] eqn:Hw; [|discriminate].
    injection Hstep as <-. eapply as_worker_joins; eassumption.
Qed.

Lemma run_joins schedule (c c' : @Config E) :
  JS (shell c) -> run schedule c = Some c' -> JS (shell c').
Proof.
  revert c. induction schedule as [|a rest IH]; intros c Hinv Hrun; cbn [run] in Hrun.
  - injection Hrun as <-. exact Hinv.
  - destruct (step a c) as [c1|] eqn:Hstep; [|discriminate].
    eapply IH; [|exact Hrun]. eapply step_joins; eassumption.
Qed.

Lemma session_joins (ev : E) done0 needed0 hush_o hush_p k :
  JS (shell (session ev done0 needed0 hush_o hush_p k)).
Proof.
  unfold JS. cbn.
  apply (JInv_event [] None None []); [apply JInv_start|reflexivity].
Qed.

(** X23: no thread is joined twice.  In every run of a session each
    [join] is made on a thread that has not been joined before, and a
    handle that is set never points to a thread that has been joined:
    after each [join] of [do_eval] and of the destructor the handle is
    set to null, and after the [join] of [eval] it is given the new
    thread. *)
Theorem X23_no_thread_is_joined_twice (ev : E) done0 needed0 hush_o hush_p k
    schedule (c : Config) :
  run schedule (session ev done0 needed0 hush_o hush_p k) = Some c ->
  joined_once (trace (shell c)) /\
  forall t, In t (handles (shell c)) -> not_joined (trace (shell c)) t.
Proof.
  intros Hrun.
  pose proof (run_joins schedule _ c (session_joins ev done0 needed0 hush_o hush_p k)
                Hrun) as Hinv.
  split; [apply (j_once _ _ _ _ Hinv)|].
  intros t Hin. apply (j_held _ _ _ _ Hinv).
  unfold handles in Hin. apply in_app_or in Hin.
  destruct (evalthr (shell c)), (pollthr (shell c)); cbn in Hin;
    intuition (subst; auto).
Qed.

End JoinsCode.

(** * Calls that are answered without an evaluation *)

(** ** What the caller has done *)

Lemma deeds_app tr1 tr2 : deeds (tr1 ++ tr2) = deeds tr1 ++ deeds tr2.
Proof. unfold deeds. apply omap_app. Qed.

Lemma deeds_thread t acts : deeds (by_ (Thread t) acts) = [].
Proof. induction acts as [|a acts IH]; [reflexivity|exact IH]. Qed.

Lemma deeds_snoc_thread tr t a :
  deeds (tr ++ [{| actor := Thread t; action := a |}]) = deeds tr.
Proof. rewrite deeds_app. apply app_nil_r. Qed.

Lemma deeds_snoc_caller tr a :
  is_poll_action a = false ->
  deeds (tr ++ [{| actor := Caller; action := a |}]) = deeds tr ++ [a].
Proof. intros Ha. rewrite deeds_app. unfold deeds at 2. cbn. rewrite Ha. reflexivity. Qed.

Lemma deeds_poll_calls who acts :
  forallb is_poll_action acts = true -> deeds (by_ who acts) = [].
Proof.
  induction acts as [|a acts IH]; [reflexivity|].
  cbn [forallb]. intros Hall. apply andb_prop in Hall as [Ha Hall].
  change (by_ who (a :: acts)) with ([Build_Event who a] ++ by_ who acts).
  rewrite deeds_app, (IH Hall), app_nil_r.
  unfold deeds. cbn. destruct who; [rewrite Ha|]; reflexivity.
Qed.

Section Served.
Context {E : Type} `{GenericEval E}.

(** A turn of a worker changes nothing the caller relies on, and nothing
    at all of the queue unless the worker is a polling thread. *)
Lemma as_worker_frame t (s s' : GenericShell E) :
  as_worker t s = Some s' ->
  socket s' = socket s /\ self_destruct s' = self_destruct s /\
  deleted s' = deleted s /\ abort_prompt s' = abort_prompt s /\
  normal_prompt s' = normal_prompt s /\ evalthr s' = evalthr s /\
  pollthr s' = pollthr s /\ length (threads s') = length (threads s) /\
  deeds (trace s') = deeds (trace s) /\
  (no_poller s -> no_poller s' /\ pending_output s' = pending_output s).
Proof.
  intros Hrun.
  destruct (threads s !! t) as [[input [|]|at_]|] eqn:Hw.
  - rewrite (as_worker_finished t _ s Hw eq_refl) in Hrun. discriminate.
  - rewrite (as_worker_eval t input s Hw) in Hrun. injection Hrun as <-.
    cbn [socket self_destruct deleted abort_prompt normal_prompt evalthr pollthr
         threads trace pending_output set_threads set_evaluator set_trace set_self self].
    rewrite length_insert, deeds_snoc_thread.
    conjs; auto. intros Hno. split; [|reflexivity].
    intros t' at_ Ht'. cbn [threads set_threads] in Ht'.
    destruct (decide (t' = t)) as [->|Hne].
    + rewrite list_lookup_insert_eq in Ht' by (eapply lookup_lt_Some; exact Hw).
      discriminate.
    + rewrite list_lookup_insert_ne in Ht' by congruence. exact (Hno t' at_ Ht').
  - assert (Hno' : no_poller s -> at_ = PollDone) by (intros Hno; exact (Hno t at_ Hw)).
    unfold as_worker in Hrun. rewrite Hw in Hrun.
    destruct at_ as [|retstr|]; [| |discriminate]; cbn [poll_wrapper_turn] in Hrun;
      unfold bind in Hrun.
    + destruct (poll_output_frame (set_self (Thread t) s)) as (r & s1 & Hs1 & Hfr & _).
      pose proof (quiet_poll_calls (set_self (Thread t) s)) as Hq.
      rewrite Hs1 in Hrun, Hq.
      destruct Hq as (_ & _ & _ & _ & acts & Htr & Hacts).
      destruct Hfr as (_ & _ & Hnp & _ & Hap & Hsock & Heth & Hpth & Hsd & _ &
                       Hths & _ & Hdel).
      cbn [socket self_destruct deleted abort_prompt normal_prompt evalthr pollthr
           threads trace set_self self] in *.
      assert (Hd : deeds (trace s1) = deeds (trace s)).
      { rewrite Htr, deeds_app, (deeds_poll_calls _ _ Hacts), app_nil_r. reflexivity. }
      destruct (0 <? String.length r)%nat; injection Hrun as <-;
        cbn [socket self_destruct deleted abort_prompt normal_prompt evalthr pollthr
             threads trace pending_output set_threads];
        rewrite length_insert, Hths; conjs; auto;
        intros Hno; specialize (Hno' Hno); discriminate.
    + unfold socket_Send, on_socket, bind, gets, log, modify, set_worker in Hrun.
      cbn [socket set_self] in Hrun.
      destruct (socket s) as [k|] eqn:Hsock; [|discriminate]. injection Hrun as <-.
      cbn [socket self_destruct deleted abort_prompt normal_prompt evalthr pollthr
           threads trace pending_output set_threads set_trace set_self self].
      rewrite length_insert.
      rewrite deeds_snoc_thread.
      conjs; auto. intros Hno; specialize (Hno' Hno); discriminate.
  - unfold as_worker in Hrun. rewrite Hw in Hrun. discriminate.
Qed.

(** ** What the head of [eval] decides *)

Lemma scan_none expr (n : nat) i :
  (forall j, i - Z.of_nat n < j <= i -> escape_at expr j = None) ->
  scan expr n i = None.
Proof.
  revert i. induction n as [|n IH]; intros i Hno; [reflexivity|].
  cbn [scan]. rewrite Hno by lia. apply IH. intros j Hj. apply Hno. lia.
Qed.

Lemma scan_nearest expr (n : nat) i j t :
  i - Z.of_nat n < j <= i -> escape_at expr j = Some t ->
  (forall j', j < j' <= i -> escape_at expr j' = None \/ escape_at expr j' = Some t) ->
  scan expr n i = Some t.
Proof.
  revert i. induction n as [|n IH]; intros i Hj Ht Hlater; [lia|].
  cbn [scan]. destruct (Z.eq_dec i j) as [->|Hne].
  - rewrite Ht. reflexivity.
  - destruct (Hlater i) as [-> | ->]; [lia| |reflexivity].
    apply IH; [lia|exact Ht|]. intros j' Hj'. apply Hlater. lia.
Qed.

Lemma iac_scan_no_escape expr :
  no_escape expr ->
  iac_scan expr (Z.max 0 (length_of expr - 20)) (length_of expr - 2) = None.
Proof.
  intros Hno. unfold iac_scan. apply scan_none.
  intros j Hj. apply escape_at_none, Hno. unfold in_window. lia.
Qed.

Lemma iac_scan_abort expr i :
  in_window expr i ->
  escape_with expr i IP \/ escape_with expr i AO ->
  (forall j, i < j <= length_of expr - 2 -> ~ escape_with expr j EL) ->
  iac_scan expr (Z.max 0 (length_of expr - 20)) (length_of expr - 2) =
  Some TelnetAbort.
Proof.
  intros Hi Hesc Hlater. unfold iac_scan, in_window in *.
  apply (scan_nearest expr _ _ i); [lia|apply escape_at_abort, Hesc|].
  intros j Hj.
  destruct (escape_at expr j) as [[]|] eqn:Hj'; auto.
  apply escape_at_erase in Hj'. destruct (Hlater j Hj Hj').
Qed.

Lemma iac_scan_erase expr i :
  in_window expr i ->
  escape_with expr i EL ->
  (forall j, i < j <= length_of expr - 2 ->
     ~ escape_with expr j IP /\ ~ escape_with expr j AO) ->
  iac_scan expr (Z.max 0 (length_of expr - 20)) (length_of expr - 2) =
  Some TelnetErase.
Proof.
  intros Hi Hesc Hlater. unfold iac_scan, in_window in *.
  apply (scan_nearest expr _ _ i); [lia|apply escape_at_erase, Hesc|].
  intros j Hj.
  destruct (escape_at expr j) as [[]|] eqn:Hj'; auto.
  apply escape_at_abort in Hj'. destruct (Hlater j Hj) as [? ?].
  destruct Hj'; contradiction.
Qed.

(** The head of [eval] on a line that is not empty and shorter than
    2^31 bytes. *)
Lemma receive_scan expr :
  1 <= length_of expr <= INT_MAX ->
  receive (E:=E) expr =
  (modify (set_poll_needed false);;
   match iac_scan expr (Z.max 0 (length_of expr - 20)) (length_of expr - 2) with
   | Some TelnetAbort =>
       ret (Answer [OpInterrupt; OpClearPending; OpPutAbort; OpPoll; OpSend])
   | Some TelnetErase =>
       ret (Answer [OpGetPrompt; OpPutHeld; OpPoll; OpSend])
   | None =>
       let len := length_of expr in
       let c := uchar (char_at expr (len - 1)) in
       if (SYN =? c) || (CAN =? c) || (ESC =? c) then
         ret (Answer [OpInterrupt; OpClearPending; OpPut newline; OpPutNormal;
                      OpPoll; OpSend])
       else
         pending <- evaluator_input_pending;;
         if negb pending &&
            ((EOT =? char_val (char_at expr (len - 1))) ||
             ((1 =? len) && (char_val "." =? char_val (char_at expr 0))))
         then
           modify (set_self_destruct true);;
           sp <- gets show_prompt;;
           ret (Answer (if sp
                        then [OpPut ""; OpPut ("Exiting the shell" ++ newline);
                              OpPoll; OpSend]
                        else [OpPut ""; OpPoll; OpSend]))
         else ret (Evaluate (expr ++ newline))
   end).
Proof.
  intros Hlen. unfold receive.
  destruct (Z.eqb_spec 0 (length_of expr)); [lia|].
  cbn zeta.
  rewrite !int_of_size_t_sub by (unfold INT_MAX in *; lia).
  rewrite window_low. reflexivity.
Qed.

(** ** One turn of a call that is being served *)

Lemma puts_prelude ap np op rest :
  is_prelude op = true -> is_blind op = true ->
  puts ap np (op :: rest) =
  (match op with
   | OpPutAbort => ap
   | OpPut text => text
   | OpPutNormal => np
   | _ => ""
   end ++ puts ap np rest)%string.
Proof. destruct op; try discriminate; reflexivity. Qed.

Lemma serving_resume k plan target (c0 c c' : @Config E) :
  target <> ""%string ->
  Serving k plan target c0 c -> step Resume c = Some c' ->
  Serving k plan target c0 c' /\
  S (length (accesses_left (blocked c'))) = length (accesses_left (blocked c)).
Proof.
  intros Htarget (Hsock & Hsd & Hdel & Hap & Hnp & Heth & Hpth & Hlen & Hno & Hb) Hstep.
  cbn [step] in Hstep. unfold turn_resume in Hstep.
  destruct c as [s b]. cbn [shell blocked] in *.
  destruct b as [[input| | |ops held [|]]|]; try contradiction;
    [|discriminate Hstep].
  destruct Hb as [(Hbefore & Hblind & Hdeeds & Hqueue)|(-> & Hdeeds & Hheld)].
  - destruct ops as [|op rest]; [discriminate|].
    destruct (before_poll_cases op rest Hbefore) as [[-> ->]|(Hop & Hrest & Hne)].
    + (* the caller polls *)
      cbn [perform] in Hstep.
      destruct (poll_output_frame (set_self Caller s)) as (r & s1 & Hs1 & Hfr & _).
      pose proof (quiet_poll_calls (set_self Caller s)) as Hq.
      rewrite Hs1 in Hstep, Hq. injection Hstep as <-.
      destruct Hq as (_ & _ & _ & _ & acts & Htr & Hacts).
      destruct Hfr as (_ & _ & Hnp1 & _ & Hap1 & Hsock1 & Heth1 & Hpth1 & Hsd1 & _ &
                       Hths1 & _ & Hdel1).
      cbn [socket self_destruct deleted abort_prompt normal_prompt evalthr pollthr
           threads trace set_self self] in *.
      assert (Hd : deeds (trace s1) = deeds (trace s)).
      { rewrite Htr, deeds_app, (deeds_poll_calls _ _ Hacts), app_nil_r. reflexivity. }
      split; [|reflexivity].
      unfold Serving. cbn [shell blocked park].
      rewrite Hsock1, Hsd1, Hdel1, Hap1, Hnp1, Heth1, Hpth1, Hths1, Hd.
      conjs; auto.
      { intros Hn0 t at_ Ht. rewrite Hths1 in Ht. exact (Hno Hn0 t at_ Ht). }
      right. split; [reflexivity|]. split; [exact (Hdeeds r)|].
      intros Hn0. specialize (Hqueue Hn0). cbn [puts] in Hqueue.
      rewrite append_empty_r in Hqueue.
      assert (Hpo : pending_output (set_self Caller s) <> ""%string)
        by (cbn [pending_output set_self]; congruence).
      rewrite (poll_output_pending _ Hpo) in Hs1. injection Hs1 as <- _.
      exact Hqueue.
    + (* an access before the poll *)
      cbn [forallb] in Hblind. apply andb_prop in Hblind as [Hbl Hblind].
      pose proof (puts_prelude (abort_prompt (shell c0)) (normal_prompt (shell c0))
                    op rest Hop Hbl) as Hputs.
      destruct rest as [|op' rest']; [congruence|].
      assert (Hgoal : forall (s' : GenericShell E) (piece : string) (done : list Action),
        socket s' = socket s -> self_destruct s' = self_destruct s ->
        deleted s' = deleted s -> abort_prompt s' = abort_prompt s ->
        normal_prompt s' = normal_prompt s -> evalthr s' = evalthr s ->
        pollthr s' = pollthr s -> threads s' = threads s ->
        pending_output s' = (pending_output s ++ piece)%string ->
        deeds (trace s') = deeds (trace s) ++ done ->
        (forall text, done = op_deeds k text op) ->
        puts (abort_prompt (shell c0)) (normal_prompt (shell c0)) (op :: op' :: rest') =
          (piece ++ puts (abort_prompt (shell c0)) (normal_prompt (shell c0))
                     (op' :: rest'))%string ->
        Serving k plan target c0
          {| shell := s'; blocked := Some (InCall (op' :: rest') held ThenDestruct) |}).
      { intros s' piece done Hs1 Hs2 Hs3 Hs4 Hs5 Hs6 Hs7 Hs8 Hs9 Hs10 Hdone Hpiece.
        unfold Serving. cbn [shell blocked].
        rewrite Hs1, Hs2, Hs3, Hs4, Hs5, Hs6, Hs7, Hs8, Hs9, Hs10.
        conjs; auto.
        { intros Hn0 t at_ Ht. rewrite Hs8 in Ht. exact (Hno Hn0 t at_ Ht). }
        left. conjs; auto.
        - intros text. specialize (Hdeeds text).
          unfold ops_deeds in *. cbn [map concat] in Hdeeds.
          rewrite <- (Hdone text) in Hdeeds.
          rewrite <- app_assoc. exact Hdeeds.
        - intros Hn0. rewrite append_assoc, <- Hpiece. exact (Hqueue Hn0). }
      split.
      2:{ destruct (perform op held (set_self Caller s)) as [h' s'| | |];
            try discriminate.
          injection Hstep as <-. reflexivity. }
      clear Hdeeds Hqueue Hno Hlen Heth Hpth.
      remember (abort_prompt (shell c0)) as ap0 eqn:Hap0.
      remember (normal_prompt (shell c0)) as np0 eqn:Hnp0.
      clear Hap0 Hnp0.
      open_shell s. subst.
      destruct op; try discriminate; call_unfold_in Hstep; cbn [park] in Hstep;
        injection Hstep as <-.
      * eapply (Hgoal _ ""%string [Invoke interrupt_call]); try reflexivity.
        -- cbn [pending_output]. symmetry. apply append_empty_r.
        -- cbn [trace]. apply deeds_snoc_caller. reflexivity.
      * eapply (Hgoal _ ""%string [Invoke clear_pending_call]); try reflexivity.
        -- cbn [pending_output]. symmetry. apply append_empty_r.
        -- cbn [trace]. apply deeds_snoc_caller. reflexivity.
      * eapply (Hgoal _ _ []); try reflexivity.
        cbn [trace]. symmetry. apply app_nil_r.
      * eapply (Hgoal _ _ []); try reflexivity.
        cbn [trace]. symmetry. apply app_nil_r.
      * eapply (Hgoal _ _ []); try reflexivity.
        cbn [trace]. symmetry. apply app_nil_r.
  - (* the caller sends *)
    cbn [perform] in Hstep.
    unfold socket_Send, on_socket, bind, gets, log, modify, ret in Hstep.
    cbn [socket set_self] in Hstep. rewrite Hsock in Hstep.
    injection Hstep as <-.
    cbn [park self_destruct set_trace set_self]. rewrite Hsd.
    split; [|reflexivity].
    unfold Serving.
    cbn [shell blocked self_destruct set_trace set_self socket deleted
         abort_prompt normal_prompt evalthr pollthr threads trace self].
    conjs; auto.
    exists held. split; [|exact Hheld].
    rewrite deeds_snoc_caller by reflexivity. exact Hdeeds.
Qed.

Lemma serving_worker k plan target (c0 c : @Config E) t s' :
  Serving k plan target c0 c -> as_worker t (shell c) = Some s' ->
  Serving k plan target c0 {| shell := s'; blocked := blocked c |}.
Proof.
  intros (Hsock & Hsd & Hdel & Hap & Hnp & Heth & Hpth & Hlen & Hno & Hb) Hrun.
  destruct (as_worker_frame t _ _ Hrun)
    as (Hs1 & Hs2 & Hs3 & Hs4 & Hs5 & Hs6 & Hs7 & Hs8 & Hs9 & Hs10).
  unfold Serving. cbn [shell blocked].
  rewrite Hs1, Hs2, Hs3, Hs4, Hs5, Hs6, Hs7, Hs8, Hs9.
  conjs; auto.
  { intros Hn0. apply Hs10. exact (Hno Hn0). }
  destruct (blocked c) as [[input| | |ops held [|]]|]; try contradiction; auto.
  destruct Hb as [(Hbefore & Hblind & Hdeeds & Hqueue)|Hb]; [left|right; exact Hb].
  conjs; auto. intros Hn0.
  destruct (Hs10 (Hno Hn0)) as [_ ->]. exact (Hqueue Hn0).
Qed.

(** Every interleaving of the turns of the caller and of the workers. *)
Lemma serving_run k plan target (c0 : @Config E) schedule :
  target <> ""%string -> forallb is_turn schedule = true ->
  forall c c', Serving k plan target c0 c -> run schedule c = Some c' ->
    Serving k plan target c0 c' /\
    (caller_turns schedule + length (accesses_left (blocked c')) =
     length (accesses_left (blocked c)))%nat.
Proof.
  intros Htarget. induction schedule as [|a rest IH]; intros Hall c c' Hs Hrun;
    cbn [run] in Hrun.
  - injection Hrun as <-. split; [exact Hs|reflexivity].
  - cbn [forallb] in Hall. apply andb_prop in Hall as [Ha Hall].
    destruct (step a c) as [c1|] eqn:Hstep; [|discriminate].
    destruct a as [expr|expr| |t]; try discriminate.
    + destruct (serving_resume k plan target c0 c c1 Htarget Hs Hstep) as [Hs1 Hlen1].
      destruct (IH Hall c1 c' Hs1 Hrun) as [Hs' Hlen']. split; [exact Hs'|].
      cbn [caller_turns]. lia.
    + cbn [step] in Hstep.
      destruct (as_worker t (shell c)) as [s1|] eqn:Hw; [|discriminate].
      injection Hstep as <-.
      destruct (IH Hall _ c' (serving_worker k plan target c0 c t s1 Hs Hw) Hrun)
        as [Hs' Hlen'].
      split; [exact Hs'|]. exact Hlen'.
Qed.

(** A call that is being served can always take its next turn. *)
Lemma serving_progress k plan target (c0 c : @Config E) :
  Serving k plan target c0 c -> blocked c <> None ->
  exists c', step Resume c = Some c'.
Proof.
  intros (Hsock & Hsd & Hdel & Hap & Hnp & Heth & Hpth & Hlen & Hno & Hb) Hne.
  cbn [step]. unfold turn_resume.
  destruct c as [s b]. cbn [shell blocked] in *.
  destruct b as [[input| | |ops held [|]]|]; try contradiction.
  assert (HC : socket (set_self Caller s) = Some k) by exact Hsock.
  destruct Hb as [(Hbefore & Hblind & _)|(-> & _)].
  - destruct ops as [|op rest]; [discriminate|].
    destruct (before_poll_cases op rest Hbefore) as [[-> ->]|(Hop & Hrest & Hne')].
    + cbn [perform].
      destruct (poll_output_frame (set_self Caller s)) as (r & s1 & -> & _).
      eauto.
    + cbn [forallb] in Hblind. apply andb_prop in Hblind as [Hbl _].
      destruct op; try discriminate; cbn [perform]; unfold bind; eauto.
  - cbn [perform]. unfold socket_Send, on_socket, bind, gets, log, modify, ret.
    rewrite HC. eauto.
Qed.

(** The configuration in which the caller has received a line that is
    answered by [plan]. *)
Lemma serving_start k plan (s : GenericShell E) :
  socket s = Some k -> self_destruct s = false -> deleted s = false ->
  pending_output s = ""%string ->
  before_poll plan = true -> forallb is_blind plan = true ->
  Serving k plan (puts (abort_prompt s) (normal_prompt s) plan)
    {| shell := s; blocked := None |}
    {| shell := set_poll_needed false (set_self Caller s);
       blocked := Some (InCall plan "" ThenDestruct) |}.
Proof.
  intros Hsock Hsd Hdel Hpo Hbefore Hblind.
  unfold Serving.
  cbn [shell blocked socket self_destruct deleted abort_prompt normal_prompt
       evalthr pollthr threads trace pending_output set_poll_needed set_self].
  conjs; auto. left. conjs; auto.
  intros _. rewrite Hpo. reflexivity.
Qed.

(** What is concluded of a call that is being served, at any moment. *)
Lemma serving_end k plan target (c0 c : @Config E) :
  Serving k plan target c0 c ->
  (blocked c = None \/
   exists ops held, blocked c = Some (InCall ops held ThenDestruct)) /\
  evalthr (shell c) = evalthr (shell c0) /\ pollthr (shell c) = pollthr (shell c0) /\
  length (threads (shell c)) = length (threads (shell c0)) /\
  exists text,
    deeds (trace (shell c)) ++ ops_deeds k text (accesses_left (blocked c)) =
    deeds (trace (shell c0)) ++ ops_deeds k text plan /\
    (no_poller (shell c0) -> text = target).
Proof.
  intros (Hsock & Hsd & Hdel & Hap & Hnp & Heth & Hpth & Hlen & Hno & Hb).
  destruct (blocked c) as [[input| | |ops held [|]]|]; try contradiction.
  - conjs; eauto.
    destruct Hb as [(Hbefore & Hblind & Hdeeds & Hqueue)|(-> & Hdeeds & Hheld)].
    + exists target. split; [apply Hdeeds|auto].
    + exists held. split; [exact Hdeeds|exact Hheld].
  - conjs; auto.
    destruct Hb as (text & Hdeeds & Htext). exists text.
    cbn [accesses_left]. unfold ops_deeds at 1. cbn [map concat].
    rewrite app_nil_r. auto.
Qed.

End Served.

Section AnsweredLines.
Context {E : Type} `{GenericEval E}.

Lemma received_answer expr k plan (c c1 : @Config E) :
  receive expr (set_self Caller (shell c)) =
    Ret (Answer plan) (set_poll_needed false (set_self Caller (shell c))) ->
  before_poll plan = true -> forallb is_blind plan = true ->
  blocked c = None -> socket (shell c) = Some k ->
  self_destruct (shell c) = false -> pending_output (shell c) = ""%string ->
  step (Receive expr) c = Some c1 ->
  Serving k plan (puts (abort_prompt (shell c)) (normal_prompt (shell c)) plan) c c1.
Proof.
  intros Hrec Hbefore Hblind Hb Hsock Hsd Hpo Hstep.
  cbn [step] in Hstep. unfold turn_receive in Hstep. rewrite Hb in Hstep.
  destruct (deleted (shell c)) eqn:Hdel; [discriminate|].
  rewrite Hrec in Hstep.
  destruct plan as [|op rest]; [discriminate|]. cbn [park] in Hstep.
  injection Hstep as <-.
  destruct c as [s b]. cbn [shell blocked] in *. subst b.
  apply serving_start; assumption.
Qed.

(** A line received in a session: the caller was outside [eval] and the
    shell alive, bound to its socket, not being left and with nothing
    queued. *)
Lemma received_outside (ev : E) done0 needed0 hush_o hush_p k before
    (c : @Config E) expr rest c' :
  run before (session ev done0 needed0 hush_o hush_p k) = Some c ->
  run (Receive expr :: rest) c = Some c' ->
  exists c1, step (Receive expr) c = Some c1 /\ run rest c1 = Some c' /\
    blocked c = None /\ deleted (shell c) = false /\
    socket (shell c) = Some k /\
    abort_prompt (shell c) = abort_acknowledgment /\
    self_destruct (shell c) = false /\ pending_output (shell c) = ""%string.
Proof.
  intros Hbefore Hrun.
  destruct (reached_good ev done0 needed0 hush_o hush_p k before c Hbefore)
    as (Hsock & Hap & _ & _ & Hpo & Hpc).
  cbn [run] in Hrun.
  destruct (step (Receive expr) c) as [c1|] eqn:Hstep; [|discriminate].
  assert (Hb : blocked c = None /\ deleted (shell c) = false).
  { cbn [step] in Hstep. unfold turn_receive in Hstep.
    destruct (blocked c); [discriminate|].
    destruct (deleted (shell c)); [discriminate|]. auto. }
  destruct Hb as [Hb Hdel]. rewrite Hb in Hpc.
  destruct Hpc as [[Hsd _]|[Hd _]]; [|congruence].
  unfold preempted in Hpo. rewrite Hb in Hpo. specialize (Hpo eq_refl).
  exists c1. auto 10.
Qed.

(** C2, amended: a line, shorter than 2^31 bytes, whose trailing window
    holds the escape prefix followed by the interrupt or the abort-output
    marker, with no erase-line escape nearer to the end of the line, and
    that is received in a session, is answered in five turns of the
    caller, whatever threads are running and however their turns are
    interleaved with them.  The caller never waits in a [join].  Apart
    from the calls that its own [poll_output] makes on the evaluator, its
    actions are, in this order, one call of [interrupt], one of
    [clear_pending] and one [Send] -- so it calls neither [eval_expr] nor
    [begin_eval] and creates and joins no thread --; at every moment of
    the call what it has done and what its remaining accesses will do
    add up to these three; it can always take its next turn; and when no
    polling thread is running the text it sends is the acknowledgment
    0xFF 0xFB 0x06 0x0A. *)
Theorem C2_nearest_escape_interrupts (ev : E) done0 needed0 hush_o hush_p k
    before (c : Config) expr i schedule c' :
  run before (session ev done0 needed0 hush_o hush_p k) = Some c ->
  length_of expr <= INT_MAX -> in_window expr i ->
  escape_with expr i IP \/ escape_with expr i AO ->
  (forall j, i < j <= length_of expr - 2 -> ~ escape_with expr j EL) ->
  forallb is_turn schedule = true ->
  run (Receive expr :: schedule) c = Some c' ->
  (blocked c' = None \/
   exists ops held, blocked c' = Some (InCall ops held ThenDestruct)) /\
  (caller_turns schedule + length (accesses_left (blocked c')) = 5)%nat /\
  (blocked c' <> None -> exists c'', step Resume c' = Some c'') /\
  exists text,
    deeds (trace (shell c')) ++ ops_deeds k text (accesses_left (blocked c')) =
    deeds (trace (shell c)) ++
      [Invoke interrupt_call; Invoke clear_pending_call; Send k text] /\
    (no_poller (shell c) -> text = abort_acknowledgment).
Proof.
  intros Hbefore Hlen Hi Hesc Hlater Hturns Hrun.
  destruct (received_outside ev done0 needed0 hush_o hush_p k before c expr
              schedule c' Hbefore Hrun)
    as (c1 & Hstep & Hrest & Hb & Hdel & Hsock & Hack & Hsd & Hpo).
  set (plan := [OpInterrupt; OpClearPending; OpPutAbort; OpPoll; OpSend]).
  assert (Hrec : receive expr (set_self Caller (shell c)) =
                 Ret (Answer plan) (set_poll_needed false (set_self Caller (shell c)))).
  { rewrite receive_scan by (unfold in_window in Hi; lia).
    rewrite (iac_scan_abort expr i) by assumption. reflexivity. }
  assert (Hs1 : Serving k plan
            (puts (abort_prompt (shell c)) (normal_prompt (shell c)) plan) c c1).
  { apply (received_answer expr); auto. }
  assert (Htarget : puts (abort_prompt (shell c)) (normal_prompt (shell c)) plan =
                    abort_acknowledgment).
  { cbn [puts plan]. rewrite append_empty_r. exact Hack. }
  rewrite Htarget in Hs1.
  assert (Hleft : length (accesses_left (blocked c1)) = 5%nat).
  { cbn [step] in Hstep. unfold turn_receive in Hstep. rewrite Hb, Hdel, Hrec in Hstep.
    injection Hstep as <-. reflexivity. }
  destruct (serving_run k plan abort_acknowledgment c schedule
              ltac:(discriminate) Hturns c1 c' Hs1 Hrest) as [Hs' Hcount].
  destruct (serving_end k plan abort_acknowledgment c c' Hs')
    as (Hpc & _ & _ & _ & text & Hdeeds & Htext).
  split; [exact Hpc|]. split; [lia|].
  split; [apply (serving_progress k plan abort_acknowledgment c c' Hs')|].
  exists text. split; [exact Hdeeds|exact Htext].
Qed.

(** C8, amended: a line, not empty and shorter than 2^31 bytes, with
    no recognised escape in its trailing window and whose last byte is
    escape (0x1B), cancel (0x18) or quit (0x16), and that is received in
    a session, is answered in six turns of the caller, whatever threads
    are running and however their turns are interleaved with them.  The
    caller never waits in a [join].  Apart from the calls that its own
    [poll_output] makes on the evaluator, its actions are, in this order,
    one call of [interrupt], one of [clear_pending] and one [Send] -- so
    it calls neither [eval_expr] nor [begin_eval] and creates and joins
    no thread --; at every moment of the call what it has done and what
    its remaining accesses will do add up to these three; it can always
    take its next turn; and when no polling thread is running the text
    it sends is a newline followed by the normal prompt. *)
Theorem C8_raw_control (ev : E) done0 needed0 hush_o hush_p k
    before (c : Config) expr schedule c' :
  run before (session ev done0 needed0 hush_o hush_p k) = Some c ->
  1 <= length_of expr <= INT_MAX ->
  no_escape expr ->
  last_byte expr = ESC \/ last_byte expr = CAN \/ last_byte expr = SYN ->
  forallb is_turn schedule = true ->
  run (Receive expr :: schedule) c = Some c' ->
  (blocked c' = None \/
   exists ops held, blocked c' = Some (InCall ops held ThenDestruct)) /\
  (caller_turns schedule + length (accesses_left (blocked c')) = 6)%nat /\
  (blocked c' <> None -> exists c'', step Resume c' = Some c'') /\
  exists text,
    deeds (trace (shell c')) ++ ops_deeds k text (accesses_left (blocked c')) =
    deeds (trace (shell c)) ++
      [Invoke interrupt_call; Invoke clear_pending_call; Send k text] /\
    (no_poller (shell c) -> text = (newline ++ normal_prompt (shell c))%string).
Proof.
  intros Hbefore Hlen Hno Hlast Hturns Hrun.
  destruct (received_outside ev done0 needed0 hush_o hush_p k before c expr
              schedule c' Hbefore Hrun)
    as (c1 & Hstep & Hrest & Hb & Hdel & Hsock & Hack & Hsd & Hpo).
  set (plan := [OpInterrupt; OpClearPending; OpPut newline; OpPutNormal; OpPoll; OpSend]).
  assert (Hc : (SYN =? uchar (char_at expr (length_of expr - 1))) ||
               (CAN =? uchar (char_at expr (length_of expr - 1))) ||
               (ESC =? uchar (char_at expr (length_of expr - 1))) = true).
  { unfold last_byte in Hlast. destruct Hlast as [-> | [-> | ->]]; reflexivity. }
  assert (Hrec : receive expr (set_self Caller (shell c)) =
                 Ret (Answer plan) (set_poll_needed false (set_self Caller (shell c)))).
  { rewrite receive_scan by lia. rewrite (iac_scan_no_escape expr) by assumption.
    cbn zeta. rewrite Hc. reflexivity. }
  assert (Hs1 : Serving k plan
            (puts (abort_prompt (shell c)) (normal_prompt (shell c)) plan) c c1).
  { apply (received_answer expr); auto. }
  assert (Htarget : puts (abort_prompt (shell c)) (normal_prompt (shell c)) plan =
                    (newline ++ normal_prompt (shell c))%string).
  { cbn [puts plan]. rewrite append_empty_r. reflexivity. }
  rewrite Htarget in Hs1.
  assert (Hleft : length (accesses_left (blocked c1)) = 6%nat).
  { cbn [step] in Hstep. unfold turn_receive in Hstep. rewrite Hb, Hdel, Hrec in Hstep.
    injection Hstep as <-. reflexivity. }
  assert (Hne : (newline ++ normal_prompt (shell c))%string <> ""%string).
  { unfold newline. cbn [append]. discriminate. }
  destruct (serving_run k plan _ c schedule Hne Hturns c1 c' Hs1 Hrest)
    as [Hs' Hcount].
  destruct (serving_end k plan _ c c' Hs') as (Hpc & _ & _ & _ & text & Hdeeds & Htext).
  split; [exact Hpc|]. split; [lia|].
  split; [apply (serving_progress k plan _ c c' Hs')|].
  exists text. split; [exact Hdeeds|exact Htext].
Qed.

(** X10: an interrupt is served at once, whatever the workers are
    doing.  In a session, a line whose trailing window holds the escape
    prefix followed by the interrupt or the abort-output marker, with no
    erase-line escape nearer to the end, received while the caller is
    outside [eval], is answered in exactly five turns of the caller,
    however the turns of the workers are interleaved with them: the
    caller never waits in a [join], it can always take its next turn,
    and it leaves the two handles and the number of threads as they
    were. *)
Theorem X10_interrupt_is_served_at_once (ev : E) done0 needed0 hush_o hush_p k
    before (c : Config) expr i schedule c' :
  run before (session ev done0 needed0 hush_o hush_p k) = Some c ->
  length_of expr <= INT_MAX ->
  in_window expr i ->
  escape_with expr i IP \/ escape_with expr i AO ->
  (forall j, i < j <= length_of expr - 2 -> ~ escape_with expr j EL) ->
  forallb is_turn schedule = true ->
  run (Receive expr :: schedule) c = Some c' ->
  (blocked c' = None \/
   exists ops held, blocked c' = Some (InCall ops held ThenDestruct)) /\
  (blocked c' = None <-> caller_turns schedule = 5%nat) /\
  (blocked c' <> None -> exists c'', step Resume c' = Some c'') /\
  evalthr (shell c') = evalthr (shell c) /\
  pollthr (shell c') = pollthr (shell c) /\
  length (threads (shell c')) = length (threads (shell c)).
Proof.
  intros Hbefore Hlen Hi Hesc Hlater Hturns Hrun.
  destruct (received_outside ev done0 needed0 hush_o hush_p k before c expr
              schedule c' Hbefore Hrun)
    as (c1 & Hstep & Hrest & Hb & Hdel & Hsock & Hap & Hsd & Hpo).
  set (plan := [OpInterrupt; OpClearPending; OpPutAbort; OpPoll; OpSend]).
  assert (Hrec : receive expr (set_self Caller (shell c)) =
                 Ret (Answer plan) (set_poll_needed false (set_self Caller (shell c)))).
  { rewrite receive_scan by (unfold in_window in Hi; lia).
    rewrite (iac_scan_abort expr i) by assumption. reflexivity. }
  assert (Hs1 : Serving k plan
            (puts (abort_prompt (shell c)) (normal_prompt (shell c)) plan) c c1).
  { apply (received_answer expr); auto. }
  assert (Hleft : length (accesses_left (blocked c1)) = 5%nat).
  { cbn [step] in Hstep. unfold turn_receive in Hstep. rewrite Hb, Hdel, Hrec in Hstep.
    injection Hstep as <-. reflexivity. }
  assert (Htarget : puts (abort_prompt (shell c)) (normal_prompt (shell c)) plan =
                    abort_acknowledgment).
  { cbn [puts plan]. rewrite append_empty_r. exact Hap. }
  rewrite Htarget in Hs1.
  destruct (serving_run k plan abort_acknowledgment c schedule
              ltac:(discriminate) Hturns c1 c' Hs1 Hrest) as [Hs' Hcount].
  destruct (serving_end k plan abort_acknowledgment c c' Hs')
    as (Hpc & Heth & Hpth & Hths & _).
  split; [exact Hpc|].
  split.
  { split.
    - intros Hnone. rewrite Hnone in Hcount. cbn [accesses_left length] in Hcount. lia.
    - intros Hfive.
      destruct Hpc as [Hnone|(ops & held & Hin)]; [exact Hnone|exfalso].
      destruct Hs' as (_ & _ & _ & _ & _ & _ & _ & _ & _ & Hcase).
      rewrite Hin in Hcase, Hcount. cbn [accesses_left] in Hcount.
      destruct ops as [|op rest]; [|cbn [length] in Hcount; lia].
      destruct Hcase as [(Hbp & _)|(Hcase & _)]; discriminate. }
  split; [apply (serving_progress k plan _ c c' Hs')|].
  auto.
Qed.

End AnsweredLines.

(** * Lines that are evaluated *)

Lemma started_app tr tr' : started (tr ++ tr') = started tr ++ started tr'.
Proof. unfold started. apply omap_app. Qed.

Lemma started_poll_calls who acts :
  forallb is_poll_action acts = true -> started (by_ who acts) = [].
Proof.
  induction acts as [|a acts IH]; [reflexivity|].
  cbn [forallb]. intros Hall. apply andb_prop in Hall as [Ha Hall].
  change (by_ who (a :: acts)) with ([Build_Event who a] ++ by_ who acts).
  rewrite started_app, (IH Hall), app_nil_r.
  destruct a as [c| | | | |]; try discriminate. reflexivity.
Qed.

Lemma omap_agree {A B} (f g : A -> option B) (l : list A) :
  (forall i x, l !! i = Some x -> f x = g x) -> omap f l = omap g l.
Proof.
  induction l as [|x l IH]; intros Hall; [reflexivity|].
  cbn. rewrite (Hall 0%nat x eq_refl). rewrite IH; [reflexivity|].
  intros i y Hy. apply (Hall (S i) y Hy).
Qed.

Section EvaluatedLines.
Context {E : Type} `{GenericEval E}.

(** A turn of a worker creates no thread and changes no entry of the
    table but its own, which keeps its input. *)
Lemma as_worker_table t (s s' : GenericShell E) :
  as_worker t s = Some s' ->
  started (trace s') = started (trace s) /\
  exists w w', threads s !! t = Some w /\
    threads s' = <[t := w']> (threads s) /\
    worker_input w' = worker_input w.
Proof.
  intros Hrun.
  destruct (threads s !! t) as [[input [|]|at_]|] eqn:Hw.
  - rewrite (as_worker_finished t _ s Hw eq_refl) in Hrun. discriminate.
  - rewrite (as_worker_eval t input s Hw) in Hrun. injection Hrun as <-.
    cbn [threads trace set_threads set_evaluator set_trace set_self].
    split.
    + change (by_ (Thread t) [Invoke (eval_expr_call input)])
        with [Build_Event (Thread t) (Invoke (eval_expr_call input))].
      rewrite started_snoc. cbn. apply app_nil_r.
    + do 2 eexists. split; [reflexivity|]. split; reflexivity.
  - unfold as_worker in Hrun. rewrite Hw in Hrun.
    destruct at_ as [|retstr|]; [| |discriminate]; cbn [poll_wrapper_turn] in Hrun;
      unfold bind in Hrun.
    + destruct (poll_output_frame (set_self (Thread t) s)) as (r & s1 & Hs1 & Hfr & _).
      pose proof (quiet_poll_calls (set_self (Thread t) s)) as Hq.
      rewrite Hs1 in Hrun, Hq.
      destruct Hq as (Hths & _ & _ & _ & acts & Htr & Hacts).
      cbn [threads trace set_self self] in *.
      assert (Hst : started (trace s1) = started (trace s)).
      { rewrite Htr, started_app, (started_poll_calls _ _ Hacts). apply app_nil_r. }
      destruct (0 <? String.length r)%nat; injection Hrun as <-;
        cbn [threads trace set_threads]; rewrite Hths;
        (split; [exact Hst|]); do 2 eexists;
        (split; [reflexivity|]); split; reflexivity.
    + unfold socket_Send, on_socket, bind, gets, log, modify, set_worker in Hrun.
      cbn [socket set_self] in Hrun.
      destruct (socket s) as [k|] eqn:Hsock; [|discriminate]. injection Hrun as <-.
      cbn [threads trace set_threads set_trace set_self self].
      split.
      * rewrite started_snoc. cbn. apply app_nil_r.
      * do 2 eexists. split; [reflexivity|]. split; reflexivity.
  - unfold as_worker in Hrun. rewrite Hw in Hrun. discriminate.
Qed.

Lemma joinable_dec h (s : GenericShell E) : joinable h s \/ ~ joinable h s.
Proof.
  unfold joinable. destruct h as [t|]; [|left; exact I].
  destruct (threads s !! t) as [w|] eqn:Hw.
  - destruct (finished w) eqn:Hf.
    + left. exists w. auto.
    + right. intros (w' & Hw' & Hf'). congruence.
  - right. intros (w' & Hw' & _). discriminate.
Qed.

Lemma handles_valid (s : GenericShell E) :
  Paired (threads s) (evalthr s) (pollthr s) ->
  forall t, In t (handles s) -> exists w, threads s !! t = Some w.
Proof.
  intros HP t Ht. apply lookup_lt_is_Some. apply (Paired_valid _ _ _ t HP).
  unfold handles in Ht. apply in_app_or in Ht.
  destruct (evalthr s), (pollthr s); cbn in Ht; intuition (subst; auto).
Qed.

(** The next turn of a caller that waits in [do_eval]. *)
Lemma waiting_turn k input (c : @Config E) :
  Good k c -> SInv (shell c) -> blocked c = Some (InDoEval input) ->
  exists c', step Resume c = Some c' /\
    ((blocked c' = Some (InDoEval input) /\
      threads (shell c') = threads (shell c) /\
      ~ (joinable (evalthr (shell c)) (shell c) /\
         joinable (pollthr (shell c)) (shell c))) \/
     (blocked c' = None /\
      threads (shell c') =
        threads (shell c) ++ [EvalWorker input false; PollWorker Polling] /\
      joinable (evalthr (shell c)) (shell c) /\
      joinable (pollthr (shell c)) (shell c))).
Proof.
  intros Hgood Hinv Hb.
  destruct Hgood as (_ & _ & _ & HP & _ & Hpc).
  rewrite Hb in Hpc. destruct Hpc as [Hsd _].
  pose proof (handles_valid (shell c) HP) as Hvalid.
  destruct c as [s b]. cbn [shell blocked] in *. subst b.
  cbn [step]. unfold turn_resume. cbn [blocked shell resume]. unfold as_caller.
  destruct (joinable_dec (evalthr s) s) as [Hje|Hje];
    [destruct (joinable_dec (pollthr s) s) as [Hjp|Hjp]|].
  - destruct (evaluation_started input (set_self Caller s))
      as (s1 & Hrun & Hths & _); [exact Hje|exact Hjp|exact Hsd|].
    rewrite Hrun. eexists. split; [reflexivity|]. right.
    cbn [blocked shell]. cbn [threads set_self] in Hths. auto.
  - destruct (evaluation_waits input (set_self Caller s))
      as (s1 & Hrun & Hths & _); [exact Hvalid|intros [_ Hj]; exact (Hjp Hj)|].
    rewrite Hrun. eexists. split; [reflexivity|]. left.
    cbn [blocked shell]. cbn [threads set_self] in Hths.
    split; [reflexivity|]. split; [exact Hths|]. intros [_ Hj]. exact (Hjp Hj).
  - destruct (evaluation_waits input (set_self Caller s))
      as (s1 & Hrun & Hths & _); [exact Hvalid|intros [Hj _]; exact (Hje Hj)|].
    rewrite Hrun. eexists. split; [reflexivity|]. left.
    cbn [blocked shell]. cbn [threads set_self] in Hths.
    split; [reflexivity|]. split; [exact Hths|]. intros [Hj _]. exact (Hje Hj).
Qed.

Lemma evaluating_step k input (c0 c c' : @Config E) a :
  is_turn a = true -> Good k c -> SInv (shell c) ->
  Evaluating input c0 c -> step a c = Some c' -> Evaluating input c0 c'.
Proof.
  intros Ha Hgood Hinv Hev Hstep.
  pose proof (step_good k a c c' Hgood Hinv Hstep) as Hgood'.
  assert (HW : WInv k (threads (shell c)) (trace (shell c)))
    by (destruct Hgood as (_ & _ & HW & _); exact HW).
  assert (HW' : WInv k (threads (shell c')) (trace (shell c')))
    by (destruct Hgood' as (_ & _ & HW' & _); exact HW').
  destruct a as [expr|expr| |t]; try discriminate.
  - destruct Hev as [(Hb & Hlen & Hst)|(Hb & _)].
    + destruct (waiting_turn k input c Hgood Hinv Hb) as (c1 & Hc1 & Hcase).
      rewrite Hc1 in Hstep. injection Hstep as ->.
      destruct Hcase as [(Hb' & Hths & _)|(Hb' & Hths & _)].
      * left. split; [exact Hb'|]. rewrite Hths. split; [exact Hlen|].
        rewrite (w_started _ _ _ HW'), Hths, <- (w_started _ _ _ HW). exact Hst.
      * right. split; [exact Hb'|]. rewrite Hths, length_app. cbn [length].
        split; [lia|]. split.
        -- rewrite (w_started _ _ _ HW'), Hths, omap_app, <- (w_started _ _ _ HW), Hst.
           reflexivity.
        -- exists false. rewrite <- Hlen. apply list_lookup_middle. reflexivity.
    + cbn [step] in Hstep. unfold turn_resume in Hstep. rewrite Hb in Hstep.
      discriminate.
  - cbn [step] in Hstep.
    destruct (as_worker t (shell c)) as [s'|] eqn:Hw; [|discriminate].
    injection Hstep as <-. cbn [shell blocked].
    destruct (as_worker_frame t _ _ Hw) as (_ & _ & _ & _ & _ & _ & _ & Hlen' & _).
    destruct (as_worker_table t _ _ Hw) as (Hst' & w & w' & Hwt & Hths & Hin).
    destruct Hev as [(Hb & Hlen & Hst)|(Hb & Hlen & Hst & done & Hn)].
    + left. cbn [shell blocked]. rewrite Hlen', Hst'. auto.
    + right. cbn [shell blocked]. rewrite Hlen', Hst'.
      split; [exact Hb|]. split; [exact Hlen|]. split; [exact Hst|].
      rewrite Hths.
      destruct (decide (length (threads (shell c0)) = t)) as [Heq|Hne].
      * rewrite Heq in *. rewrite Hn in Hwt. injection Hwt as <-.
        destruct w' as [input' done'|at_]; [|discriminate].
        cbn in Hin. injection Hin as ->. exists done'.
        apply list_lookup_insert_eq. eapply lookup_lt_Some. exact Hn.
      * exists done. rewrite list_lookup_insert_ne by congruence. exact Hn.
Qed.

Lemma evaluating_run k input (c0 : @Config E) schedule :
  forallb is_turn schedule = true ->
  forall c c', Good k c -> SInv (shell c) -> Evaluating input c0 c ->
    run schedule c = Some c' ->
    Good k c' /\ SInv (shell c') /\ Evaluating input c0 c'.
Proof.
  induction schedule as [|a rest IH]; intros Hall c c' Hgood Hinv Hev Hrun;
    cbn [run] in Hrun.
  - injection Hrun as <-. auto.
  - cbn [forallb] in Hall. apply andb_prop in Hall as [Ha Hall].
    destruct (step a c) as [c1|] eqn:Hstep; [|discriminate].
    apply (IH Hall c1 c'); [| | |exact Hrun].
    + eapply step_good; eassumption.
    + eapply step_inv; eassumption.
    + eapply evaluating_step; eassumption.
Qed.

(** Once the call has returned, every evaluation started before has been
    carried out, and the one of the line has been carried out if its
    thread has returned. *)
Lemma evaluated_so_far k input (c0 c : @Config E) done :
  Good k c -> SInv (shell c) ->
  length (threads (shell c)) = S (S (length (threads (shell c0)))) ->
  started (trace (shell c)) = started (trace (shell c0)) ++ [input] ->
  threads (shell c) !! length (threads (shell c0)) = Some (EvalWorker input done) ->
  evaluated (trace (shell c)) =
  started (trace (shell c0)) ++ (if done then [input] else []).
Proof.
  intros Hgood Hinv Hlen Hst Hn.
  destruct Hgood as (_ & _ & HW & HP & _).
  set (n := length (threads (shell c0))) in *.
  set (ths := threads (shell c)) in *.
  pose proof (take_drop_middle ths n _ Hn) as Hsplit.
  assert (Hpre : length (take n ths) = n) by (rewrite length_take; lia).
  destruct (drop (S n) ths) as [|p [|q rest]] eqn:Hdrop.
  - apply (f_equal (@length _)) in Hdrop. rewrite length_drop in Hdrop.
    cbn in Hdrop. lia.
  - assert (Hp : ths !! S n = Some p).
    { rewrite <- (Nat.add_0_r (S n)), <- lookup_drop, Hdrop. reflexivity. }
    assert (Hkind : is_eval_worker p = false).
    { rewrite (w_kind _ _ _ HW _ _ Hp).
      destruct HP as (Heven & _). rewrite Hlen in Heven.
      change (Nat.even n = true) in Heven.
      rewrite even_succ_negb, Heven. reflexivity. }
    destruct p as [|at_]; [discriminate|].
    assert (Hold : omap worker_evaluated (take n ths) = omap worker_input (take n ths)).
    { apply omap_agree. intros i x Hx.
      pose proof (lookup_lt_Some _ _ _ Hx) as Hi. rewrite Hpre in Hi.
      rewrite lookup_take_lt in Hx by exact Hi.
      destruct x as [input' [|]|at']; try reflexivity.
      pose proof (running_eval_worker _ i input' Hinv Hx) as Heh.
      destruct HP as (_ & HPe & _). destruct (HPe i Heh) as [Hl _].
      fold ths in Hl. lia. }
    pose proof (w_started _ _ _ HW) as Hs. pose proof (w_evaluated _ _ _ HW) as He.
    fold ths in Hs, He. rewrite <- Hsplit in Hs, He.
    rewrite omap_app in Hs, He. cbn in Hs, He.
    rewrite Hst in Hs. apply app_inj_tail in Hs as [Hs _].
    rewrite He, Hold, <- Hs. destruct done; reflexivity.
  - apply (f_equal (@length _)) in Hdrop. rewrite length_drop in Hdrop.
    cbn in Hdrop. lia.
Qed.

(** What has become of a line handed to [do_eval], after any turns of
    the caller and of the threads. *)
Lemma line_outcome k input (c0 c1 c' : @Config E) schedule :
  Good k c1 -> SInv (shell c1) ->
  blocked c1 = Some (InDoEval input) ->
  threads (shell c1) = threads (shell c0) ->
  started (trace (shell c1)) = started (trace (shell c0)) ->
  forallb is_turn schedule = true -> run schedule c1 = Some c' ->
  let n := length (threads (shell c0)) in
  (blocked c' = Some (InDoEval input) /\
   length (threads (shell c')) = n /\
   started (trace (shell c')) = started (trace (shell c0)) /\
   exists c'', step Resume c' = Some c'' /\
     (blocked c'' = None <->
      joinable (evalthr (shell c')) (shell c') /\
      joinable (pollthr (shell c')) (shell c'))) \/
  (blocked c' = None /\
   started (trace (shell c')) = started (trace (shell c0)) ++ [input] /\
   exists done,
     threads (shell c') !! n = Some (EvalWorker input done) /\
     evaluated (trace (shell c')) =
       started (trace (shell c0)) ++ (if done then [input] else []) /\
     if done then step (Run n) c' = None
     else exists c'', step (Run n) c' = Some c'' /\
       evaluated (trace (shell c'')) = started (trace (shell c0)) ++ [input]).
Proof.
  intros Hgood Hinv Hb Hths Hst Hturns Hrun n.
  assert (Hev : Evaluating input c0 c1).
  { left. split; [exact Hb|]. rewrite Hths. auto. }
  destruct (evaluating_run k input c0 schedule Hturns c1 c' Hgood Hinv Hev Hrun)
    as (Hgood' & Hinv' & [(Hb' & Hlen' & Hst')|(Hb' & Hlen' & Hst' & done & Hn)]).
  - left. split; [exact Hb'|]. split; [exact Hlen'|]. split; [exact Hst'|].
    destruct (waiting_turn k input c' Hgood' Hinv' Hb') as (c'' & Hstep & Hcase).
    exists c''. split; [exact Hstep|].
    destruct Hcase as [(Hb'' & _ & Hno)|(Hb'' & _ & Hje & Hjp)].
    + split; [intros Hnone; congruence|intros Hj; contradiction].
    + split; [auto|auto].
  - right. split; [exact Hb'|]. split; [exact Hst'|].
    exists done. split; [exact Hn|].
    pose proof (evaluated_so_far k input c0 c' done Hgood' Hinv' Hlen' Hst' Hn) as Hdone.
    split; [exact Hdone|].
    destruct done.
    + cbn [step]. rewrite (as_worker_finished n _ _ Hn eq_refl). reflexivity.
    + cbn [step]. rewrite (as_worker_eval n input _ Hn).
      eexists. split; [reflexivity|].
      cbn [shell trace set_threads set_evaluator set_trace set_self].
      rewrite evaluated_app, Hdone, app_nil_r. reflexivity.
Qed.

Lemma receive_evaluate expr (s : GenericShell E) :
  1 <= length_of expr <= INT_MAX ->
  no_escape expr -> no_raw_control expr ->
  input_pending (evaluator s) = true \/ ~ leaves_shell expr ->
  receive expr s =
  Ret (Evaluate (expr ++ newline))
      (set_trace (trace s ++ by_ (self s) [Invoke input_pending_call])
         (set_poll_needed false s)).
Proof.
  intros Hlen Hno Hraw Hexit.
  destruct Hraw as (Hesc & Hcan & Hsyn). unfold last_byte in *.
  assert (Hc : (SYN =? uchar (char_at expr (length_of expr - 1))) ||
               (CAN =? uchar (char_at expr (length_of expr - 1))) ||
               (ESC =? uchar (char_at expr (length_of expr - 1))) = false).
  { rewrite !orb_false_iff, !Z.eqb_neq. repeat split; congruence. }
  assert (Hx : negb (input_pending (evaluator s)) &&
     ((EOT =? char_val (char_at expr (length_of expr - 1))) ||
      ((1 =? length_of expr) && (char_val "." =? char_val (char_at expr 0)))) = false).
  { destruct Hexit as [-> | Hx]; [reflexivity|].
    apply andb_false_iff; right. apply not_true_is_false.
    rewrite exit_test. exact Hx. }
  rewrite receive_scan by lia.
  rewrite (iac_scan_no_escape expr) by assumption.
  cbn zeta. rewrite Hc.
  open_shell s. shell_unfold. rewrite Hx. reflexivity.
Qed.

(** C6, amended: a line, not empty and shorter than 2^31 bytes, with no
    recognised escape in its trailing window, no raw control byte at its
    end, and that does not leave the shell, is received in a session
    while the caller is outside [eval].  The head of the call asks
    [input_pending] once and hands the line, with its newline put back,
    to [do_eval].  From then on, however the turns of the caller and of
    the threads are interleaved, one of two holds.  Either the caller
    still waits in the joins of [do_eval]: no thread has been created
    and no evaluation started since the line was received, and the
    caller's next turn leaves the joins exactly when the threads the
    handles point to have finished.  Or the call has returned: exactly
    one evaluation has been started since the line was received, that of
    the line with its newline; the evaluations started before have all
    been carried out; and [eval_expr] has been called for the line not
    at all as long as its thread has not taken its turn, and exactly
    once, by that one turn, afterwards. *)
Theorem C6_line_is_evaluated_once (ev : E) done0 needed0 hush_o hush_p k
    before (c : Config) expr :
  run before (session ev done0 needed0 hush_o hush_p k) = Some c ->
  blocked c = None -> deleted (shell c) = false ->
  1 <= length_of expr <= INT_MAX ->
  no_escape expr -> no_raw_control expr ->
  input_pending (evaluator (shell c)) = true \/ ~ leaves_shell expr ->
  let input := (expr ++ newline)%string in
  let n := length (threads (shell c)) in
  exists c1, step (Receive expr) c = Some c1 /\
    blocked c1 = Some (InDoEval input) /\
    trace (shell c1) = trace (shell c) ++ by_ Caller [Invoke input_pending_call] /\
    forall schedule c',
      forallb is_turn schedule = true -> run schedule c1 = Some c' ->
      (blocked c' = Some (InDoEval input) /\
       length (threads (shell c')) = n /\
       started (trace (shell c')) = started (trace (shell c)) /\
       exists c'', step Resume c' = Some c'' /\
         (blocked c'' = None <->
          joinable (evalthr (shell c')) (shell c') /\
          joinable (pollthr (shell c')) (shell c'))) \/
      (blocked c' = None /\
       started (trace (shell c')) = started (trace (shell c)) ++ [input] /\
       exists done,
         threads (shell c') !! n = Some (EvalWorker input done) /\
         evaluated (trace (shell c')) =
           started (trace (shell c)) ++ (if done then [input] else []) /\
         if done then step (Run n) c' = None
         else exists c'', step (Run n) c' = Some c'' /\
           evaluated (trace (shell c'')) = started (trace (shell c)) ++ [input]).
Proof.
  intros Hbefore Hb Hdel Hlen Hno Hraw Hexit input n.
  destruct (reached k ev done0 needed0 hush_o hush_p before c Hbefore) as [Hgood Hinv].
  assert (Hstep : step (Receive expr) c =
    Some {| shell := set_trace (trace (shell c) ++ by_ Caller [Invoke input_pending_call])
                       (set_poll_needed false (set_self Caller (shell c)));
            blocked := Some (InDoEval input) |}).
  { cbn [step]. unfold turn_receive. rewrite Hb, Hdel.
    rewrite (receive_evaluate expr (set_self Caller (shell c)) Hlen Hno Hraw Hexit).
    reflexivity. }
  eexists. split; [exact Hstep|]. cbn [blocked shell].
  split; [reflexivity|]. split; [reflexivity|].
  intros schedule c' Hturns Hrun.
  refine (line_outcome k input c _ c' schedule _ _ _ _ _ Hturns Hrun).
  - exact (step_good k _ c _ Hgood Hinv Hstep).
  - exact (step_inv _ c _ Hinv Hstep).
  - reflexivity.
  - reflexivity.
  - cbn [shell trace set_trace]. rewrite started_app. apply app_nil_r.
Qed.

(** C7, amended: the empty line, received in a session while the caller
    is outside [eval], goes straight to [do_eval] with the single
    newline: the head of the call makes no test of an escape, of a
    control byte or of the exit, and does not even ask the evaluator
    whether input is pending.  From then on, however the turns of the
    caller and of the threads are interleaved, either the caller still
    waits in the joins of [do_eval], no evaluation has been started
    since, and its next turn leaves the joins exactly when the threads
    the handles point to have finished; or the call has returned,
    exactly one evaluation has been started since the line was received,
    that of the newline, the evaluations started before have all been
    carried out, and [eval_expr] has been called for the newline not at
    all as long as its thread has not taken its turn, and exactly once,
    by that one turn, afterwards. *)
Theorem C7_empty_line_evaluates_newline (ev : E) done0 needed0 hush_o hush_p k
    before (c : Config) :
  run before (session ev done0 needed0 hush_o hush_p k) = Some c ->
  blocked c = None -> deleted (shell c) = false ->
  let n := length (threads (shell c)) in
  exists c1, step (Receive "") c = Some c1 /\
    blocked c1 = Some (InDoEval newline) /\
    trace (shell c1) = trace (shell c) /\
    forall schedule c',
      forallb is_turn schedule = true -> run schedule c1 = Some c' ->
      (blocked c' = Some (InDoEval newline) /\
       length (threads (shell c')) = n /\
       started (trace (shell c')) = started (trace (shell c)) /\
       exists c'', step Resume c' = Some c'' /\
         (blocked c'' = None <->
          joinable (evalthr (shell c')) (shell c') /\
          joinable (pollthr (shell c')) (shell c'))) \/
      (blocked c' = None /\
       started (trace (shell c')) = started (trace (shell c)) ++ [newline] /\
       exists done,
         threads (shell c') !! n = Some (EvalWorker newline done) /\
         evaluated (trace (shell c')) =
           started (trace (shell c)) ++ (if done then [newline] else []) /\
         if done then step (Run n) c' = None
         else exists c'', step (Run n) c' = Some c'' /\
           evaluated (trace (shell c'')) = started (trace (shell c)) ++ [newline]).
Proof.
  intros Hbefore Hb Hdel n.
  destruct (reached k ev done0 needed0 hush_o hush_p before c Hbefore) as [Hgood Hinv].
  assert (Hstep : step (Receive "") c =
    Some {| shell := set_poll_needed false (set_self Caller (shell c));
            blocked := Some (InDoEval newline) |}).
  { cbn [step]. unfold turn_receive. rewrite Hb, Hdel. reflexivity. }
  eexists. split; [exact Hstep|]. cbn [blocked shell].
  split; [reflexivity|]. split; [reflexivity|].
  intros schedule c' Hturns Hrun.
  refine (line_outcome k newline c _ c' schedule _ _ _ _ _ Hturns Hrun).
  - exact (step_good k _ c _ Hgood Hinv Hstep).
  - exact (step_inv _ c _ Hinv Hstep).
  - reflexivity.
  - reflexivity.
  - reflexivity.
Qed.

End EvaluatedLines.

(** * The claims on concrete lines *)

(** C1, counterexample: two runs.  In the first the line [x] is submitted
    and evaluated, then an interrupt is submitted while the polling
    thread has not relayed anything yet: the acknowledgment of the second
    submission reaches the socket before the output and the terminal
    prompt of the first.  In the second an erase-line is received during
    the same cycle and the caller's own [poll_output] picks up the output
    of the evaluation: the caller writes it after the polling thread has
    written the terminal prompt of the cycle. *)
Lemma C1_counterexample :
  (exists c,
     run interrupted_evaluation (session at_rest false false false false 7%nat) = Some c /\
     sent (trace (shell c)) =
       [(Caller, abort_acknowledgment);
        (Thread 1, ("x" ++ newline)%string);
        (Thread 1, "> "%string)]) /\
  (exists c,
     run relayed_by_the_caller (session at_rest false false false false 7%nat) = Some c /\
     blocked c = None /\
     evaluated (trace (shell c)) = [("x" ++ newline)%string] /\
     threads (shell c) = [EvalWorker ("x" ++ newline) true; PollWorker PollDone] /\
     sent (trace (shell c)) =
       [(Thread 1, "> "%string);
        (Thread 1, "> "%string);
        (Caller, ("x" ++ newline)%string)]).
Proof.
  split.
  - eexists. split; vm_compute; reflexivity.
  - eexists. split; [vm_compute; reflexivity|].
    split; [reflexivity|]. split; [reflexivity|]. split; reflexivity.
Qed.

Lemma C1_witness :
  exists c,
    run two_evaluations (session at_rest false false false false 7%nat) = Some c /\
    sent (trace (shell c)) =
      [(Thread 1, ("x" ++ newline)%string); (Thread 1, "> "%string);
       (Thread 3, ("y" ++ newline)%string); (Thread 3, "> "%string)] /\
    spawns_after_joins (trace (shell c)) /\
    pollers_after_joins (trace (shell c)) /\
    earlier_workers_silent (trace (shell c)) /\
    relays_in_order (trace (shell c)) /\
    last_thread_writes (trace (shell c)) /\
    acts_after_creation (trace (shell c)) /\
    caller_writes_in_place (trace (shell c)).
Proof.
  eexists. split; [vm_compute; reflexivity|]. split; [reflexivity|].
  eapply (C1_evaluations_are_serialized at_rest false false false false 7%nat
            two_evaluations).
  vm_compute. reflexivity.
Defined.

(** C2, counterexample: two runs.  In the first the window holds the
    escape prefix followed by the interrupt marker, and nearer to the end
    of the line the prefix followed by the erase-line marker: the line is
    taken as an erase-line, the evaluator is not interrupted and the
    prompt is relayed.  In the second the line is an interrupt, but the
    polling thread takes the acknowledgment out of [pending_output]
    before the caller polls: the caller relays the output of the
    evaluation and the polling thread writes the acknowledgment. *)
Lemma C2_counterexample :
  (let expr := line_of [0xff; 0xf4; 0xff; 0xf8] in
   in_window expr 0 /\ escape_with expr 0 IP /\
   exists s', eval expr (bound at_rest) = Ret tt s' /\
     trace s' = trace (bound at_rest) ++
       by_ Caller [Invoke input_pending_call; Send 7%nat "> "]) /\
  (let expr := line_of [0x61; 0xff; 0xf4] in
   in_window expr 1 /\ escape_with expr 1 IP /\
   exists c,
     run stolen_acknowledgment (session at_rest false false false false 7%nat) = Some c /\
     blocked c = None /\
     sent (trace (shell c)) =
       [(Caller, ("x" ++ newline)%string); (Thread 1, abort_acknowledgment)]).
Proof.
  split; cbv zeta.
  - split; [split; vm_compute; discriminate|].
    split; [split; reflexivity|].
    eexists. split; vm_compute; reflexivity.
  - split; [split; vm_compute; discriminate|].
    split; [split; reflexivity|].
    eexists. split; [vm_compute; reflexivity|]. split; reflexivity.
Qed.

Lemma poller_gone_no_poller : no_poller (shell (after poller_gone)).
Proof.
  intros t at_ Ht.
  destruct t as [|[|t]]; [discriminate Ht| |discriminate Ht].
  vm_compute in Ht. congruence.
Qed.

Lemma C2_witness :
  let line := line_of [0x61; 0xff; 0xf4] in
  let schedule := [Resume; Run 0; Resume; Resume; Resume; Resume] in
  let c := after poller_gone in
  exists c',
    run (Receive line :: schedule) c = Some c' /\
    blocked c' = None /\
    threads (shell c') = [EvalWorker ("x" ++ newline) true; PollWorker PollDone] /\
    deeds (trace (shell c')) =
      deeds (trace (shell c)) ++
      [Invoke interrupt_call; Invoke clear_pending_call;
       Send 7%nat abort_acknowledgment].
Proof.
  cbv zeta. eexists. split; [vm_compute; reflexivity|].
  split; [reflexivity|]. split; [reflexivity|].
  match goal with
  | |- deeds (trace (shell ?c')) = _ =>
      destruct (C2_nearest_escape_interrupts at_rest false false false false 7%nat
                  poller_gone (after poller_gone) (line_of [0x61; 0xff; 0xf4]) 1
                  [Resume; Run 0; Resume; Resume; Resume; Resume] c')
        as (_ & _ & _ & text & Hdeeds & Htext)
  end.
  - vm_compute. reflexivity.
  - vm_compute. discriminate.
  - split; vm_compute; discriminate.
  - left. split; reflexivity.
  - intros j Hj. exfalso.
    assert (Hl : length_of (line_of [0x61; 0xff; 0xf4]) = 3) by reflexivity.
    rewrite Hl in Hj. lia.
  - reflexivity.
  - vm_compute. reflexivity.
  - rewrite (Htext poller_gone_no_poller) in Hdeeds.
    cbn [blocked accesses_left ops_deeds map concat] in Hdeeds.
    rewrite app_nil_r in Hdeeds. exact Hdeeds.
Defined.

Lemma echo_at_rest_silent : silent at_rest.
Proof.
  intros n. induction n as [|n IH]; [reflexivity|].
  rewrite Nat.iter_succ_r. exact IH.
Qed.

Lemma C3_witness :
  exists s1, poll_output (bound at_rest) = Ret "> "%string s1 /\
    eval_done s1 = true /\
    exists s2, poll_output s1 = Ret ""%string s2 /\
      exists s3, poll_times 3 s2 = Ret [""; ""; ""]%string s3 /\ eval_done s3 = true.
Proof.
  destruct (C3_poll_output_priority (bound at_rest)) as (_ & _ & Hprompt & _).
  destruct (Hprompt eq_refl eq_refl eq_refl)
    as (chunk & s1 & Hrun & Hdone & Hpo & Hev & _ & Hchunk & Hnext).
  exists s1. split; [rewrite Hrun, Hchunk; reflexivity|].
  split; [exact Hdone|].
  assert (Hsilent : fst (poll_result (evaluator s1)) = ""%string)
    by (rewrite Hev; reflexivity).
  rewrite <- Hev in Hnext.
  exists (polled s1). split; [exact (Hnext Hsilent)|].
  destruct (C3_poll_output_priority s1) as (_ & _ & _ & _ & Hrest & _).
  apply (Hrest (polled s1) (Hnext Hsilent)).
  unfold polled. cbn [evaluator set_evaluator]. rewrite Hev.
  exact echo_at_rest_silent.
Defined.

(** C4: the code at a line that ends in end-of-transmission without
    consisting of it alone.  The shell sets [self_destruct], says farewell
    and deletes itself; nothing is evaluated. *)
Theorem C4_line_ending_in_EOT_leaves_the_shell :
  exists s', eval (line_of [0x61; 0x04]) (bound at_rest) = Ret tt s' /\
    self_destruct s' = true /\ deleted s' = true /\
    threads s' = [] /\ evaluated (trace s') = [] /\
    sent (trace s') = [(Caller, ("Exiting the shell" ++ newline)%string)].
Proof.
  eexists. split; [vm_compute; reflexivity|].
  split; [reflexivity|]. split; [reflexivity|]. split; [reflexivity|].
  split; vm_compute; reflexivity.
Qed.

(** C5, counterexample: a multi-line expression is pending and prompts are
    not suppressed, but the display of output is hushed.  The drained cycle
    ends with the empty string and not with the pending prompt. *)
Lemma C5_counterexample :
  let s := hushed mid_expression in
  pending_output s = ""%string /\
  fst (poll_result (evaluator s)) = ""%string /\
  eval_done s = false /\
  input_pending (snd (poll_result (evaluator s))) = true /\
  show_prompt s = true /\ pending_prompt s = "... "%string /\
  exists s', poll_output s = Ret ""%string s' /\ eval_done s' = true.
Proof.
  cbv zeta. do 6 (split; [reflexivity|]).
  eexists. split; vm_compute; reflexivity.
Qed.

Lemma C5_witness :
  exists s', poll_output (bound mid_expression) = Ret "... "%string s' /\
    eval_done s' = true.
Proof.
  destruct (C5_prompt_selection (bound mid_expression))
    as (chunk & s' & Hrun & Hdone & Hpending & _); try reflexivity.
  exists s'. rewrite Hrun, (Hpending eq_refl). split; [reflexivity|exact Hdone].
Defined.

Lemma window_of_two (expr : string) (j : Z) :
  length_of expr = 2 -> in_window expr j -> j = 0.
Proof. unfold in_window. intros ->. lia. Qed.

Lemma one_byte_has_no_window (expr : string) (j : Z) :
  length_of expr = 1 -> ~ in_window expr j.
Proof. unfold in_window. intros ->. lia. Qed.

(** C6, counterexample: the line [y] is received while the threads of
    the line [x] have not taken a turn.  The caller waits in the joins of
    [do_eval]: no evaluation of [y] has been started, [eval_expr] has not
    been called, and as long as the evaluation thread of [x] takes no
    turn the caller's next turn leaves everything as it is. *)
Lemma C6_counterexample :
  length_of "y" = 1 /\ no_escape "y" /\ no_raw_control "y" /\ ~ leaves_shell "y" /\
  exists c,
    run still_waiting (session at_rest false false false false 7%nat) = Some c /\
    blocked c = Some (InDoEval ("y" ++ newline)) /\
    started (trace (shell c)) = [("x" ++ newline)%string] /\
    evaluated (trace (shell c)) = [] /\
    step Resume c = Some c.
Proof.
  split; [reflexivity|]. split.
  { intros j Hj. destruct (one_byte_has_no_window "y" j eq_refl Hj). }
  split; [repeat split; vm_compute; discriminate|].
  split; [intros [Hl|He]; [vm_compute in Hl|]; discriminate|].
  eexists. split; [vm_compute; reflexivity|].
  split; [reflexivity|]. split; [reflexivity|]. split; [reflexivity|].
  vm_compute. reflexivity.
Qed.

Lemma C6_witness :
  exists c',
    run [Receive "ab"; Resume; Run 0]
      (session at_rest false false false false 7%nat) = Some c' /\
    blocked c' = None /\
    started (trace (shell c')) = [("ab" ++ newline)%string] /\
    evaluated (trace (shell c')) = [("ab" ++ newline)%string] /\
    step (Run 0) c' = None.
Proof.
  destruct (C6_line_is_evaluated_once at_rest false false false false 7%nat []
              (session at_rest false false false false 7%nat) "ab")
    as (c1 & Hstep & _ & _ & Hall).
  - reflexivity.
  - reflexivity.
  - reflexivity.
  - split; vm_compute; discriminate.
  - intros j Hj. apply (window_of_two "ab" j eq_refl) in Hj. subst j.
    repeat split; intros [Hc _]; vm_compute in Hc; discriminate.
  - repeat split; vm_compute; discriminate.
  - right. intros [Hl|He]; [vm_compute in Hl|]; discriminate.
  - assert (Hrun : exists c', run [Resume; Run 0] c1 = Some c' /\
               run [Receive "ab"; Resume; Run 0]
                 (session at_rest false false false false 7%nat) = Some c').
    { cbn [run]. rewrite Hstep.
      vm_compute in Hstep. injection Hstep as <-.
      eexists. split; vm_compute; reflexivity. }
    destruct Hrun as (c' & Hrun1 & Hrun).
    exists c'. split; [exact Hrun|].
    destruct (Hall [Resume; Run 0] c' eq_refl Hrun1)
      as [(Hb & _)|(Hb & Hst & done & Hn & Hev & Hend)].
    + vm_compute in Hrun. injection Hrun as <-. discriminate Hb.
    + assert (Hdone : done = true).
      { vm_compute in Hrun. injection Hrun as <-.
        vm_compute in Hn. congruence. }
      subst done. split; [exact Hb|]. split; [exact Hst|]. split; [exact Hev|].
      exact Hend.
Defined.

(** C7, counterexample: the empty line is received while the threads of
    the line [x] have not taken a turn.  The caller waits in the joins of
    [do_eval]: no evaluation of the newline has been started, [eval_expr]
    has not been called, and as long as the evaluation thread of [x]
    takes no turn the caller's next turn leaves everything as it is. *)
Lemma C7_counterexample :
  exists c,
    run still_waiting_empty (session at_rest false false false false 7%nat) = Some c /\
    blocked c = Some (InDoEval newline) /\
    started (trace (shell c)) = [("x" ++ newline)%string] /\
    evaluated (trace (shell c)) = [] /\
    step Resume c = Some c.
Proof.
  eexists. split; [vm_compute; reflexivity|].
  split; [reflexivity|]. split; [reflexivity|]. split; [reflexivity|].
  vm_compute. reflexivity.
Qed.

Lemma C7_witness :
  exists c',
    run [Receive ""; Resume; Run 0]
      (session at_rest false false false false 7%nat) = Some c' /\
    blocked c' = None /\
    started (trace (shell c')) = [newline] /\
    evaluated (trace (shell c')) = [newline] /\
    step (Run 0) c' = None.
Proof.
  destruct (C7_empty_line_evaluates_newline at_rest false false false false 7%nat []
              (session at_rest false false false false 7%nat))
    as (c1 & Hstep & _ & _ & Hall).
  - reflexivity.
  - reflexivity.
  - reflexivity.
  - assert (Hrun : exists c', run [Resume; Run 0] c1 = Some c' /\
               run [Receive ""; Resume; Run 0]
                 (session at_rest false false false false 7%nat) = Some c').
    { cbn [run]. rewrite Hstep.
      vm_compute in Hstep. injection Hstep as <-.
      eexists. split; vm_compute; reflexivity. }
    destruct Hrun as (c' & Hrun1 & Hrun).
    exists c'. split; [exact Hrun|].
    destruct (Hall [Resume; Run 0] c' eq_refl Hrun1)
      as [(Hb & _)|(Hb & Hst & done & Hn & Hev & Hend)].
    + vm_compute in Hrun. injection Hrun as <-. discriminate Hb.
    + assert (Hdone : done = true).
      { vm_compute in Hrun. injection Hrun as <-.
        vm_compute in Hn. congruence. }
      subst done. split; [exact Hb|]. split; [exact Hst|]. split; [exact Hev|].
      exact Hend.
Defined.

(** C8, counterexample: a cancel byte is received after the line [x] has
    been evaluated, and the polling thread polls between the two calls
    of [put_output].  The polling thread takes the newline, the caller
    the prompt, and the prompt reaches the socket before the newline. *)
Lemma C8_counterexample :
  let expr := line_of [0x18] in
  length_of expr = 1 /\ no_escape expr /\ last_byte expr = CAN /\
  exists c,
    run torn_reply (session at_rest false false false false 7%nat) = Some c /\
    blocked c = None /\
    sent (trace (shell c)) = [(Caller, "> "%string); (Thread 1, newline)].
Proof.
  cbv zeta. split; [reflexivity|]. split.
  { intros j Hj. destruct (one_byte_has_no_window (line_of [0x18]) j eq_refl Hj). }
  split; [reflexivity|].
  eexists. split; [vm_compute; reflexivity|]. split; reflexivity.
Qed.

Lemma C8_witness :
  let line := line_of [0x61; 0x1b] in
  let schedule := [Resume; Run 0; Resume; Resume; Resume; Resume; Resume] in
  let c := after poller_gone in
  exists c',
    run (Receive line :: schedule) c = Some c' /\
    blocked c' = None /\
    threads (shell c') = [EvalWorker ("x" ++ newline) true; PollWorker PollDone] /\
    deeds (trace (shell c')) =
      deeds (trace (shell c)) ++
      [Invoke interrupt_call; Invoke clear_pending_call;
       Send 7%nat (newline ++ "> ")].
Proof.
  cbv zeta. eexists. split; [vm_compute; reflexivity|].
  split; [reflexivity|]. split; [reflexivity|].
  match goal with
  | |- deeds (trace (shell ?c')) = _ =>
      destruct (C8_raw_control at_rest false false false false 7%nat
                  poller_gone (after poller_gone) (line_of [0x61; 0x1b])
                  [Resume; Run 0; Resume; Resume; Resume; Resume; Resume] c')
        as (_ & _ & _ & text & Hdeeds & Htext)
  end.
  - vm_compute. reflexivity.
  - split; vm_compute; discriminate.
  - intros j Hj. apply (window_of_two (line_of [0x61; 0x1b]) j eq_refl) in Hj. subst j.
    repeat split; intros [Hc _]; vm_compute in Hc; discriminate.
  - left. reflexivity.
  - reflexivity.
  - vm_compute. reflexivity.
  - rewrite (Htext poller_gone_no_poller) in Hdeeds.
    cbn [blocked accesses_left ops_deeds map concat] in Hdeeds.
    rewrite app_nil_r in Hdeeds. exact Hdeeds.
Defined.

Lemma C9_witness :
  set_socket (Some 8%nat) (bound at_rest) =
    Aborted "Shell already associated with socket!" (bound at_rest) /\
  exists s', set_socket (Some 7%nat) (fresh at_rest) = Ret tt s' /\
    socket s' = Some 7%nat /\
    trace s' = [{| actor := Caller; action := SetShell 7%nat true |}].
Proof.
  split.
  - apply (proj1 (C9_set_socket (bound at_rest))). discriminate.
  - eexists. split; [apply (proj2 (C9_set_socket (fresh at_rest)) eq_refl)|].
    split; reflexivity.
Defined.

Lemma C10_witness :
  (exists s', line_discipline (line_of [0x61; 0x18])
                (set_show_prompt false (hushed at_rest)) = Ret tt s' /\
     pending_output s' = (newline ++ "> ")%string) /\
  (exists s', line_discipline (line_of [0xff; 0xf8])
                (set_show_prompt false (hushed at_rest)) = Ret tt s' /\
     pending_output s' = ""%string).
Proof.
  destruct (C10_raw_control_prompt_is_unconditional
              (set_show_prompt false (hushed at_rest))) as [Hraw Herase].
  split.
  - destruct (Hraw (line_of [0x61; 0x18])) as (s' & Hrun & Hpo & _).
    + split; vm_compute; discriminate.
    + intros j Hj. apply (window_of_two (line_of [0x61; 0x18]) j eq_refl) in Hj. subst j.
      repeat split; intros [Hc _]; vm_compute in Hc; discriminate.
    + right. left. reflexivity.
    + exists s'. split; [exact Hrun|]. rewrite Hpo. reflexivity.
  - destruct (Herase (line_of [0xff; 0xf8]) 0) as (text & s1 & s' & _ & Hrun & Hpo & Hempty).
    + vm_compute. discriminate.
    + split; vm_compute; discriminate.
    + split; reflexivity.
    + intros j Hj. exfalso.
      assert (Hl : length_of (line_of [0xff; 0xf8]) = 2) by reflexivity.
      rewrite Hl in Hj. lia.
    + exists s'. split; [exact Hrun|]. rewrite Hpo, (Hempty eq_refl). reflexivity.
Defined.

(** * The conduct of a session on concrete schedules *)

Lemma X1_witness :
  exists c, run evaluated_once (session at_rest false false false false 7%nat) = Some c /\
    exists c', step (Run 1) c = Some c'.
Proof.
  eexists. split; [vm_compute; reflexivity|].
  eapply (X1_enabled_moves_never_fail at_rest false false false false 7%nat
            evaluated_once).
  - vm_compute. reflexivity.
  - eexists. split; reflexivity.
Defined.

Lemma X2_witness :
  exists c, run impatient (session at_rest false false false false 7%nat) = Some c /\
    blocked c = Some (InDoEval ("y" ++ newline)) /\ blocked c <> Some InEval.
Proof.
  eexists. split; [vm_compute; reflexivity|]. split; [reflexivity|].
  eapply (X2_eval_never_waits_for_the_poller at_rest false false false false 7%nat
            impatient).
  vm_compute. reflexivity.
Defined.

Lemma X3_witness :
  exists c, run two_evaluations (session at_rest false false false false 7%nat) = Some c /\
    length (threads (shell c)) = 4%nat /\
    Nat.even (length (threads (shell c))) = true /\
    forall t w, threads (shell c) !! t = Some w -> is_eval_worker w = Nat.even t.
Proof.
  eexists. split; [vm_compute; reflexivity|]. split; [reflexivity|].
  eapply (X3_two_threads_per_evaluation at_rest false false false false 7%nat
            two_evaluations).
  vm_compute. reflexivity.
Defined.

Lemma X4_witness :
  exists c, run impatient (session at_rest false false false false 7%nat) = Some c /\
    started (trace (shell c)) = [("x" ++ newline)%string] /\
    exists rest,
      started (trace (shell c)) = evaluated (trace (shell c)) ++ rest /\
      (length rest <= 1)%nat.
Proof.
  eexists. split; [vm_compute; reflexivity|]. split; [reflexivity|].
  eapply (X4_evaluated_in_the_order_started at_rest false false false false 7%nat
            impatient).
  vm_compute. reflexivity.
Defined.

Lemma X5_witness :
  exists c, run evaluated_once (session at_rest false false false false 7%nat) = Some c /\
    exists t, Thread 0 = Thread t /\
      threads (shell c) !! t = Some (EvalWorker ("x" ++ newline) true).
Proof.
  eexists. split; [vm_compute; reflexivity|].
  refine (X5_only_evaluation_workers_evaluate at_rest false false false false 7%nat
            evaluated_once _ 5%nat _ _ _ _).
  - vm_compute. reflexivity.
  - reflexivity.
Defined.

Lemma X6_witness :
  exists c, run output_relayed (session at_rest false false false false 7%nat) = Some c /\
    ((exists input, Send 7%nat ("x" ++ newline) = Invoke (eval_expr_call input)) \/
     ((exists at_, threads (shell c) !! 1%nat = Some (PollWorker at_)) /\
      ((exists call, Send 7%nat ("x" ++ newline) = Invoke call /\
                     is_poll_call call = true) \/
       (exists text, Send 7%nat ("x" ++ newline) = Send 7%nat text)))).
Proof.
  eexists. split; [vm_compute; reflexivity|].
  refine (X6_workers_keep_to_their_role at_rest false false false false 7%nat
            output_relayed _ 7%nat _ _ _ _).
  - vm_compute. reflexivity.
  - reflexivity.
Defined.

Lemma X7_witness :
  exists c, run output_relayed (session at_rest false false false false 7%nat) = Some c /\
    sent (trace (shell c)) = [(Thread 1, ("x" ++ newline)%string)] /\
    ("x" ++ newline)%string <> ""%string.
Proof.
  eexists. split; [vm_compute; reflexivity|]. split; [reflexivity|].
  refine (X7_workers_send_no_empty_text at_rest false false false false 7%nat
            output_relayed _ 1%nat _ _ _).
  - vm_compute. reflexivity.
  - left. reflexivity.
Defined.

Lemma X8_witness :
  exists c, run leaving (session at_rest false false false false 7%nat) = Some c /\
    evalthr (shell c) = None /\ pollthr (shell c) = None /\ blocked c = None /\
    (forall t w, threads (shell c) !! t = Some w -> finished w = true) /\
    forall a, step a c = None.
Proof.
  eexists. split; [vm_compute; reflexivity|].
  eapply (X8_deleted_shell_is_at_rest at_rest false false false false 7%nat leaving).
  - vm_compute. reflexivity.
  - reflexivity.
Defined.

Lemma X9_witness :
  exists c, run interrupted_evaluation
              (session at_rest false false false false 7%nat) = Some c /\
    pending_output (shell c) = ""%string /\
    (self_destruct (shell c) = true ->
     deleted (shell c) = true \/ blocked c = Some InDtor).
Proof.
  eexists. split; [vm_compute; reflexivity|].
  eapply (X9_nothing_stays_queued at_rest false false false false 7%nat
            interrupted_evaluation).
  - vm_compute. reflexivity.
  - reflexivity.
Defined.

Lemma X10_witness :
  let line := line_of [0x61; 0xff; 0xf4] in
  let schedule := [Resume; Run 0; Resume; Run 1; Resume; Resume; Resume] in
  exists c c',
    run [Submit "x"] (session at_rest false false false false 7%nat) = Some c /\
    run (Receive line :: schedule) c = Some c' /\
    blocked c' = None /\ caller_turns schedule = 5%nat /\
    evalthr (shell c') = evalthr (shell c) /\
    pollthr (shell c') = pollthr (shell c) /\
    length (threads (shell c')) = length (threads (shell c)).
Proof.
  cbv zeta. do 2 eexists.
  split; [vm_compute; reflexivity|]. split; [vm_compute; reflexivity|].
  match goal with
  | |- blocked ?c' = None /\ _ /\ evalthr _ = evalthr (shell ?c) /\ _ =>
      destruct (X10_interrupt_is_served_at_once at_rest false false false false 7%nat
                  [Submit "x"] c (line_of [0x61; 0xff; 0xf4]) 1
                  [Resume; Run 0; Resume; Run 1; Resume; Resume; Resume] c')
        as (_ & Hiff & _ & He & Hp & Hl)
  end.
  - vm_compute. reflexivity.
  - vm_compute. discriminate.
  - split; vm_compute; discriminate.
  - left. split; reflexivity.
  - intros j Hj. exfalso.
    assert (Hl : length_of (line_of [0x61; 0xff; 0xf4]) = 3) by reflexivity.
    rewrite Hl in Hj. lia.
  - reflexivity.
  - vm_compute. reflexivity.
  - split; [apply (proj2 Hiff); reflexivity|]. split; [reflexivity|].
    split; [exact He|]. split; [exact Hp|exact Hl].
Defined.

Lemma window_of_one (j : Z) : ~ in_window "." j.
Proof. unfold in_window. change (length_of ".") with 1. lia. Qed.

Lemma X11_witness :
  exists s', eval "." (bound at_rest) = Ret tt s' /\
    sent (trace s') = [(Caller, ("Exiting the shell" ++ newline)%string)] /\
    deleted s' = true.
Proof.
  destruct (X11_leaving_the_shell "." 7%nat (bound at_rest))
    as (s' & Hrun & Htr & _ & Hdel & _).
  - split; vm_compute; discriminate.
  - intros j Hj. destruct (window_of_one j Hj).
  - right. reflexivity.
  - reflexivity.
  - reflexivity.
  - reflexivity.
  - reflexivity.
  - exact I.
  - exact I.
  - exists s'. split; [exact Hrun|]. rewrite Htr. split; [reflexivity|exact Hdel].
Defined.

Lemma twenty_has_no_escape_prefix (j : Z) : uchar (char_at twenty j) <> IAC.
Proof.
  unfold char_at. destruct (Z.to_nat j) as [|n]; [vm_compute; discriminate|].
  do 20 (destruct n as [|n]; [vm_compute; discriminate|]).
  vm_compute. discriminate.
Qed.

Lemma X12_witness :
  exists s', eval (line_of [0xff; 0xf4] ++ twenty) (bound at_rest) = Ret tt s' /\
    threads s' =
      [EvalWorker ((line_of [0xff; 0xf4] ++ twenty) ++ newline) false;
       PollWorker Polling] /\
    sent (trace s') = [].
Proof.
  destruct (X12_escapes_before_the_window_are_ignored (line_of [0xff; 0xf4]) twenty
              (bound at_rest)) as (s' & Hrun & Hths & Htr).
  - vm_compute. discriminate.
  - vm_compute. discriminate.
  - intros j _.
    repeat split; intros [Hc _]; exact (twenty_has_no_escape_prefix j Hc).
  - repeat split; vm_compute; discriminate.
  - vm_compute. discriminate.
  - exact I.
  - exact I.
  - reflexivity.
  - exists s'. split; [exact Hrun|]. split; [exact Hths|].
    rewrite Htr. reflexivity.
Defined.

Lemma X13_witness :
  exists s', eval (line_of [0x61; 0xff; 0xf8]) (bound mid_expression) = Ret tt s' /\
    sent (trace s') = [(Caller, "... "%string)] /\
    evaluator s' = mid_expression.
Proof.
  destruct (X13_erase_line_resends_the_prompt (line_of [0x61; 0xff; 0xf8]) 1 7%nat
              (bound mid_expression)) as (s' & Hrun & Htr & Hev & _).
  - vm_compute. discriminate.
  - split; vm_compute; discriminate.
  - split; reflexivity.
  - intros j Hj. exfalso.
    assert (Hl : length_of (line_of [0x61; 0xff; 0xf8]) = 3) by reflexivity.
    rewrite Hl in Hj. lia.
  - intros t w Ht. destruct t; discriminate Ht.
  - reflexivity.
  - reflexivity.
  - reflexivity.
  - reflexivity.
  - discriminate.
  - exists s'. split; [exact Hrun|]. rewrite Htr. split; [reflexivity|exact Hev].
Defined.


Lemma X16_witness :
  exists c, run patient (session at_rest false false false false 7%nat) = Some c /\
    blocked c = Some (InDoEval ("y" ++ newline)) /\
    exists c', step Resume c = Some c' /\ blocked c' = None /\
      threads (shell c') =
        threads (shell c) ++ [EvalWorker ("y" ++ newline) false; PollWorker Polling].
Proof.
  eexists. split; [vm_compute; reflexivity|]. split; [reflexivity|].
  match goal with
  | |- exists c', step Resume ?c = _ /\ _ =>
      refine (proj2 (X16_a_waiting_caller_resumes at_rest false false false false
                       7%nat patient c ("y" ++ newline) _ _) _)
  end.
  - vm_compute. reflexivity.
  - reflexivity.
  - intros t w Hin Hw. cbn in Hin.
    destruct Hin as [<-|[<-|[]]]; cbn in Hw; injection Hw as <-; reflexivity.
Defined.

Lemma X18_witness :
  exists c,
    run [Submit (line_of [0xff; 0xf8])]
      (session at_rest false false false true 7%nat) = Some c /\
    trace (shell c) =
      by_ Caller [SetShell 7%nat true; Invoke poll_result_call;
                  Invoke input_pending_call; Send 7%nat ""%string].
Proof.
  destruct (X18_hushed_session_reads_eval_done at_rest false false false 7%nat
              (line_of [0xff; 0xf8]) 0) as (c & Hrun & _ & _ & Htr).
  - reflexivity.
  - vm_compute. discriminate.
  - split; vm_compute; discriminate.
  - split; reflexivity.
  - intros j Hj. exfalso.
    assert (Hl : length_of (line_of [0xff; 0xf8]) = 2) by reflexivity.
    rewrite Hl in Hj. lia.
  - exists c. split; [exact Hrun|]. rewrite Htr. reflexivity.
Defined.

Lemma X19_witness :
  exists r s',
    poll_output (bound talking) = Ret r s' /\
    (hush_output true;; hush_prompt true;; poll_output) (bound talking) =
      Ret r (set_show_prompt (negb true) (set_show_output (negb true) s')).
Proof.
  apply (X19_toggles_hush_prompts_only true true (bound talking)).
  right. left. discriminate.
Defined.

Lemma X20_witness :
  exists c, run [Submit "x"] (session at_rest false false false false 7%nat) = Some c /\
    exists s1 joined, eval "y" (shell c) = Blocked (InDoEval ("y" ++ newline)) s1 /\
      threads s1 = threads (shell c) /\
      trace s1 = trace (shell c) ++
        by_ (self (shell c)) (Invoke input_pending_call :: map Join joined) /\
      evaluated (trace s1) = evaluated (trace (shell c)).
Proof.
  eexists. split; [vm_compute; reflexivity|].
  apply (X20_a_new_line_waits_for_the_previous "y" _ 0%nat
           (EvalWorker ("x" ++ newline) false)).
  - split; vm_compute; discriminate.
  - intros j Hj. exfalso. unfold in_window in Hj.
    change (length_of "y") with 1 in Hj. lia.
  - repeat split; vm_compute; discriminate.
  - right. intros [Hl|He]; [vm_compute in Hl|]; discriminate.
  - intros t' Hin. cbn in Hin. destruct Hin as [<-|[<-|[]]]; eexists; reflexivity.
  - left. reflexivity.
  - reflexivity.
  - reflexivity.
Defined.

Lemma X21_witness :
  exists c, run poller_gone (session at_rest false false false false 7%nat) = Some c /\
    exists s1, eval "." (set_self Caller (shell c)) = Blocked InDtor s1 /\
      sent (trace s1) =
        [(Thread 1, "> "%string);
         (Caller, ("Exiting the shell" ++ newline)%string)] /\
      deleted s1 = false.
Proof.
  eexists. split; [vm_compute; reflexivity|].
  match goal with
  | |- exists s1, eval _ ?s = _ /\ _ =>
      destruct (X21_leaving_while_a_thread_runs "." 7%nat s 0%nat
                  (EvalWorker ("x" ++ newline) false))
        as (s1 & Hrun & Htr & _ & Hdel & _)
  end.
  - split; vm_compute; discriminate.
  - intros j Hj. destruct (window_of_one j Hj).
  - right. reflexivity.
  - reflexivity.
  - reflexivity.
  - reflexivity.
  - reflexivity.
  - reflexivity.
  - intros t at_ Ht.
    destruct t as [|[|t]]; [discriminate Ht| |discriminate Ht].
    vm_compute in Ht. congruence.
  - reflexivity.
  - reflexivity.
  - reflexivity.
  - exists s1. split; [exact Hrun|]. rewrite Htr. split; [reflexivity|exact Hdel].
Defined.

Lemma X22_witness :
  exists c, run impatient (session at_rest false false false false 7%nat) = Some c /\
    evalthr (shell c) = Some 0%nat /\
    forall t' w', threads (shell c) !! t' = Some w' -> finished w' = false ->
      is_eval_worker w' = true -> t' = 0%nat.
Proof.
  eexists. split; [vm_compute; reflexivity|].
  refine (X22_one_evaluation_at_a_time at_rest false false false false 7%nat
            impatient _ 0%nat (EvalWorker ("x" ++ newline) false) _ _ _).
  - vm_compute. reflexivity.
  - reflexivity.
  - reflexivity.
Defined.

Lemma X23_witness :
  exists c, run two_evaluations (session at_rest false false false false 7%nat) = Some c /\
    handles (shell c) = [2%nat; 3%nat] /\
    joined_once (trace (shell c)) /\
    forall t, In t (handles (shell c)) -> not_joined (trace (shell c)) t.
Proof.
  eexists. split; [vm_compute; reflexivity|]. split; [reflexivity|].
  eapply (X23_no_thread_is_joined_twice at_rest false false false false 7%nat
            two_evaluations).
  vm_compute. reflexivity.
Defined.
